(** * Emergency routing over a turn-cost-aware edge graph

    A shallow embedding of the routing core of the repository
    (src/core/constraints.py, src/core/search_algorithms.py,
    src/core/route_planner.py and src/utils/graph_utils.py) and the
    properties of it that the specification states.

    Conventions of the embedding:
    - Python floats are exact rationals ([Q]); [math.inf] is the extra
      point [Inf] of [cost].  Sums are written in the order the code
      computes them and compared with [Qle], [Qlt] and [Qeq].
    - A Python dict keyed by strings is a [gmap string pyval]; the
      attribute dict of a road segment is a record whose optional keys are
      [option] fields ([None]: the key is absent).
    - A [networkx.DiGraph] is the list of its nodes with their data and the
      list of its edges, both in insertion order.
    - An exception is the [Raise] outcome; a [while] loop runs on fuel and
      [OutOfFuel] stands for a run that has not finished yet.
    - What Python leaves to the runtime (iteration order of a [set],
      [math.hypot], parsing a number out of a string) is a field of the
      class [PyRuntime]; every theorem holds for every runtime. *)

From Stdlib Require Import QArith Qabs Lqa ZArith Ascii String List.
From stdpp Require Import gmap strings list.
From Stdlib Require Import DecimalString.

Set Warnings "-clear-no-such-hyp".

Abbreviation segment := (Z * Z * Z)%type.

(** ** Outcomes: return, exception, or loop not finished *)

Inductive exn :=
  KeyError | ValueError | TypeError | AttributeError | StopIteration
| ZeroDivisionError.

Inductive outcome (A : Type) :=
| Ret (a : A)
| Raise (e : exn)
| OutOfFuel.
Arguments Ret {A} a.
Arguments Raise {A} e.
Arguments OutOfFuel {A}.

Definition bind {A B} (m : outcome A) (k : A -> outcome B) : outcome B :=
  match m with
  | Ret a => k a
  | Raise e => Raise e
  | OutOfFuel => OutOfFuel
  end.

Notation "x <- m ;; k" := (bind m (fun x => k))
  (at level 100, m at next level, right associativity).

Definition of_fuel {A} (o : option A) : outcome A :=
  match o with Some a => Ret a | None => OutOfFuel end.

(** ** Numbers *)

Definition Qltb (x y : Q) : bool :=
  match (x ?= y)%Q with Lt => true | _ => false end.

Inductive cost := Fin (q : Q) | Inf.

Definition cost_lt (a b : cost) : bool :=
  match a, b with
  | Fin x, Fin y => Qltb x y
  | Fin _, Inf => true
  | Inf, _ => false
  end.

Definition cost_add (a b : cost) : cost :=
  match a, b with
  | Fin x, Fin y => Fin (x + y)
  | _, _ => Inf
  end.

(** [cost_le a b]: [a <= b] in the order of the extended rationals. *)
Definition cost_le (a b : cost) : Prop :=
  match a, b with
  | Fin x, Fin y => (x <= y)%Q
  | _, Inf => True
  | Inf, Fin _ => False
  end.

Definition cost_eq (a b : cost) : Prop :=
  match a, b with
  | Fin x, Fin y => (x == y)%Q
  | Inf, Inf => True
  | _, _ => False
  end.

(** ** Python values held in attribute and constraint dicts *)

#[warnings="-register-all"]
Inductive pyval :=
| VNone
| VBool (b : bool)
| VInt (z : Z)
| VFloat (q : Q)
| VStr (s : string)
| VList (l : list pyval).

(** [bool(v)] *)
Definition truthy (v : pyval) : bool :=
  match v with
  | VNone => false
  | VBool b => b
  | VInt z => negb (z =? 0)%Z
  | VFloat q => negb (Qeq_bool q 0)
  | VStr s => negb (String.eqb s "")
  | VList l => match l with [] => false | _ => true end
  end.

(** The numeric value of a bool, int or float. *)
Definition py_num (v : pyval) : option Q :=
  match v with
  | VBool b => Some (if b then 1 else 0)%Q
  | VInt z => Some (inject_Z z)
  | VFloat q => Some q
  | _ => None
  end.

(** [a == b] *)
Fixpoint py_eq (a b : pyval) : bool :=
  match a, b with
  | VNone, VNone => true
  | VStr s, VStr t => String.eqb s t
  | VList l, VList m =>
      (fix go (l m : list pyval) : bool :=
         match l, m with
         | [], [] => true
         | x :: l', y :: m' => py_eq x y && go l' m'
         | _, _ => false
         end) l m
  | _, _ =>
      match py_num a, py_num b with
      | Some p, Some q => Qeq_bool p q
      | _, _ => false
      end
  end.

Definition is_substring (t s : string) : bool :=
  match index 0 t s with Some _ => true | None => false end.

(** [x in c] *)
Definition py_in (x c : pyval) : outcome bool :=
  match c with
  | VList l => Ret (existsb (py_eq x) l)
  | VStr s =>
      match x with
      | VStr t => Ret (is_substring t s)
      | _ => Raise TypeError
      end
  | _ => Raise TypeError
  end.

(** [x > v] and [z < v] for a float [x], an int [z] and a dict value [v]. *)
Definition float_gt (x : Q) (v : pyval) : outcome bool :=
  match py_num v with
  | Some q => Ret (Qltb q x)
  | None => Raise TypeError
  end.

Definition int_lt (z : Z) (v : pyval) : outcome bool :=
  match py_num v with
  | Some q => Ret (Qltb (inject_Z z) q)
  | None => Raise TypeError
  end.

(** ** What the Python runtime decides *)

Class PyRuntime := {
  (** [math.hypot] *)
  py_hypot : Q -> Q -> Q;
  (** [float(s)] for a string: the value, [None] when it raises *)
  py_float_of_str : string -> option Q;
  (** [int(s)] for a string with [s.isdigit()], [None] otherwise *)
  py_int_of_digits : string -> option Z;
  (** the order in which a [set] of segments is iterated *)
  py_set_iter : gset segment -> list segment;
  py_set_iter_elem : forall s x, x ∈ py_set_iter s <-> x ∈ s;
}.

(** ** Segment data and the edge graph *)

Record seg_data := {
  orig_u : Z;
  orig_v : Z;
  u_x : Q;
  u_y : Q;
  v_x : Q;
  v_y : Q;
  travel_time : option Q;
  traffic_mult : option Q;
  penalty : option Q;
  closed : option pyval;
  bridge : option pyval;
  tunnel : option pyval;
  maxheight : option pyval;
  maxweight : option pyval;
  lanes : option pyval;
  highway : option pyval;
}.

Definition no_data : seg_data :=
  {| orig_u := 0; orig_v := 0; u_x := 0; u_y := 0; v_x := 0; v_y := 0;
     travel_time := None; traffic_mult := None; penalty := None;
     closed := None; bridge := None; tunnel := None; maxheight := None;
     maxweight := None; lanes := None; highway := None |}.

(** [eg_edges]: source, destination and the [turn_cost] attribute. *)
Record edge_graph := {
  eg_nodes : list (segment * seg_data);
  eg_edges : list (segment * segment * option Q);
}.

Fixpoint assoc {A} (n : segment) (l : list (segment * A)) : option A :=
  match l with
  | [] => None
  | (k, a) :: l' => if decide (k = n) then Some a else assoc n l'
  end.

(** [EG.nodes[enode]] *)
Definition node_data (EG : edge_graph) (n : segment) : seg_data :=
  default no_data (assoc n (eg_nodes EG)).

(** [EG.successors(enode)] and [EG.predecessors(enode)] *)
Definition successors (EG : edge_graph) (n : segment) : list segment :=
  map (fun e => e.1.2) (filter (fun e => e.1.1 = n) (eg_edges EG)).

Definition predecessors (EG : edge_graph) (n : segment) : list segment :=
  map (fun e => e.1.1) (filter (fun e => e.1.2 = n) (eg_edges EG)).

(** [EG.edges[a, b]]: the attribute of the edge, [None] when there is none. *)
Fixpoint edge_attr (es : list (segment * segment * option Q)) (a b : segment)
  : option (option Q) :=
  match es with
  | [] => None
  | (x, y, tc) :: es' =>
      if decide (x = a /\ y = b) then Some tc else edge_attr es' a b
  end.

(** [float(EG.edges[a, b].get("turn_cost", 0.0))] *)
Definition turn_cost (EG : edge_graph) (a b : segment) : Q :=
  match edge_attr (eg_edges EG) a b with
  | Some (Some tc) => tc
  | _ => 0
  end.

(** The graph as [networkx] holds it: one entry per node and per edge, and
    every endpoint of an edge is a node. *)
Definition wf_graph (EG : edge_graph) : Prop :=
  NoDup (map fst (eg_nodes EG)) /\
  NoDup (map fst (eg_edges EG)) /\
  forall a b tc, (a, b, tc) ∈ eg_edges EG ->
    a ∈ map fst (eg_nodes EG) /\ b ∈ map fst (eg_nodes EG).

(** ** src/utils/graph_utils.py *)

Definition enode_travel_time (EG : edge_graph) (n : segment) : Q :=
  let data := node_data EG n in
  let base_time_travel := default 0%Q (travel_time data) in
  let mult := default 1%Q (traffic_mult data) in
  let penalty := default 0%Q (penalty data) in
  (base_time_travel * mult + penalty)%Q.

Definition is_enode_closed (EG : edge_graph) (n : segment) : bool :=
  truthy (default (VBool false) (closed (node_data EG n))).

Definition enodes_from_start (EG : edge_graph) (start_node_id : Z)
  : list segment :=
  map fst (filter (fun nd => orig_u nd.2 = start_node_id) (eg_nodes EG)).

Definition target_nodes (EG : edge_graph) (target_node_id : Z)
  : gset segment :=
  list_to_set
    (map fst (filter (fun nd => orig_v nd.2 = target_node_id) (eg_nodes EG))).

Fixpoint route_tt_loop (EG : edge_graph) (prev_enode : segment)
  (rest : list segment) (total : Q) : Q :=
  match rest with
  | [] => total
  | curr_enode :: rest' =>
      route_tt_loop EG curr_enode rest'
        (total + turn_cost EG prev_enode curr_enode
         + enode_travel_time EG curr_enode)%Q
  end.

Definition compute_route_tt (EG : edge_graph) (route_enodes : list segment)
  : cost :=
  match route_enodes with
  | [] => Inf
  | first :: rest =>
      Fin (route_tt_loop EG first rest (0 + enode_travel_time EG first)%Q)
  end.

Definition max_list (l : list Q) : option Q :=
  match l with
  | [] => None
  | x :: l' => Some (fold_left (fun a b => if Qltb a b then b else a) l' x)
  end.

Definition max_listZ (l : list Z) : option Z :=
  match l with
  | [] => None
  | x :: l' => Some (fold_left Z.max l' x)
  end.

Section Runtime.
Context `{RT : PyRuntime}.

(** [float(v)] where it succeeds *)
Definition py_float (v : pyval) : option Q :=
  match v with
  | VStr s => py_float_of_str s
  | _ => py_num v
  end.

(** [int(v)] for the elements [_safe_int] keeps of a list: those with
    [str(v).isdigit()] *)
Definition py_digits (v : pyval) : option Z :=
  match v with
  | VStr s => py_int_of_digits s
  | VInt z => if (0 <=? z)%Z then Some z else None
  | _ => None
  end.

Definition _safe_int (value : pyval) (dflt : Z) : Z :=
  match value with
  | VNone => dflt
  | VList l => default dflt (max_listZ (omap py_digits l))
  | VStr s => default dflt (py_int_of_digits s)
  | VBool b => if b then 1 else 0
  | VInt z => z
  | VFloat q => Z.quot (Qnum q) (Zpos (Qden q))
  end%Z.

Definition _safe_float (value : pyval) (dflt : Q) : Q :=
  match value with
  | VNone => dflt
  | VList l => default dflt (max_list (omap py_float l))
  | VStr s => default dflt (py_float_of_str s)
  | _ => default dflt (py_num value)
  end.

(** ** src/core/constraints.py *)

Definition road_types : pyval :=
  VList (map VStr
    ["primary"; "secondary"; "tertiary"; "unclassified"; "primary_link";
     "service"; "residential"; "busway"; "secondary_link"; "tertiary_link";
     "living_street"]).

Definition profile (max_height max_weight : Q) (min_lanes : Z)
  (avoid_closed : bool) (traffic_multi : Q) (hard : list string)
  : gmap string pyval :=
  list_to_map
    [("max_height", VFloat max_height); ("max_weight", VFloat max_weight);
     ("min_lanes", VInt min_lanes); ("avoid_closed", VBool avoid_closed);
     ("traffic_multi", VFloat traffic_multi);
     ("non_preferred_penalty", VFloat 3);
     ("road_type", road_types);
     ("hard_constraints", VList (map VStr hard));
     ("soft_constraints",
      VList (map VStr ["min_lanes"; "road_type"; "avoid_closed"]))].

Definition VEHICLE_PROFILES : gmap string (gmap string pyval) :=
  list_to_map
    [("ambulance",
      profile 3 4 1 true 1 ["max_height"; "max_weight"; "max_width"]);
     ("fire_engine",
      profile (7 # 2) 12 2 true 2 ["max_height"; "max_weight"; "max_width"]);
     ("police_units",
      profile (5 # 2) (5 # 2) 1 false 2 ["max_height"; "max_weight"])].

Definition yes_values : pyval := VList [VStr "yes"; VStr "true"; VStr "1"].

(** [total_penalty += constraints.get("non_preferred_penalty", 10.0)] *)
Definition add_non_preferred (constraints : gmap string pyval)
  (total_penalty : Q) : outcome Q :=
  match py_num (default (VFloat 10) (constraints !! "non_preferred_penalty"))
  with
  | Some p => Ret (total_penalty + p)%Q
  | None => Raise TypeError
  end.

(** The bridge block: [true] when it returns [False, math.inf]. *)
Definition bridge_rejects (data : seg_data) (constraints : gmap string pyval)
  : outcome bool :=
  is_bridge <- py_in (default (VStr "no") (bridge data)) yes_values;;
  if is_bridge then
    too_high <-
      match constraints !! "max_height" with
      | Some limit =>
          let height := _safe_float (default (VFloat 5) (maxheight data)) 1 in
          float_gt height limit
      | None => Ret false
      end;;
    if too_high then Ret true
    else
      match constraints !! "max_weight" with
      | Some limit =>
          let weight := _safe_float (default (VFloat 30) (maxweight data)) 1 in
          float_gt weight limit
      | None => Ret false
      end
  else Ret false.

Definition tunnel_rejects (data : seg_data) (constraints : gmap string pyval)
  : outcome bool :=
  is_tunnel <- py_in (default (VStr "no") (tunnel data)) yes_values;;
  if is_tunnel then
    match constraints !! "max_height" with
    | Some limit =>
        let height :=
          _safe_float (default (VFloat (9 # 2)) (maxheight data)) 1 in
        float_gt height limit
    | None => Ret false
    end
  else Ret false.

Definition lanes_rejects (data : seg_data) (constraints : gmap string pyval)
  : outcome bool :=
  match constraints !! "min_lanes" with
  | Some limit =>
      let lanes := _safe_int (default VNone (lanes data)) 2 in
      int_lt lanes limit
  | None => Ret false
  end.

(** The check of line 86 and the keyed check of lines 89-92. *)
Definition closed_general (data : seg_data) (constraints : gmap string pyval)
  (total_penalty : Q) : outcome Q :=
  if truthy (default VNone (constraints !! "avoid_closed"))
     && truthy (default (VBool true) (closed data))
  then add_non_preferred constraints total_penalty
  else Ret total_penalty.

Definition closed_keyed (data : seg_data) (constraints : gmap string pyval)
  (total_penalty : Q) : outcome Q :=
  match constraints !! "avoid_closed" with
  | Some flag =>
      if truthy flag then
        if truthy (default (VBool true) (closed data))
        then add_non_preferred constraints total_penalty
        else Ret total_penalty
      else Ret total_penalty
  | None => Ret total_penalty
  end.

(** [if key in constraints: if value not in constraints[key]: ...] *)
Definition allow_list (key : string) (value : option pyval)
  (constraints : gmap string pyval) (total_penalty : Q) : outcome Q :=
  match constraints !! key with
  | Some allowed =>
      listed <- py_in (default VNone value) allowed;;
      if listed then Ret total_penalty
      else add_non_preferred constraints total_penalty
  | None => Ret total_penalty
  end.

(** The three allow-list checks of lines 94-104. *)
Definition allow_lists (data : seg_data) (constraints : gmap string pyval)
  (total_penalty : Q) : outcome Q :=
  total_penalty <- allow_list "tunnel" (tunnel data) constraints total_penalty;;
  total_penalty <- allow_list "bridge" (bridge data) constraints total_penalty;;
  allow_list "road_type" (highway data) constraints total_penalty.

(** The soft part of [validate_single_edge], from line 86 on. *)
Definition soft_penalty (data : seg_data) (constraints : gmap string pyval)
  (total_penalty : Q) : outcome Q :=
  total_penalty <- closed_general data constraints total_penalty;;
  total_penalty <- closed_keyed data constraints total_penalty;;
  allow_lists data constraints total_penalty.

Definition validate_single_edge (EG : edge_graph) (en : segment)
  (constraints : gmap string pyval) : outcome (bool * cost) :=
  let data := node_data EG en in
  let total_penalty := 0%Q in
  rejected <- bridge_rejects data constraints;;
  if rejected then Ret (false, Inf)
  else
    rejected <- tunnel_rejects data constraints;;
    if rejected then Ret (false, Inf)
    else
      rejected <- lanes_rejects data constraints;;
      if rejected then Ret (false, Inf)
      else
        total_penalty <- soft_penalty data constraints total_penalty;;
        Ret (true, Fin total_penalty).

Fixpoint validate_route_loop (EG : edge_graph) (route_enodes : list segment)
  (constraints : gmap string pyval) (total_penalty : cost)
  : outcome (bool * cost) :=
  match route_enodes with
  | [] => Ret (true, total_penalty)
  | en :: rest =>
      r <- validate_single_edge EG en constraints;;
      let '(valid, penalty) := r in
      if valid
      then validate_route_loop EG rest constraints
             (cost_add total_penalty penalty)
      else Ret (false, Inf)
  end.

(** [route_enodes] is [None] or a list. *)
Definition validate_route (EG : edge_graph)
  (route_enodes : option (list segment)) (constraints : gmap string pyval)
  : outcome (bool * cost) :=
  match route_enodes with
  | None | Some [] => Ret (false, Inf)
  | Some route => validate_route_loop EG route constraints (Fin 0)
  end.

End Runtime.

(** ** [heapq]: a heap is the list of its entries, [heappop] takes out a
    smallest one in the order of Python tuples *)

Fixpoint heappop {A} (le : A -> A -> bool) (h : list A)
  : option (A * list A) :=
  match h with
  | [] => None
  | x :: h' =>
      match heappop le h' with
      | None => Some (x, [])
      | Some (m, r) => if le x m then Some (x, h') else Some (m, x :: r)
      end
  end.

Definition heappush {A} (h : list A) (x : A) : list A := x :: h.

Definition enode_leb (a b : segment) : bool :=
  let '(u1, v1, k1) := a in
  let '(u2, v2, k2) := b in
  ((u1 <? u2) || ((u1 =? u2) && ((v1 <? v2) || ((v1 =? v2) && (k1 <=? k2)))))%Z.

(** [(cost, enode)] entries of [dijkstra_route] *)
Definition entry_le (a b : Q * segment) : bool :=
  Qltb a.1 b.1 || (Qeq_bool a.1 b.1 && enode_leb a.2 b.2).

(** [(f, g, enode)] entries of the two heuristic searches *)
Definition entry3_le (a b : Q * Q * segment) : bool :=
  Qltb a.1.1 b.1.1
  || (Qeq_bool a.1.1 b.1.1 && entry_le (a.1.2, a.2) (b.1.2, b.2)).

(** ** src/core/search_algorithms.py *)

Record route_result := {
  route_nodes : option (list Z);
  route_enodes : option (list segment);
  r_cost : cost;
  r_expanded : Z;
}.

Definition no_route (expanded : Z) : route_result :=
  {| route_nodes := None; route_enodes := None; r_cost := Inf;
     r_expanded := expanded |}.

(** [not allow_closed and is_enode_closed(EG, enode)] *)
Definition skip_closed (EG : edge_graph) (allow_closed : bool) (n : segment)
  : bool :=
  negb allow_closed && is_enode_closed EG n.

(** [x > d.get(n, math.inf)] and [x < d.get(n, math.inf)] *)
Definition gt_get (x : Q) (d : option Q) : bool :=
  match d with Some y => Qltb y x | None => false end.

Definition lt_get (x : Q) (d : option Q) : bool :=
  match d with Some y => Qltb x y | None => true end.

(** [max_visits is not None and expanded >= max_visits] *)
Definition cap_reached (max_visits : option Z) (expanded : Z) : bool :=
  match max_visits with
  | Some m => (m <=? expanded)%Z
  | None => false
  end.

(** [max_visits and expanded >= max_visits] *)
Definition cap_reached_truthy (max_visits : option Z) (expanded : Z) : bool :=
  match max_visits with
  | Some m => negb (m =? 0)%Z && (m <=? expanded)%Z
  | None => false
  end.

(** [while current is not None: path.append(current);
    current = prev.get(current)] *)
Fixpoint prev_chain (fuel : nat) (prev : gmap segment (option segment))
  (current : option segment) : option (list segment) :=
  match current with
  | None => Some []
  | Some c =>
      match fuel with
      | O => None
      | S fuel' =>
          match prev_chain fuel' prev (mjoin (prev !! c)) with
          | Some path => Some (c :: path)
          | None => None
          end
      end
  end.

Fixpoint route_nodes_loop (idx : nat) (path_enodes : list segment)
  (route_nodes : list Z) : list Z :=
  match path_enodes with
  | [] => route_nodes
  | (u, v, _k) :: rest =>
      route_nodes_loop (S idx) rest
        (if (idx =? 0)%nat then route_nodes ++ [u; v] else route_nodes ++ [v])
  end.

Definition to_route_nodes (path_enodes : list segment) : list Z :=
  route_nodes_loop 0 path_enodes [].

Section Search.
Context `{RT : PyRuntime}.

Fixpoint filter_valid (EG : edge_graph) (constraints : gmap string pyval)
  (l : list segment) : outcome (list segment) :=
  match l with
  | [] => Ret []
  | en :: l' =>
      r <- validate_single_edge EG en constraints;;
      rest <- filter_valid EG constraints l';;
      Ret (if r.1 then en :: rest else rest)
  end.

(** The opening lines of the three searches: [None] when one of the two
    sets is empty, else the start and target segments, filtered when
    [constraints] is a non-empty dict. *)
Definition search_endpoints (EG : edge_graph) (start_node_id target_node_id : Z)
  (constraints : option (gmap string pyval))
  : outcome (option (list segment * list segment)) :=
  let start_enodes := enodes_from_start EG start_node_id in
  let target_enodes := target_nodes EG target_node_id in
  if bool_decide (start_enodes = []) || bool_decide (target_enodes = ∅)
  then Ret None
  else
    match constraints with
    | Some c =>
        if bool_decide (dom c = ∅)
        then Ret (Some (start_enodes, py_set_iter target_enodes))
        else
          start_enodes <- filter_valid EG c start_enodes;;
          target_enodes <- filter_valid EG c (py_set_iter target_enodes);;
          Ret (Some (start_enodes, target_enodes))
    | None => Ret (Some (start_enodes, py_set_iter target_enodes))
    end.

(** The closing lines of [dijkstra_route] and [astar_route]. *)
Definition search_result (fuel : nat) (prev : gmap segment (option segment))
  (expanded : Z) (best : option (segment * Q)) : outcome route_result :=
  match best with
  | None => Ret (no_route expanded)
  | Some (best_target, best_cost) =>
      chain <- of_fuel (prev_chain fuel prev (Some best_target));;
      let path_enodes := rev chain in
      Ret {| route_nodes := Some (to_route_nodes path_enodes);
             route_enodes := Some path_enodes;
             r_cost := Fin best_cost;
             r_expanded := expanded |}
  end.

(** *** [dijkstra_route] *)

Record dstate := DState {
  d_pq : list (Q * segment);
  d_dist : gmap segment Q;
  d_prev : gmap segment (option segment);
  d_expanded : Z;
  d_visited : gset segment;
}.

Definition dijkstra_seed (EG : edge_graph) (allow_closed : bool)
  (st : dstate) (enode : segment) : dstate :=
  if skip_closed EG allow_closed enode then st
  else
    let init_cost := enode_travel_time EG enode in
    DState (heappush (d_pq st) (init_cost, enode))
           (<[enode := init_cost]> (d_dist st))
           (<[enode := None]> (d_prev st))
           (d_expanded st) (d_visited st).

Definition dijkstra_relax (EG : edge_graph) (allow_closed : bool)
  (enode : segment) (cost_u : Q) (st : dstate) (neighbor : segment) : dstate :=
  if skip_closed EG allow_closed neighbor then st
  else
    let turn_cost := turn_cost EG enode neighbor in
    let travel_time := enode_travel_time EG neighbor in
    let candidate := (cost_u + turn_cost + travel_time)%Q in
    if lt_get candidate (d_dist st !! neighbor) then
      DState (heappush (d_pq st) (candidate, neighbor))
             (<[neighbor := candidate]> (d_dist st))
             (<[neighbor := Some enode]> (d_prev st))
             (d_expanded st) (d_visited st)
    else st.

(** The [while pq] loop: the final state and the target it stopped at. *)
Fixpoint dijkstra_loop (EG : edge_graph) (allow_closed : bool)
  (max_visits : option Z) (target_enodes : list segment)
  (fuel : nat) (st : dstate) : option (dstate * option (segment * Q)) :=
  match fuel with
  | O => None
  | S fuel' =>
      match heappop entry_le (d_pq st) with
      | None => Some (st, None)
      | Some ((cost_u, enode), pq) =>
          let st := DState pq (d_dist st) (d_prev st) (d_expanded st)
                      (d_visited st) in
          if cap_reached max_visits (d_expanded st) then Some (st, None)
          else if gt_get cost_u (d_dist st !! enode) then
            dijkstra_loop EG allow_closed max_visits target_enodes fuel' st
          else
            let st := DState (d_pq st) (d_dist st) (d_prev st)
                        (d_expanded st + 1) (d_visited st) in
            if bool_decide (enode ∈ target_enodes)
            then Some (st, Some (enode, cost_u))
            else
              let st := DState (d_pq st) (d_dist st) (d_prev st)
                          (d_expanded st) ({[enode]} ∪ d_visited st) in
              dijkstra_loop EG allow_closed max_visits target_enodes fuel'
                (fold_left (dijkstra_relax EG allow_closed enode cost_u)
                   (successors EG enode) st)
      end
  end.

Definition dijkstra_init (EG : edge_graph) (allow_closed : bool)
  (start_enodes : list segment) : dstate :=
  fold_left (dijkstra_seed EG allow_closed) start_enodes
    (DState [] ∅ ∅ 0 ∅).

(** The loop and the closing lines, from a state of the loop. *)
Definition dijkstra_search (fuel : nat) (EG : edge_graph)
  (allow_closed : bool) (max_visits : option Z)
  (target_enodes : list segment) (st : dstate) : outcome route_result :=
  r <- of_fuel (dijkstra_loop EG allow_closed max_visits target_enodes
                  fuel st);;
  search_result fuel (d_prev r.1) (d_expanded r.1) r.2.

Definition dijkstra_route (fuel : nat) (EG : edge_graph)
  (start_node_id target_node_id : Z)
  (constraints : option (gmap string pyval)) (allow_closed : bool)
  (max_visits : option Z) : outcome route_result :=
  ends <- search_endpoints EG start_node_id target_node_id constraints;;
  match ends with
  | None => Ret (no_route 0)
  | Some (start_enodes, target_enodes) =>
      dijkstra_search fuel EG allow_closed max_visits target_enodes
        (dijkstra_init EG allow_closed start_enodes)
  end.

(** *** [astar_route] *)

Record astate := AState {
  a_heap : list (Q * Q * segment);
  a_gscore : gmap segment Q;
  a_prev : gmap segment (option segment);
  a_expanded : Z;
  a_visited : gset segment;
}.

(** [heuristic]: straight-line time from the far end of [enode] to
    [(tx, ty)] *)
Definition heuristic (EG : edge_graph) (tx ty vmax_mps : Q) (enode : segment)
  : Q :=
  let vx := v_x (node_data EG enode) in
  let vy := v_y (node_data EG enode) in
  let d := py_hypot (vx - tx) (vy - ty) in
  (d / vmax_mps)%Q.

Definition astar_seed (EG : edge_graph) (allow_closed : bool)
  (h : segment -> Q) (st : astate) (enode : segment) : astate :=
  if skip_closed EG allow_closed enode then st
  else
    let g := enode_travel_time EG enode in
    AState (heappush (a_heap st) ((g + h enode)%Q, g, enode))
           (<[enode := g]> (a_gscore st))
           (<[enode := None]> (a_prev st))
           (a_expanded st) (a_visited st).

Definition astar_relax (EG : edge_graph) (allow_closed : bool)
  (h : segment -> Q) (enode : segment) (g : Q) (st : astate)
  (neighbor : segment) : astate :=
  if skip_closed EG allow_closed neighbor then st
  else
    let turn_cost := turn_cost EG enode neighbor in
    let travel_time := enode_travel_time EG neighbor in
    let tentative_g := (g + turn_cost + travel_time)%Q in
    if lt_get tentative_g (a_gscore st !! neighbor) then
      let f := (tentative_g + h neighbor)%Q in
      AState (heappush (a_heap st) (f, tentative_g, neighbor))
             (<[neighbor := tentative_g]> (a_gscore st))
             (<[neighbor := Some enode]> (a_prev st))
             (a_expanded st) (a_visited st)
    else st.

Fixpoint astar_loop (EG : edge_graph) (allow_closed : bool)
  (max_visits : option Z) (target_enodes : list segment) (h : segment -> Q)
  (fuel : nat) (st : astate) : option (astate * option (segment * Q)) :=
  match fuel with
  | O => None
  | S fuel' =>
      match heappop entry3_le (a_heap st) with
      | None => Some (st, None)
      | Some ((_, g, enode), open_heap) =>
          let st := AState open_heap (a_gscore st) (a_prev st)
                      (a_expanded st) (a_visited st) in
          if cap_reached max_visits (a_expanded st) then Some (st, None)
          else if bool_decide (enode ∈ a_visited st) then
            astar_loop EG allow_closed max_visits target_enodes h fuel' st
          else
            let st := AState (a_heap st) (a_gscore st) (a_prev st)
                        (a_expanded st) ({[enode]} ∪ a_visited st) in
            if gt_get g (a_gscore st !! enode) then
              astar_loop EG allow_closed max_visits target_enodes h fuel' st
            else
              let st := AState (a_heap st) (a_gscore st) (a_prev st)
                          (a_expanded st + 1) (a_visited st) in
              if bool_decide (enode ∈ target_enodes)
              then Some (st, Some (enode, g))
              else
                astar_loop EG allow_closed max_visits target_enodes h fuel'
                  (fold_left (astar_relax EG allow_closed h enode g)
                     (successors EG enode) st)
      end
  end.

Definition astar_init (EG : edge_graph) (allow_closed : bool)
  (h : segment -> Q) (start_enodes : list segment) : astate :=
  fold_left (astar_seed EG allow_closed h) start_enodes
    (AState [] ∅ ∅ 0 ∅).

(** Some seed gets past the closed-segment filter, so that the heuristic is
    called while seeding. *)
Definition seeds_any (EG : edge_graph) (allow_closed : bool)
  (l : list segment) : bool :=
  existsb (fun en => negb (skip_closed EG allow_closed en)) l.

Definition astar_search (fuel : nat) (EG : edge_graph)
  (allow_closed : bool) (max_visits : option Z)
  (target_enodes : list segment) (h : segment -> Q) (st : astate)
  : outcome route_result :=
  r <- of_fuel (astar_loop EG allow_closed max_visits target_enodes h
                  fuel st);;
  search_result fuel (a_prev r.1) (a_expanded r.1) r.2.

Definition astar_route (fuel : nat) (EG : edge_graph)
  (start_node_id target_node_id : Z)
  (constraints : option (gmap string pyval)) (vmax_mps : Q)
  (allow_closed : bool) (max_visits : option Z) : outcome route_result :=
  ends <- search_endpoints EG start_node_id target_node_id constraints;;
  match ends with
  | None => Ret (no_route 0)
  | Some (start_enodes, target_enodes) =>
      match target_enodes with
      | [] => Raise StopIteration
      | sample_target :: _ =>
          let tx := v_x (node_data EG sample_target) in
          let ty := v_y (node_data EG sample_target) in
          let h := heuristic EG tx ty vmax_mps in
          if Qeq_bool vmax_mps 0 && seeds_any EG allow_closed start_enodes
          then Raise ZeroDivisionError
          else
            astar_search fuel EG allow_closed max_visits target_enodes h
              (astar_init EG allow_closed h start_enodes)
      end
  end.

(** *** [bidirectional_astar_route] *)

Record bstate := BState {
  open_fwd : list (Q * Q * segment);
  open_bwd : list (Q * Q * segment);
  g_fwd : gmap segment Q;
  g_bwd : gmap segment Q;
  prev_fwd : gmap segment (option segment);
  prev_bwd : gmap segment (option segment);
  b_expanded : Z;
  best_cost : cost;
  meeting_node : option segment;
}.

Definition heuristic_backward (EG : edge_graph) (sx sy vmax_mps : Q)
  (enode : segment) : Q :=
  let vx := u_x (node_data EG enode) in
  let vy := u_y (node_data EG enode) in
  (py_hypot (vx - sx) (vy - sy) / vmax_mps)%Q.

Definition bidir_seed_fwd (EG : edge_graph) (allow_closed : bool)
  (hf : segment -> Q) (st : bstate) (en : segment) : bstate :=
  if skip_closed EG allow_closed en then st
  else
    let g := enode_travel_time EG en in
    BState (heappush (open_fwd st) ((g + hf en)%Q, g, en)) (open_bwd st)
           (<[en := g]> (g_fwd st)) (g_bwd st)
           (<[en := None]> (prev_fwd st)) (prev_bwd st)
           (b_expanded st) (best_cost st) (meeting_node st).

Definition bidir_seed_bwd (EG : edge_graph) (allow_closed : bool)
  (hb : segment -> Q) (st : bstate) (en : segment) : bstate :=
  if skip_closed EG allow_closed en then st
  else
    let g := enode_travel_time EG en in
    BState (open_fwd st) (heappush (open_bwd st) ((g + hb en)%Q, g, en))
           (g_fwd st) (<[en := g]> (g_bwd st))
           (prev_fwd st) (<[en := None]> (prev_bwd st))
           (b_expanded st) (best_cost st) (meeting_node st).

(** [if enode in other: total_cost = g + other[enode]; ...] *)
Definition bidir_meet (other : gmap segment Q) (enode : segment) (g : Q)
  (st : bstate) : bstate :=
  match other !! enode with
  | Some g' =>
      let total_cost := (g + g')%Q in
      if cost_lt (Fin total_cost) (best_cost st) then
        BState (open_fwd st) (open_bwd st) (g_fwd st) (g_bwd st)
               (prev_fwd st) (prev_bwd st) (b_expanded st)
               (Fin total_cost) (Some enode)
      else st
  | None => st
  end.

Definition bidir_relax_fwd (EG : edge_graph) (allow_closed : bool)
  (hf : segment -> Q) (enode : segment) (g : Q) (st : bstate)
  (neighbor : segment) : bstate :=
  if skip_closed EG allow_closed neighbor then st
  else
    let turn_cost := turn_cost EG enode neighbor in
    let travel_time := enode_travel_time EG neighbor in
    let tentative_g := (g + turn_cost + travel_time)%Q in
    if lt_get tentative_g (g_fwd st !! neighbor) then
      BState (heappush (open_fwd st)
                ((tentative_g + hf neighbor)%Q, tentative_g, neighbor))
             (open_bwd st)
             (<[neighbor := tentative_g]> (g_fwd st)) (g_bwd st)
             (<[neighbor := Some enode]> (prev_fwd st)) (prev_bwd st)
             (b_expanded st) (best_cost st) (meeting_node st)
    else st.

Definition bidir_relax_bwd (EG : edge_graph) (allow_closed : bool)
  (hb : segment -> Q) (enode : segment) (g : Q) (st : bstate)
  (neighbor : segment) : bstate :=
  if skip_closed EG allow_closed neighbor then st
  else
    let turn_cost := turn_cost EG neighbor enode in
    let travel_time := enode_travel_time EG neighbor in
    let tentative_g := (g + turn_cost + travel_time)%Q in
    if lt_get tentative_g (g_bwd st !! neighbor) then
      BState (open_fwd st)
             (heappush (open_bwd st)
                ((tentative_g + hb neighbor)%Q, tentative_g, neighbor))
             (g_fwd st) (<[neighbor := tentative_g]> (g_bwd st))
             (prev_fwd st) (<[neighbor := Some enode]> (prev_bwd st))
             (b_expanded st) (best_cost st) (meeting_node st)
    else st.

(** The backward half of one iteration of the loop. *)
Definition bidir_step_bwd (EG : edge_graph) (allow_closed : bool)
  (hb : segment -> Q) (st : bstate) : bstate :=
  match heappop entry3_le (open_bwd st) with
  | None => st
  | Some ((_, g, enode), heap) =>
      let st := BState (open_fwd st) heap (g_fwd st) (g_bwd st)
                  (prev_fwd st) (prev_bwd st) (b_expanded st + 1)
                  (best_cost st) (meeting_node st) in
      if gt_get g (g_bwd st !! enode) then st
      else
        fold_left (bidir_relax_bwd EG allow_closed hb enode g)
          (predecessors EG enode) (bidir_meet (g_fwd st) enode g st)
  end.

(** The [while open_fwd and open_bwd] loop; a stale forward entry
    [continue]s past the backward half. *)
Fixpoint bidir_loop (EG : edge_graph) (allow_closed : bool)
  (max_visits : option Z) (hf hb : segment -> Q)
  (fuel : nat) (st : bstate) : option bstate :=
  match fuel with
  | O => None
  | S fuel' =>
      match open_bwd st, heappop entry3_le (open_fwd st) with
      | [], _ | _, None => Some st
      | _ :: _, Some ((_, g, enode), heap) =>
          if cap_reached_truthy max_visits (b_expanded st) then Some st
          else
            let st := BState heap (open_bwd st) (g_fwd st) (g_bwd st)
                        (prev_fwd st) (prev_bwd st) (b_expanded st + 1)
                        (best_cost st) (meeting_node st) in
            if gt_get g (g_fwd st !! enode) then
              bidir_loop EG allow_closed max_visits hf hb fuel' st
            else
              let st :=
                fold_left (bidir_relax_fwd EG allow_closed hf enode g)
                  (successors EG enode) (bidir_meet (g_bwd st) enode g st) in
              bidir_loop EG allow_closed max_visits hf hb fuel'
                (bidir_step_bwd EG allow_closed hb st)
      end
  end.

Definition bidir_init (EG : edge_graph) (allow_closed : bool)
  (hf hb : segment -> Q) (start_enodes target_enodes : list segment)
  : bstate :=
  fold_left (bidir_seed_bwd EG allow_closed hb) target_enodes
    (fold_left (bidir_seed_fwd EG allow_closed hf) start_enodes
       (BState [] [] ∅ ∅ ∅ ∅ 0 Inf None)).

Definition bidir_result (fuel : nat) (st : bstate) : outcome route_result :=
  match meeting_node st with
  | None => Ret (no_route (b_expanded st))
  | Some meeting_node =>
      path_fwd <- of_fuel (prev_chain fuel (prev_fwd st) (Some meeting_node));;
      path_bwd <- of_fuel (prev_chain fuel (prev_bwd st)
                             (mjoin (prev_bwd st !! meeting_node)));;
      let path_enodes := rev path_fwd ++ path_bwd in
      Ret {| route_nodes := Some (to_route_nodes path_enodes);
             route_enodes := Some path_enodes;
             r_cost := best_cost st;
             r_expanded := b_expanded st |}
  end.

Definition bidir_search (fuel : nat) (EG : edge_graph)
  (allow_closed : bool) (max_visits : option Z) (hf hb : segment -> Q)
  (st : bstate) : outcome route_result :=
  st <- of_fuel (bidir_loop EG allow_closed max_visits hf hb fuel st);;
  bidir_result fuel st.

Definition bidirectional_astar_route (fuel : nat) (EG : edge_graph)
  (start_node_id target_node_id : Z) (vmax_mps : Q) (allow_closed : bool)
  (constraints : option (gmap string pyval)) (max_visits : option Z)
  : outcome route_result :=
  ends <- search_endpoints EG start_node_id target_node_id constraints;;
  match ends with
  | None => Ret (no_route 0)
  | Some (start_enodes, target_enodes) =>
      match target_enodes, start_enodes with
      | [], _ | _, [] => Raise StopIteration
      | sample_target :: _, sample_start :: _ =>
          let tx := v_x (node_data EG sample_target) in
          let ty := v_y (node_data EG sample_target) in
          let sx := u_x (node_data EG sample_start) in
          let sy := u_y (node_data EG sample_start) in
          let hf := heuristic EG tx ty vmax_mps in
          let hb := heuristic_backward EG sx sy vmax_mps in
          if Qeq_bool vmax_mps 0
             && (seeds_any EG allow_closed start_enodes
                 || seeds_any EG allow_closed target_enodes)
          then Raise ZeroDivisionError
          else
            bidir_search fuel EG allow_closed max_visits hf hb
              (bidir_init EG allow_closed hf hb start_enodes target_enodes)
      end
  end.

End Search.

(** ** src/core/route_planner.py *)

Definition keep_keys : list string := ["avoid_closed"].

Definition relax_constraints (base : gmap string pyval) (level : Z)
  : gmap string pyval :=
  let c := base in
  if (level =? 0)%Z then c
  else
    let c :=
      if (1 <=? level)%Z then delete "traffic_multi" (delete "road_type" c)
      else c in
    let c := if (2 <=? level)%Z then delete "min_lanes" c else c in
    let c :=
      if (3 <=? level)%Z then filter (fun kv => kv.1 ∈ keep_keys) c else c in
    c.

Record plan_result := {
  p_start_node : Z;
  p_target_node : Z;
  p_route_nodes : option (list Z);
  p_route_enodes : option (list segment);
  p_cost : cost;
  p_expanded_nodes : Z;
  p_valid : bool;
  p_penalty : cost;
  p_total_time : cost;
  p_vehicle_type : string;
  p_relax_level : option Z;
  p_constraints_used : option (gmap string pyval);
}.

(** The dict returned after the last level. *)
Definition infeasible (start_node target_node : Z) (vehicle_type : string)
  : plan_result :=
  {| p_start_node := start_node; p_target_node := target_node;
     p_route_nodes := None; p_route_enodes := None; p_cost := Inf;
     p_expanded_nodes := 0; p_valid := false; p_penalty := Inf;
     p_total_time := Inf; p_vehicle_type := vehicle_type;
     p_relax_level := None; p_constraints_used := None |}.

Section Planner.
Context `{RT : PyRuntime}.

(** One turn of the [for key, route in routes_found.items()] loop. *)
Definition pick_best (EG : edge_graph) (best : option route_result * cost)
  (route : route_result) : option route_result * cost :=
  let total_time := compute_route_tt EG (default [] (route_enodes route)) in
  if cost_lt total_time best.2 then (Some route, total_time) else best.

(** [None] is the [best_route = None] that no turn of the loop replaced. *)
Definition _run_search (fuel : nat) (EG : edge_graph)
  (start_node target_node : Z) (allow_closed : bool)
  : outcome (option route_result) :=
  route_djkstra <-
    dijkstra_route fuel EG start_node target_node None allow_closed None;;
  route_astar <-
    astar_route fuel EG start_node target_node None 30 allow_closed None;;
  route_bidirectional <-
    bidirectional_astar_route fuel EG start_node target_node 30 allow_closed
      None None;;
  let routes_found := [route_djkstra; route_astar; route_bidirectional] in
  Ret (fold_left (pick_best EG) routes_found (None, Inf)).1.

(** The body of [for level in range(0, max_relax_level + 1)], on the levels
    still to try.  [res.get] on the [None] of [_run_search] raises
    [AttributeError]. *)
Fixpoint plan_levels (fuel : nat) (EG : edge_graph)
  (start_node target_node : Z) (vehicle_type : string)
  (base : gmap string pyval) (_closed : pyval) (levels : list Z)
  : outcome plan_result :=
  match levels with
  | [] => Ret (infeasible start_node target_node vehicle_type)
  | level :: rest =>
      let constraints := relax_constraints base level in
      let EG_work := EG in
      res <- _run_search fuel EG_work start_node target_node (truthy _closed);;
      match res with
      | None => Raise AttributeError
      | Some res =>
          r <- validate_route EG_work (route_enodes res) constraints;;
          let '(valid, penalty) := r in
          let total_time :=
            compute_route_tt EG_work (default [] (route_enodes res)) in
          if valid then
            Ret {| p_start_node := start_node; p_target_node := target_node;
                   p_route_nodes := route_nodes res;
                   p_route_enodes := route_enodes res;
                   p_cost := penalty;
                   p_expanded_nodes := r_expanded res;
                   p_valid := valid; p_penalty := penalty;
                   p_total_time := total_time;
                   p_vehicle_type := vehicle_type;
                   p_relax_level := Some level;
                   p_constraints_used := Some constraints |}
          else
            plan_levels fuel EG start_node target_node vehicle_type base
              _closed rest
      end
  end.

(** [range(0, max_relax_level + 1)] *)
Definition level_range (max_relax_level : Z) : list Z :=
  map Z.of_nat (seq 0 (Z.to_nat (max_relax_level + 1))).

(** The lookup of the first line raises [KeyError] for an unknown vehicle
    type, so the [ValueError] of the second line is never reached. *)
Definition _plan_route (fuel : nat) (EG : edge_graph)
  (start_node target_node : Z) (vehicle_type : string) (max_relax_level : Z)
  : outcome plan_result :=
  match VEHICLE_PROFILES !! vehicle_type with
  | None => Raise KeyError
  | Some base =>
      match base !! "avoid_closed" with
      | None => Raise KeyError
      | Some _closed =>
          plan_levels fuel EG start_node target_node vehicle_type base
            _closed (level_range max_relax_level)
      end
  end.

End Planner.

(** ** A runtime to run the examples on: sets are iterated in the order of
    [elements], [hypot] is the root of the sum of squares rounded down on
    the grid of its denominator (exact when the root is rational), and of
    strings only plain decimal numerals are read. *)

Definition hypot_floor (x y : Q) : Q :=
  let s := Qred (x * x + y * y) in
  Z.sqrt (Qnum s * Zpos (Qden s)) # Qden s.

Fixpoint digits_value (s : string) (acc : Z) : option Z :=
  match s with
  | EmptyString => Some acc
  | String c s' =>
      let n := nat_of_ascii c in
      if ((48 <=? n) && (n <=? 57))%nat
      then digits_value s' (10 * acc + Z.of_nat (n - 48))%Z
      else None
  end.

Definition int_of_digits (s : string) : option Z :=
  match s with
  | EmptyString => None
  | _ => digits_value s 0
  end.

Definition float_of_decimal (s : string) : option Q :=
  match index 0 "." s with
  | None => inject_Z <$> int_of_digits s
  | Some i =>
      let frac := substring (S i) (String.length s - S i) s in
      match int_of_digits (substring 0 i s), int_of_digits frac with
      | Some a, Some b =>
          Some (inject_Z a + (b # Pos.of_nat (10 ^ String.length frac)))%Q
      | _, _ => None
      end
  end.

Definition example_runtime : PyRuntime := {|
  py_hypot := hypot_floor;
  py_float_of_str := float_of_decimal;
  py_int_of_digits := int_of_digits;
  py_set_iter := elements;
  py_set_iter_elem := fun s x => elem_of_elements s x;
|}.

(** ** Vocabulary of the search properties *)

Section Routes.
Variables (EG : edge_graph) (allow_closed : bool).

(** The closed-segment filter lets [n] through. *)
Definition passable (n : segment) : Prop :=
  skip_closed EG allow_closed n = false.

(** Each segment of [rest] succeeds the one before it, [u] first, and gets
    past the filter. *)
Fixpoint linked (u : segment) (rest : list segment) : Prop :=
  match rest with
  | [] => True
  | v :: rest' => v ∈ successors EG u /\ passable v /\ linked v rest'
  end.

(** A route the search can take: from a start segment to a target segment
    along transitions, over segments the filter lets through. *)
Definition search_route (seeds targets : list segment) (p : list segment)
  : Prop :=
  match p with
  | [] => False
  | s :: rest =>
      s ∈ seeds /\ passable s /\ linked s rest /\
      exists t, last (s :: rest) = Some t /\ t ∈ targets
  end.

(** [reach seeds n c]: the search can arrive at [n] with accumulated cost
    [c], written as the code sums it. *)
Inductive reach (seeds : list segment) : segment -> Q -> Prop :=
| reach_seed s :
    s ∈ seeds -> passable s -> reach seeds s (enode_travel_time EG s)
| reach_step u c v :
    reach seeds u c -> v ∈ successors EG u -> passable v ->
    reach seeds v (c + turn_cost EG u v + enode_travel_time EG v)%Q.

(** [reach_back targets n c]: the backward search of the bidirectional
    search can arrive at [n] with accumulated cost [c]. *)
Inductive reach_back (targets : list segment) : segment -> Q -> Prop :=
| reach_back_target t :
    t ∈ targets -> passable t ->
    reach_back targets t (enode_travel_time EG t)
| reach_back_step v c u :
    reach_back targets v c -> u ∈ predecessors EG v -> passable u ->
    reach_back targets u (c + turn_cost EG u v + enode_travel_time EG u)%Q.

(** What the two one-directional searches keep, seen alike: the heap as
    [(g, segment)] entries, the best known costs, the predecessors and the
    visited set. *)
Record view := View {
  v_q : list (Q * segment);
  v_dist : gmap segment Q;
  v_prev : gmap segment (option segment);
  v_vis : gset segment;
}.

(** The body of the [for neighbor in EG.successors(enode)] loop on a
    view. *)
Definition relax_view (n : segment) (g : Q) (σ : view) (v : segment) : view :=
  if skip_closed EG allow_closed v then σ
  else
    let cand := (g + turn_cost EG n v + enode_travel_time EG v)%Q in
    if lt_get cand (v_dist σ !! v) then
      View ((cand, v) :: v_q σ) (<[v := cand]> (v_dist σ))
           (<[v := Some n]> (v_prev σ)) (v_vis σ)
    else σ.

(** The body of the seeding loop on a view. *)
Definition seed_view (σ : view) (s : segment) : view :=
  if skip_closed EG allow_closed s then σ
  else
    let g := enode_travel_time EG s in
    View ((g, s) :: v_q σ) (<[s := g]> (v_dist σ))
         (<[s := None]> (v_prev σ)) (v_vis σ).

(** The transition [u -> v] has been relaxed. *)
Definition relaxed (σ : view) (u v : segment) : Prop :=
  exists du dv,
    v_dist σ !! u = Some du /\ v_dist σ !! v = Some dv /\
    (dv <= du + turn_cost EG u v + enode_travel_time EG v)%Q.

(** [chain prev n p]: [p] is what [prev_chain] collects from [n]. *)
Inductive chain (prev : gmap segment (option segment))
  : segment -> list segment -> Prop :=
| chain_root n : mjoin (prev !! n) = None -> chain prev n [n]
| chain_step n u p :
    mjoin (prev !! n) = Some u -> chain prev u p -> chain prev n (n :: p).

(** The invariant of the loop of a one-directional search with heuristic
    [h]; while segment [src] is being expanded, the transitions into
    [pending] are still to be relaxed. *)
Record search_inv (seeds targets : list segment) (h : segment -> Q)
  (src : segment) (pending : list segment) (σ : view) : Prop := {
  inv_entry : forall g n, (g, n) ∈ v_q σ ->
      exists d, v_dist σ !! n = Some d /\ (d <= g)%Q;
  inv_front : forall n d, v_dist σ !! n = Some d ->
      n ∈ v_vis σ \/ (d, n) ∈ v_q σ;
  inv_closed : forall u v, u ∈ v_vis σ -> v ∈ successors EG u ->
      passable v -> (u = src /\ v ∈ pending) \/ relaxed σ u v;
  inv_seed : forall s, s ∈ seeds -> passable s ->
      exists d, v_dist σ !! s = Some d /\ (d <= enode_travel_time EG s)%Q;
  inv_mono : forall u du g n, u ∈ v_vis σ -> v_dist σ !! u = Some du ->
      (g, n) ∈ v_q σ -> (du + h u <= g + h n)%Q;
  inv_target : forall t, t ∈ targets -> t ∉ v_vis σ;
  inv_reach : forall g n, (g, n) ∈ v_q σ -> reach seeds n g;
  inv_visited : forall u, u ∈ v_vis σ -> is_Some (v_dist σ !! u);
  inv_chain : forall n d, v_dist σ !! n = Some d ->
      exists p, chain (v_prev σ) n p /\ forall x, x ∈ tail p -> x ∈ v_vis σ;
}.

(** What holds of the segment [n] being expanded at cost [g] while its
    transitions are relaxed. *)
Definition expanding_from (seeds : list segment) (h : segment -> Q)
  (n : segment) (g : Q) (σ : view) : Prop :=
  n ∈ v_vis σ /\ reach seeds n g /\
  (exists dn, v_dist σ !! n = Some dn /\ (g <= dn)%Q) /\
  (forall u du, u ∈ v_vis σ -> v_dist σ !! u = Some du ->
     (du + h u <= g + h n)%Q).

(** After seeding: nothing is visited and every entry is a seed at its own
    travel time. *)
Definition seeded_from (seeds : list segment) (σ : view) : Prop :=
  v_vis σ = ∅ /\
  (forall g n, (g, n) ∈ v_q σ ->
     g = enode_travel_time EG n /\ n ∈ seeds /\ passable n /\
     v_dist σ !! n = Some g) /\
  (forall n d, v_dist σ !! n = Some d -> (d, n) ∈ v_q σ) /\
  (forall n, mjoin (v_prev σ !! n) = None).

(** Entries in the heap plus transitions whose source is not visited yet:
    what bounds the iterations still to come. *)
Definition search_measure (σ : view) : nat :=
  length (v_q σ)
  + length (filter (fun e => e.1.1 ∉ v_vis σ) (eg_edges EG)).

End Routes.

(** The priority of an entry of [astar_route] is its cost plus the
    heuristic. *)
Definition keyed_by (h : segment -> Q) (heap : list (Q * Q * segment))
  : Prop :=
  forall e, e ∈ heap -> e.1.1 = (e.1.2 + h e.2)%Q.

(** The state of [dijkstra_route] and of [astar_route] as a view. *)
Definition view_d (st : dstate) : view :=
  View (d_pq st) (d_dist st) (d_prev st) (d_visited st).

Definition view_a (st : astate) : view :=
  View (map (fun e => (e.1.2, e.2)) (a_heap st)) (a_gscore st) (a_prev st)
       (a_visited st).

(** The heuristic of [dijkstra_route]: none. *)
Definition zero_h : segment -> Q := fun _ => 0%Q.

(** What a search loop may end with: a target arrived at with a cost no
    way of arriving at a target undercuts, from which the predecessors
    lead back; or nothing, and then, unless a cap was set, no target can
    be arrived at. *)
Definition loop_result_ok (EG : edge_graph) (allow_closed : bool)
  (max_visits : option Z) (seeds targets : list segment)
  (prev : gmap segment (option segment)) (res : option (segment * Q))
  : Prop :=
  match res with
  | Some (t, c) =>
      t ∈ targets /\ reach EG allow_closed seeds t c /\
      (forall t' c', t' ∈ targets -> reach EG allow_closed seeds t' c' ->
         (c <= c')%Q) /\
      exists p, chain prev t p
  | None =>
      max_visits = None ->
      forall t' c', t' ∈ targets -> ~ reach EG allow_closed seeds t' c'
  end.

(** The invariant of the loop of the bidirectional search: every cost it
    holds is the cost of a way to arrive from its side, and a recorded
    meeting is no cheaper than some way from the start set to a target. *)
Record bidir_inv (EG : edge_graph) (allow_closed : bool)
  (seeds targets : list segment) (st : bstate) : Prop := {
  bi_open_fwd : forall e, e ∈ open_fwd st ->
      reach EG allow_closed seeds e.2 e.1.2;
  bi_g_fwd : forall n g, g_fwd st !! n = Some g ->
      reach EG allow_closed seeds n g;
  bi_open_bwd : forall e, e ∈ open_bwd st ->
      reach_back EG allow_closed targets e.2 e.1.2;
  bi_g_bwd : forall n g, g_bwd st !! n = Some g ->
      reach_back EG allow_closed targets n g;
  bi_best : forall c, best_cost st = Fin c ->
      exists t c', t ∈ targets /\ reach EG allow_closed seeds t c' /\
        (c' <= c)%Q;
}.

(** Travel times and turn costs are non-negative. *)
Definition nonneg_costs (EG : edge_graph) : Prop :=
  (forall n, 0 <= enode_travel_time EG n)%Q /\
  (forall u v, 0 <= turn_cost EG u v)%Q.

(** The same, as a check on the data of the graph. *)
Definition nonneg_costs_check (EG : edge_graph) : bool :=
  forallb (fun nd => Qle_bool 0 (enode_travel_time EG nd.1)) (eg_nodes EG)
  && forallb (fun e => Qle_bool 0 (default 0%Q e.2)) (eg_edges EG).

(** [h] is consistent: zero on the targets and never more than the cost of
    a transition plus [h] after it. *)
Definition consistent (EG : edge_graph) (allow_closed : bool)
  (targets : list segment) (h : segment -> Q) : Prop :=
  (forall t, t ∈ targets -> h t == 0)%Q /\
  (forall u v, v ∈ successors EG u -> passable EG allow_closed v ->
     h u <= turn_cost EG u v + enode_travel_time EG v + h v)%Q.

Definition consistent_check (EG : edge_graph) (allow_closed : bool)
  (targets : list segment) (h : segment -> Q) : bool :=
  forallb (fun t => Qeq_bool (h t) 0) targets
  && forallb
       (fun e =>
          skip_closed EG allow_closed e.1.2
          || Qle_bool (h e.1.1)
               (turn_cost EG e.1.1 e.1.2 + enode_travel_time EG e.1.2
                + h e.1.2))
       (eg_edges EG).

(** [h] never overestimates what is left to a target: for every route
    the search can take on from [n], [h n] is at most the cost after
    [n]. *)
Definition admissible (EG : edge_graph) (allow_closed : bool)
  (targets : list segment) (h : segment -> Q) : Prop :=
  forall n rest t,
    linked EG allow_closed n rest -> last (n :: rest) = Some t ->
    t ∈ targets ->
    (h n <= route_tt_loop EG n rest 0)%Q.

(** A soft check adds the same amount whatever the running total is. *)
Definition adds (f : Q -> outcome Q) (d : Q) : Prop :=
  forall t, exists r, f t = Ret r /\ (r == t + d)%Q.

(** ** Example inputs *)

Definition mk_seg (u v k : Z) (x : Q) (t : Q) (cl br mh : option pyval)
  : segment * seg_data :=
  ((u, v, k),
   {| orig_u := u; orig_v := v; u_x := 0; u_y := 0; v_x := x; v_y := 0;
      travel_time := Some t; traffic_mult := None; penalty := None;
      closed := cl; bridge := br; tunnel := None; maxheight := mh;
      maxweight := None; lanes := None; highway := None |}).

Definition mk_edge (a b : segment) : segment * segment * option Q :=
  (a, b, Some 0%Q).

(** One bridge segment with a declared [maxheight] of 3.0. *)
Definition bridge_graph : edge_graph :=
  {| eg_nodes :=
       [mk_seg 1 2 0 0 1 (Some (VBool false)) (Some (VStr "yes"))
          (Some (VFloat 3))];
     eg_edges := [] |}.

Definition height_limit (h : Q) : gmap string pyval :=
  {["max_height" := VFloat h]}.

(** Six segments; [(2,3,0)] ends far from everything else, at x = 360.
    The cheapest way from node 1 to node 6 takes the detour over node 3:
    1-2-3-4-5-6 costs 14, the direct 1-2-4-5-6 costs 16. *)
Definition detour_graph : edge_graph :=
  {| eg_nodes :=
       [mk_seg 1 2 0 0 1 None None None; mk_seg 2 4 0 0 4 None None None;
        mk_seg 2 3 0 360 1 None None None; mk_seg 3 4 0 0 1 None None None;
        mk_seg 4 5 0 0 1 None None None; mk_seg 5 6 0 0 10 None None None];
     eg_edges :=
       [mk_edge (1, 2, 0) (2, 4, 0); mk_edge (1, 2, 0) (2, 3, 0);
        mk_edge (2, 3, 0) (3, 4, 0); mk_edge (2, 4, 0) (4, 5, 0);
        mk_edge (3, 4, 0) (4, 5, 0); mk_edge (4, 5, 0) (5, 6, 0)]%Z |}.

(** Two parallel segments from node 1 to node 2: a closed one of travel
    time 1 and an open one of travel time 5. *)
Definition shortcut_graph : edge_graph :=
  {| eg_nodes :=
       [mk_seg 1 2 0 0 1 (Some (VBool true)) None None;
        mk_seg 1 2 1 0 5 (Some (VBool false)) None None];
     eg_edges := [] |}.

(** Two segments in a row, 1-2-3. *)
Definition chain_graph : edge_graph :=
  {| eg_nodes :=
       [mk_seg 1 2 0 0 1 (Some (VBool false)) None None;
        mk_seg 2 3 0 0 1 (Some (VBool false)) None None];
     eg_edges := [mk_edge (1, 2, 0) (2, 3, 0)]%Z |}.

(** ** src/core/constraints.py: traffic *)

(** [str(z)] for an int: its decimal numeral. *)
Definition py_str_int (z : Z) : string :=
  NilZero.string_of_int (Z.to_int z).

(** The id of a segment: [u-v-k], the three numbers in decimal. *)
Definition _edge_id_str (enode : segment) : string :=
  let '(u, v, k) := enode in
  (py_str_int u +:+ "-" +:+ py_str_int v +:+ "-" +:+ py_str_int k)%string.

(** [data["traffic_mult"] = mult] *)
Definition set_traffic_mult (data : seg_data) (mult : Q) : seg_data :=
  {| orig_u := orig_u data; orig_v := orig_v data;
     u_x := u_x data; u_y := u_y data; v_x := v_x data; v_y := v_y data;
     travel_time := travel_time data; traffic_mult := Some mult;
     penalty := penalty data; closed := closed data; bridge := bridge data;
     tunnel := tunnel data; maxheight := maxheight data;
     maxweight := maxweight data; lanes := lanes data;
     highway := highway data |}.

(** The graph after the in-place update of [apply_traffic_to_graph]. *)
Definition apply_traffic_to_graph (EG : edge_graph)
  (traffic_data : gmap string Q) : edge_graph :=
  {| eg_nodes :=
       map (fun nd =>
              let edge_id := _edge_id_str nd.1 in
              match traffic_data !! edge_id with
              | Some mult => (nd.1, set_traffic_mult nd.2 mult)
              | None => nd
              end)
           (eg_nodes EG);
     eg_edges := eg_edges EG |}.

(** ** Vocabulary of the further properties *)

(** A bridge without declared limits. *)
Definition plain_bridge_graph : edge_graph :=
  {| eg_nodes :=
       [mk_seg 1 2 0 0 1 (Some (VBool false)) (Some (VStr "yes")) None];
     eg_edges := [] |}.

(** The travel time [_run_search] compares the results by. *)
Definition result_time (EG : edge_graph) (route : route_result) : cost :=
  compute_route_tt EG (default [] (route_enodes route)).

(** What the predecessor map of a search holds, whatever the costs are: a
    segment without predecessor is a seed the filter lets through, and a
    segment with predecessor [u] is one of [succ u], gets past the filter,
    and [u] has an entry of its own. *)
Definition prev_sound (EG : edge_graph) (allow_closed : bool)
  (succ : segment -> list segment) (seeds : list segment)
  (prev : gmap segment (option segment)) : Prop :=
  forall n,
    match prev !! n with
    | Some None => n ∈ seeds /\ passable EG allow_closed n
    | Some (Some u) =>
        n ∈ succ u /\ passable EG allow_closed n /\ is_Some (prev !! u)
    | None => True
    end.

(** The route runs from a segment leaving [s] to a segment arriving at
    [t], along transitions of the graph, over segments the closed-segment
    filter lets through. *)
Definition route_between (EG : edge_graph) (allow_closed : bool) (s t : Z)
  (path : list segment) : Prop :=
  exists first rest final,
    path = first :: rest /\ last path = Some final /\
    first ∈ enodes_from_start EG s /\ final ∈ target_nodes EG t /\
    passable EG allow_closed first /\ linked EG allow_closed first rest.

(** The predecessor map is sound and holds an entry for every segment
    waiting in the heap. *)
Definition shape_inv (EG : edge_graph) (allow_closed : bool)
  (succ : segment -> list segment) (seeds : list segment)
  (waiting : list segment) (prev : gmap segment (option segment)) : Prop :=
  prev_sound EG allow_closed succ seeds prev /\
  forall n, n ∈ waiting -> is_Some (prev !! n).

(** What the two predecessor maps of the bidirectional search hold: the
    forward one leads back to the start set along successors, the backward
    one on to the target set along predecessors read backwards, and a
    recorded meeting segment has an entry in both. *)
Record bidir_shape (EG : edge_graph) (allow_closed : bool)
  (seeds targets : list segment) (st : bstate) : Prop := {
  bs_fwd : shape_inv EG allow_closed (successors EG) seeds
             (open_fwd st).*2 (prev_fwd st);
  bs_bwd : shape_inv EG allow_closed (predecessors EG) targets
             (open_bwd st).*2 (prev_bwd st);
  bs_g_fwd : forall n, is_Some (g_fwd st !! n) -> is_Some (prev_fwd st !! n);
  bs_g_bwd : forall n, is_Some (g_bwd st !! n) -> is_Some (prev_bwd st !! n);
  bs_meeting : forall m, meeting_node st = Some m ->
      is_Some (prev_fwd st !! m) /\ is_Some (prev_bwd st !! m);
}.

(** What the costs and the predecessors of a one-directional search hold
    of each other when no settled cost changes any more: a segment with a
    cost has an entry in the predecessor map, a segment without
    predecessor costs its own travel time, and a segment with predecessor
    [u] costs what [u] costs plus the transition; [u] is visited. *)
Definition cost_chain (EG : edge_graph) (σ : view) : Prop :=
  (forall n, is_Some (v_dist σ !! n) -> is_Some (v_prev σ !! n)) /\
  forall n,
    match v_prev σ !! n with
    | Some None => v_dist σ !! n = Some (enode_travel_time EG n)
    | Some (Some u) =>
        u ∈ v_vis σ /\
        exists du dn, v_dist σ !! u = Some du /\ v_dist σ !! n = Some dn /\
          (dn == du + turn_cost EG u n + enode_travel_time EG n)%Q
    | None => True
    end.

(** While [n] is expanded at cost [g]: every visited segment has a cost,
    and its priority is not above the one of [n]. *)
Definition settled_below (h : segment -> Q) (n : segment) (g : Q) (σ : view)
  : Prop :=
  forall u, u ∈ v_vis σ ->
    exists du, v_dist σ !! u = Some du /\ (du + h u <= g + h n)%Q.

(** The costs of a search never fall below what the predecessors account
    for: a segment without predecessor costs its own travel time at
    least, and a segment with predecessor [u] at least what [u] costs now
    plus the transition [w u n] and its own travel time. *)
Definition cost_bound (tt : segment -> Q) (w : segment -> segment -> Q)
  (dist : gmap segment Q) (prev : gmap segment (option segment)) : Prop :=
  (forall n, is_Some (dist !! n) -> is_Some (prev !! n)) /\
  forall n,
    match prev !! n with
    | Some None => exists d, dist !! n = Some d /\ (tt n <= d)%Q
    | Some (Some u) =>
        exists du dn, dist !! u = Some du /\ dist !! n = Some dn /\
          (du + w u n + tt n <= dn)%Q
    | None => True
    end.

(** No entry of the heap is below the cost its segment has by now. *)
Definition entries_above (entries : list (Q * segment))
  (dist : gmap segment Q) : Prop :=
  forall g n, (g, n) ∈ entries -> exists d, dist !! n = Some d /\ (d <= g)%Q.

(** The cost and the segment of an entry [(f, g, segment)]. *)
Definition entry_cost (e : Q * Q * segment) : Q * segment := (e.1.2, e.2).

(** What the bidirectional search keeps of its costs: on either side no
    entry is below the cost of its segment and the costs are bounded along
    the predecessors (backwards, the transition into [u] from [n] is the
    one that counts), and the recorded best cost is not below the sum of the
    two costs of the meeting segment. *)
Record bidir_bound (EG : edge_graph) (st : bstate) : Prop := {
  bb_open_fwd : entries_above (map entry_cost (open_fwd st)) (g_fwd st);
  bb_fwd : cost_bound (enode_travel_time EG) (turn_cost EG)
             (g_fwd st) (prev_fwd st);
  bb_open_bwd : entries_above (map entry_cost (open_bwd st)) (g_bwd st);
  bb_bwd : cost_bound (enode_travel_time EG) (fun u n => turn_cost EG n u)
             (g_bwd st) (prev_bwd st);
  bb_meeting : forall m, meeting_node st = Some m ->
      exists c a b,
        best_cost st = Fin c /\ g_fwd st !! m = Some a /\
        g_bwd st !! m = Some b /\ (a + b <= c)%Q;
}.

(** After seeding: every entry is a seed at its own travel time, and so is
    every cost; no segment has a predecessor. *)
Definition seeded_costs (tt : segment -> Q) (entries : list (Q * segment))
  (dist : gmap segment Q) (prev : gmap segment (option segment)) : Prop :=
  (forall g n, (g, n) ∈ entries -> g = tt n /\ dist !! n = Some g) /\
  (forall n, match prev !! n with
             | Some None => dist !! n = Some (tt n)
             | Some (Some _) => False
             | None => dist !! n = None
             end).

(** * Properties *)

(** ** Numbers and outcomes *)

Lemma Qltb_lt (x y : Q) : Qltb x y = true <-> (x < y)%Q.
Proof.
  unfold Qltb. rewrite Qlt_alt. destruct (x ?= y)%Q; split; congruence.
Qed.

Lemma Qltb_ge (x y : Q) : Qltb x y = false <-> (y <= x)%Q.
Proof.
  rewrite <- not_true_iff_false, Qltb_lt. split.
  - apply Qnot_lt_le.
  - apply Qle_not_lt.
Qed.

Lemma bind_Ret {A B} (m : outcome A) (k : A -> outcome B) (b : B) :
  bind m k = Ret b -> exists a, m = Ret a /\ k a = Ret b.
Proof. destruct m; simpl; try discriminate. eauto. Qed.

Ltac inv_bind H :=
  let a := fresh "a" in
  let Ha := fresh "Ha" in
  apply bind_Ret in H as (a & Ha & H).

(** ** Relaxation *)

Lemma relax_from_3 (base : gmap string pyval) (level : Z) (k : string) :
  (3 <= level)%Z ->
  relax_constraints base level !! k =
  if decide (k = "avoid_closed") then base !! "avoid_closed" else None.
Proof.
  intros Hl. unfold relax_constraints.
  destruct (Z.eqb_spec level 0) as [->|_]; [lia|].
  destruct (Z.leb_spec 1 level); [|lia].
  destruct (Z.leb_spec 2 level); [|lia].
  destruct (Z.leb_spec 3 level); [|lia].
  destruct (decide (k = "avoid_closed")) as [->|Hk].
  - destruct (base !! "avoid_closed") as [v|] eqn:E.
    + apply map_lookup_filter_Some. split.
      * by rewrite !lookup_delete_ne.
      * simpl. unfold keep_keys. set_solver.
    + apply map_lookup_filter_None. left. by rewrite !lookup_delete_ne.
  - apply map_lookup_filter_None. right. intros x _. simpl.
    unfold keep_keys. by rewrite list_elem_of_singleton.
Qed.

(** C8: the constraint set of level 3 holds no key other than
    [avoid_closed], whatever the profile, and the value of [avoid_closed]
    is the one of the profile. *)
Theorem relax_level_3_only_avoid_closed (base : gmap string pyval) :
  dom (relax_constraints base 3) ⊆ {["avoid_closed"]} /\
  (forall k, k <> "avoid_closed" -> relax_constraints base 3 !! k = None) /\
  relax_constraints base 3 !! "avoid_closed" = base !! "avoid_closed".
Proof.
  split; [|split].
  - intros k Hk. apply elem_of_dom in Hk as [v Hv].
    rewrite relax_from_3 in Hv by lia.
    destruct (decide (k = "avoid_closed")); [set_solver|discriminate].
  - intros k Hk. rewrite relax_from_3 by lia. by rewrite decide_False.
  - rewrite relax_from_3 by lia. by rewrite decide_True.
Qed.

(** ** The constraint engine *)

Section ConstraintProps.
Context `{RT : PyRuntime}.

Lemma add_non_preferred_Ret c t r :
  add_non_preferred c t = Ret r ->
  exists npp,
    py_num (default (VFloat 10) (c !! "non_preferred_penalty")) = Some npp /\
    r = (t + npp)%Q.
Proof.
  unfold add_non_preferred.
  destruct (py_num _) as [npp|]; [|discriminate].
  intros [= <-]. eauto.
Qed.

Lemma allow_list_adds key value c t r :
  allow_list key value c t = Ret r -> exists d, adds (allow_list key value c) d.
Proof.
  unfold allow_list, adds. destruct (c !! key) as [allowed|].
  - destruct (py_in _ allowed) as [[]| |]; simpl; try discriminate.
    + intros _. exists 0%Q. intros t'. eexists; split; [done|]. lra.
    + intros H. apply add_non_preferred_Ret in H as (npp & Hn & _).
      exists npp. intros t'. unfold add_non_preferred. rewrite Hn.
      eexists; split; [done|]. lra.
  - intros _. exists 0%Q. intros t'. eexists; split; [done|]. lra.
Qed.

Lemma allow_lists_adds data c t r :
  allow_lists data c t = Ret r -> exists d, adds (allow_lists data c) d.
Proof.
  unfold allow_lists. intros H.
  inv_bind H. inv_bind H.
  apply allow_list_adds in Ha as [d1 H1].
  apply allow_list_adds in Ha0 as [d2 H2].
  apply allow_list_adds in H as [d3 H3].
  exists (d1 + d2 + d3)%Q. intros t'.
  destruct (H1 t') as (r1 & E1 & Q1). rewrite E1. simpl.
  destruct (H2 r1) as (r2 & E2 & Q2). rewrite E2. simpl.
  destruct (H3 r2) as (r3 & E3 & Q3). rewrite E3.
  eexists; split; [done|]. lra.
Qed.

(** Both checks of lines 86-92 fire on a segment whose closed flag reads
    as true under an [avoid_closed] that is set. *)
Lemma closed_checks_fire_twice EG en c flag p :
  c !! "avoid_closed" = Some flag -> truthy flag = true ->
  truthy (default (VBool true) (closed (node_data EG en))) = true ->
  validate_single_edge EG en c = Ret (true, Fin p) ->
  exists npp rest,
    py_num (default (VFloat 10) (c !! "non_preferred_penalty")) = Some npp /\
    allow_lists (node_data EG en) c 0 = Ret rest /\
    (p == npp + npp + rest)%Q.
Proof.
  intros Hflag Ht Hcl H. unfold validate_single_edge in H.
  inv_bind H. destruct a; [discriminate|].
  inv_bind H. destruct a; [discriminate|].
  inv_bind H. destruct a; [discriminate|].
  inv_bind H. injection H as <-.
  unfold soft_penalty in Ha2.
  inv_bind Ha2. inv_bind Ha2.
  unfold closed_general in Ha3. rewrite Hflag in Ha3. simpl in Ha3.
  rewrite Ht, Hcl in Ha3. simpl in Ha3.
  apply add_non_preferred_Ret in Ha3 as (npp & Hn & ->).
  unfold closed_keyed in Ha4. rewrite Hflag, Ht, Hcl in Ha4.
  apply add_non_preferred_Ret in Ha4 as (npp' & Hn' & ->).
  rewrite Hn in Hn'. injection Hn' as <-.
  apply allow_lists_adds in Ha2 as Hd. destruct Hd as [d Hd].
  destruct (Hd 0%Q) as (rest & E0 & Q0).
  destruct (Hd (0 + npp + npp)%Q) as (r' & E' & Q').
  rewrite Ha2 in E'. injection E' as <-.
  exists npp, rest. split; [done|]. split; [done|]. lra.
Qed.

(** C9: with [avoid_closed] set, a segment marked closed that passes the
    hard checks gets the non-preferred-usage penalty twice, once by the
    general and once by the keyed check, next to what the allow-list checks
    add. *)
Theorem closed_segment_penalised_twice EG en c flag v p :
  c !! "avoid_closed" = Some flag -> truthy flag = true ->
  closed (node_data EG en) = Some v -> truthy v = true ->
  validate_single_edge EG en c = Ret (true, Fin p) ->
  exists npp rest,
    py_num (default (VFloat 10) (c !! "non_preferred_penalty")) = Some npp /\
    allow_lists (node_data EG en) c 0 = Ret rest /\
    (p == npp + npp + rest)%Q.
Proof.
  intros Hflag Ht Hv Hvt. apply closed_checks_fire_twice with flag; try done.
  by rewrite Hv.
Qed.

(** On a bridge of declared max height 3.0, a float height limit decides
    alone whether a segment accepted without that limit stays accepted. *)
Lemma validate_without_height EG en c h b p :
  c !! "max_height" = Some (VFloat h) ->
  bridge (node_data EG en) = Some b -> py_in b yes_values = Ret true ->
  maxheight (node_data EG en) = Some (VFloat 3) ->
  validate_single_edge EG en (delete "max_height" c) = Ret (true, Fin p) ->
  validate_single_edge EG en c
  = Ret (if Qltb h 3 then (false, Inf) else (true, Fin p)).
Proof.
  intros Hh Hb Hyes Hmh H.
  unfold validate_single_edge in *.
  unfold bridge_rejects in *. rewrite Hb in *. simpl in *.
  injection Hyes as Hyes. rewrite Hyes in *. simpl in *.
  rewrite Hh, Hmh. rewrite lookup_delete_eq in H. simpl in *.
  rewrite (lookup_delete_ne c "max_height" "max_weight") in H by done.
  destruct (Qltb h 3) eqn:Hlt; [done|].
  destruct (match c !! "max_weight" with Some _ => _ | None => _ end)
    as [[]| |]; try discriminate. simpl in *.
  unfold tunnel_rejects in *.
  destruct (py_in _ yes_values) as [[]| |]; try discriminate; simpl in *.
  - rewrite Hh, Hmh. rewrite lookup_delete_eq in H. simpl in *. rewrite Hlt.
    simpl.
    unfold lanes_rejects, soft_penalty, closed_general, closed_keyed,
      allow_lists, allow_list, add_non_preferred in *.
    by rewrite !(lookup_delete_ne c "max_height") in H by done.
  - unfold lanes_rejects, soft_penalty, closed_general, closed_keyed,
      allow_lists, allow_list, add_non_preferred in *.
    by rewrite !(lookup_delete_ne c "max_height") in H by done.
Qed.

(** C2, amended: a bridge segment with a declared max height of 3.0 that
    a constraint set without height limit accepts is still accepted under a
    limit of 3.5 (3.0 does not exceed it) and of 4.0, with the same penalty,
    and is rejected with infinite cost under a limit of 2.5. *)
Theorem bridge_height_3_limits EG en c b p :
  bridge (node_data EG en) = Some b -> py_in b yes_values = Ret true ->
  maxheight (node_data EG en) = Some (VFloat 3) ->
  c !! "max_height" = None ->
  validate_single_edge EG en c = Ret (true, Fin p) ->
  validate_single_edge EG en (<["max_height" := VFloat (7 # 2)]> c)
  = Ret (true, Fin p) /\
  validate_single_edge EG en (<["max_height" := VFloat (5 # 2)]> c)
  = Ret (false, Inf) /\
  validate_single_edge EG en (<["max_height" := VFloat 4]> c)
  = Ret (true, Fin p).
Proof.
  intros Hb Hyes Hmh Hc H.
  assert (Hgen : forall h,
    validate_single_edge EG en (<["max_height" := VFloat h]> c)
    = Ret (if Qltb h 3 then (false, Inf) else (true, Fin p))).
  { intros h. apply validate_without_height with b; try done.
    - apply lookup_insert_eq.
    - by rewrite delete_insert_id. }
  repeat split; apply Hgen.
Qed.

(** When the [closed] key is absent both avoid-closed checks read the
    segment as closed. *)
Lemma missing_closed_penalised EG en c flag p :
  closed (node_data EG en) = None ->
  c !! "avoid_closed" = Some flag -> truthy flag = true ->
  validate_single_edge EG en c = Ret (true, Fin p) ->
  exists npp rest,
    py_num (default (VFloat 10) (c !! "non_preferred_penalty")) = Some npp /\
    allow_lists (node_data EG en) c 0 = Ret rest /\
    (p == npp + npp + rest)%Q.
Proof.
  intros Hcl Hflag Ht. apply closed_checks_fire_twice with flag; try done.
  by rewrite Hcl.
Qed.

End ConstraintProps.

(** C2, the claim as stated fails: under a limit of 3.5 the bridge of
    height 3.0 is accepted, not rejected. *)
Lemma bridge_3_accepted_under_3_5 :
  validate_single_edge (RT := example_runtime) bridge_graph (1, 2, 0)%Z
    (height_limit (7 # 2))
  = Ret (true, Fin 0) /\
  validate_single_edge (RT := example_runtime) bridge_graph (1, 2, 0)%Z
    (height_limit (7 # 2))
  <> Ret (false, Inf).
Proof. split; [reflexivity|discriminate]. Qed.

Lemma bridge_height_3_limits_witness :
  validate_single_edge (RT := example_runtime) bridge_graph (1, 2, 0)%Z
    (<["max_height" := VFloat (7 # 2)]> ∅)
  = Ret (true, Fin 0) /\
  validate_single_edge (RT := example_runtime) bridge_graph (1, 2, 0)%Z
    (<["max_height" := VFloat (5 # 2)]> ∅)
  = Ret (false, Inf) /\
  validate_single_edge (RT := example_runtime) bridge_graph (1, 2, 0)%Z
    (<["max_height" := VFloat 4]> ∅)
  = Ret (true, Fin 0).
Proof.
  apply (@bridge_height_3_limits example_runtime bridge_graph
           (1, 2, 0)%Z ∅ (VStr "yes") 0); reflexivity.
Defined.

Lemma closed_segment_penalised_twice_witness :
  exists npp rest,
    py_num (default (VFloat 10)
              (profile 3 4 1 true 1 [] !! "non_preferred_penalty"))
    = Some npp /\
    allow_lists (node_data shortcut_graph (1, 2, 0)%Z)
      (profile 3 4 1 true 1 []) 0
    = Ret rest /\
    (9 == npp + npp + rest)%Q.
Proof.
  apply (@closed_segment_penalised_twice example_runtime
           shortcut_graph (1, 2, 0)%Z (profile 3 4 1 true 1 [])
           (VBool true) (VBool true) 9); reflexivity.
Defined.

(** ** The closed-segment filter of the searches *)

Lemma is_enode_closed_missing EG en :
  closed (node_data EG en) = None -> is_enode_closed EG en = false.
Proof. unfold is_enode_closed. by intros ->. Qed.

Lemma skip_closed_open EG allow_closed en :
  is_enode_closed EG en = false -> skip_closed EG allow_closed en = false.
Proof. unfold skip_closed. intros ->. by destruct allow_closed. Qed.

Section ClosedKey.
Context `{RT : PyRuntime}.


End ClosedKey.


(** ** The planner *)

Section PlannerProps.
Context `{RT : PyRuntime}.

Lemma run_search_no_route fuel EG s t allow_closed rd ra rb :
  dijkstra_route fuel EG s t None allow_closed None = Ret rd ->
  astar_route fuel EG s t None 30 allow_closed None = Ret ra ->
  bidirectional_astar_route fuel EG s t 30 allow_closed None None = Ret rb ->
  route_enodes rd = None -> route_enodes ra = None ->
  route_enodes rb = None ->
  _run_search fuel EG s t allow_closed = Ret None.
Proof.
  intros Hd Ha Hb Ed Ea Eb. unfold _run_search.
  rewrite Hd, Ha, Hb. simpl. unfold pick_best. by rewrite Ed, Ea, Eb.
Qed.

(** C1 (the code does not do this): when none of the three searches finds
    a path, [_run_search] returns [None] and the first use of it in
    [_plan_route], [res.get("route_enodes")], raises [AttributeError]; the
    infeasible sentinel is not returned. *)
Theorem plan_route_without_path_raises fuel EG s t vehicle_type base flag
  max_relax_level rd ra rb :
  VEHICLE_PROFILES !! vehicle_type = Some base ->
  base !! "avoid_closed" = Some flag ->
  (0 <= max_relax_level)%Z ->
  dijkstra_route fuel EG s t None (truthy flag) None = Ret rd ->
  astar_route fuel EG s t None 30 (truthy flag) None = Ret ra ->
  bidirectional_astar_route fuel EG s t 30 (truthy flag) None None = Ret rb ->
  route_enodes rd = None -> route_enodes ra = None ->
  route_enodes rb = None ->
  _plan_route fuel EG s t vehicle_type max_relax_level = Raise AttributeError.
Proof.
  intros Hv Hf Hl Hd Ha Hb Ed Ea Eb. unfold _plan_route. rewrite Hv, Hf.
  unfold level_range.
  destruct (Z.to_nat (max_relax_level + 1)) as [|n] eqn:E; [lia|].
  simpl. by rewrite (run_search_no_route _ _ _ _ _ rd ra rb).
Qed.

End PlannerProps.

Lemma plan_route_without_path_raises_witness :
  _plan_route (RT := example_runtime) 10 detour_graph 4 3 "ambulance" 3
  = Raise AttributeError.
Proof.
  apply (@plan_route_without_path_raises example_runtime 10 detour_graph
           4 3 "ambulance" (profile 3 4 1 true 1
                              ["max_height"; "max_weight"; "max_width"])
           (VBool true) 3 (no_route 2) (no_route 2) (no_route 4));
    try reflexivity.
  discriminate.
Defined.


(** ** The expansion cap *)

(** C7, amended: in [dijkstra_route] and [astar_route] a reached cap ends
    the search with the no-route result and the expansions counted so far.
    In [bidirectional_astar_route] a reached non-zero cap ends the search
    too, but with the best meeting recorded so far: the no-route result
    when there is none, else a route of cost [best_cost], either way with
    the expansions counted so far. *)
Theorem expansion_cap_stops_search EG allow_closed max_visits target_enodes :
  (forall fuel st,
     cap_reached max_visits (d_expanded st) = true ->
     dijkstra_search (S fuel) EG allow_closed max_visits target_enodes st
     = Ret (no_route (d_expanded st))) /\
  (forall fuel h st,
     cap_reached max_visits (a_expanded st) = true ->
     astar_search (S fuel) EG allow_closed max_visits target_enodes h st
     = Ret (no_route (a_expanded st))) /\
  (forall fuel hf hb st,
     cap_reached_truthy max_visits (b_expanded st) = true ->
     bidir_search (S fuel) EG allow_closed max_visits hf hb st
     = bidir_result (S fuel) st /\
     (meeting_node st = None ->
      bidir_result (S fuel) st = Ret (no_route (b_expanded st))) /\
     (forall r, meeting_node st <> None ->
      bidir_result (S fuel) st = Ret r ->
      route_enodes r <> None /\ r_cost r = best_cost st /\
      r_expanded r = b_expanded st)).
Proof.
  split; [|split].
  - intros fuel st Hcap. unfold dijkstra_search. simpl.
    destruct (heappop entry_le (d_pq st)) as [[[c n] pq]|]; [|done].
    simpl. by rewrite Hcap.
  - intros fuel h st Hcap. unfold astar_search. simpl.
    destruct (heappop entry3_le (a_heap st)) as [[[[f g] n] pq]|]; [|done].
    simpl. by rewrite Hcap.
  - intros fuel hf hb st Hcap. split; [|split].
    + unfold bidir_search. cbn [bidir_loop].
      destruct (open_bwd st); [done|].
      destruct (heappop entry3_le (open_fwd st)) as [[[[f g] n] pq]|];
        [|done].
      by rewrite Hcap.
    + intros Hm. unfold bidir_result. by rewrite Hm.
    + intros r Hm. unfold bidir_result.
      destruct (meeting_node st) as [m|]; [|done].
      intros H. inv_bind H. inv_bind H. by injection H as <-.
Qed.

(** C7, the claim as stated fails: capped at one expansion, the
    bidirectional search on [chain_graph] stops after its second pop and
    returns the route over the meeting it has recorded, not the no-route
    result; without cap it goes on to four pops. *)
Lemma bidirectional_cap_returns_route :
  bidirectional_astar_route (RT := example_runtime) 10 chain_graph 1 3 30
    false None (Some 1%Z)
  = Ret {| route_nodes := Some [1; 2; 3]%Z;
           route_enodes := Some [(1, 2, 0); (2, 3, 0)]%Z;
           r_cost := Fin 3; r_expanded := 2 |} /\
  r_expanded <$>
    (match bidirectional_astar_route (RT := example_runtime) 10 chain_graph
             1 3 30 false None None with
     | Ret r => Some r
     | _ => None
     end)
  = Some 4%Z.
Proof. split; reflexivity. Qed.

Lemma expansion_cap_stops_search_witness :
  dijkstra_search 1 chain_graph false (Some 1%Z) [(2, 3, 0)%Z]
    (DState [(2%Q, (2, 3, 0)%Z)] ∅ ∅ 1 ∅)
  = Ret (no_route 1) /\
  astar_search 1 chain_graph false (Some 1%Z) [(2, 3, 0)%Z] (fun _ => 0%Q)
    (AState [(2%Q, 2%Q, (2, 3, 0)%Z)] ∅ ∅ 1 ∅)
  = Ret (no_route 1) /\
  bidir_search 1 chain_graph false (Some 1%Z) (fun _ => 0%Q) (fun _ => 0%Q)
    (BState [(2%Q, 2%Q, (2, 3, 0)%Z)] [(2%Q, 2%Q, (1, 2, 0)%Z)] ∅ ∅ ∅ ∅ 2
       Inf None)
  = Ret (no_route 2).
Proof.
  pose proof (expansion_cap_stops_search chain_graph false (Some 1%Z)
                [(2, 3, 0)%Z]) as (Hd & Ha & Hb).
  split; [|split].
  - apply (Hd 0%nat (DState [(2%Q, (2, 3, 0)%Z)] ∅ ∅ 1 ∅)). reflexivity.
  - apply (Ha 0%nat (fun _ => 0%Q)
             (AState [(2%Q, 2%Q, (2, 3, 0)%Z)] ∅ ∅ 1 ∅)). reflexivity.
  - destruct (Hb 0%nat (fun _ => 0%Q) (fun _ => 0%Q)
                (BState [(2%Q, 2%Q, (2, 3, 0)%Z)] [(2%Q, 2%Q, (1, 2, 0)%Z)]
                   ∅ ∅ ∅ ∅ 2 Inf None) eq_refl) as (E & Hn & _).
    rewrite E. apply Hn. reflexivity.
Defined.

(** ** The heap *)

Lemma heappop_None {A} (le : A -> A -> bool) (h : list A) :
  heappop le h = None <-> h = [].
Proof.
  destruct h as [|x h]; [done|]. simpl.
  destruct (heappop le h) as [[m r]|]; [|done].
  by destruct (le x m).
Qed.

(** [heappop] takes one entry out and leaves the others in place. *)
Lemma heappop_split {A} (le : A -> A -> bool) (h : list A) m r :
  heappop le h = Some (m, r) ->
  exists l1 l2, h = l1 ++ m :: l2 /\ r = l1 ++ l2.
Proof.
  revert m r. induction h as [|x h IH]; intros m r; [done|]. simpl.
  destruct (heappop le h) as [[m' r']|] eqn:E.
  - destruct (le x m').
    + intros [= <- <-]. by exists [], h.
    + intros [= <- <-]. destruct (IH _ _ eq_refl) as (l1 & l2 & -> & ->).
      by exists (x :: l1), l2.
  - intros [= <- <-]. apply heappop_None in E as ->. by exists [], [].
Qed.

(** The entry taken out has the least key, for any key the order of the
    entries refines. *)
Lemma heappop_least {A} (le : A -> A -> bool) (key : A -> Q) (h : list A) m r :
  (forall x y, le x y = true -> (key x <= key y)%Q) ->
  (forall x y, le x y = false -> (key y <= key x)%Q) ->
  heappop le h = Some (m, r) ->
  forall y, y ∈ h -> (key m <= key y)%Q.
Proof.
  intros H1 H2. revert m r. induction h as [|x h IH]; intros m r; [done|].
  simpl. destruct (heappop le h) as [[m' r']|] eqn:E.
  - destruct (le x m') eqn:L.
    + intros [= <- <-] y [->|Hy]%elem_of_cons; [lra|].
      specialize (IH _ _ eq_refl y Hy). specialize (H1 _ _ L). lra.
    + intros [= <- <-] y [->|Hy]%elem_of_cons; [by apply H2|].
      by apply (IH _ _ eq_refl).
  - intros [= <- <-] y [->|Hy]%elem_of_cons; [lra|].
    apply heappop_None in E as ->. by apply elem_of_nil in Hy.
Qed.

Lemma Qeq_bool_le (x y : Q) : Qeq_bool x y = true -> (x <= y)%Q.
Proof. intros H%Qeq_bool_iff. lra. Qed.

Lemma entry_le_key (a b : Q * segment) :
  entry_le a b = true -> (a.1 <= b.1)%Q.
Proof.
  unfold entry_le. intros [H|[H _]%andb_prop]%orb_prop.
  - apply Qltb_lt in H. lra.
  - by apply Qeq_bool_le.
Qed.

Lemma entry_le_key_false (a b : Q * segment) :
  entry_le a b = false -> (b.1 <= a.1)%Q.
Proof.
  unfold entry_le. intros [H _]%orb_false_elim. by apply Qltb_ge.
Qed.

Lemma entry3_le_key (a b : Q * Q * segment) :
  entry3_le a b = true -> (a.1.1 <= b.1.1)%Q.
Proof.
  unfold entry3_le. intros [H|[H _]%andb_prop]%orb_prop.
  - apply Qltb_lt in H. lra.
  - by apply Qeq_bool_le.
Qed.

Lemma entry3_le_key_false (a b : Q * Q * segment) :
  entry3_le a b = false -> (b.1.1 <= a.1.1)%Q.
Proof.
  unfold entry3_le. intros [H _]%orb_false_elim. by apply Qltb_ge.
Qed.

Lemma lt_get_false (x : Q) (d : option Q) :
  lt_get x d = false -> exists y, d = Some y /\ (y <= x)%Q.
Proof.
  destruct d as [y|]; simpl; [|done]. intros H%Qltb_ge. eauto.
Qed.

Lemma lt_get_true (x y : Q) : lt_get x (Some y) = true -> (x < y)%Q.
Proof. simpl. apply Qltb_lt. Qed.

Lemma gt_get_false (x y : Q) : gt_get x (Some y) = false -> (x <= y)%Q.
Proof. simpl. apply Qltb_ge. Qed.

Lemma gt_get_true (x : Q) (d : option Q) :
  gt_get x d = true -> exists y, d = Some y /\ (y < x)%Q.
Proof.
  destruct d as [y|]; simpl; [|done]. intros H%Qltb_lt. eauto.
Qed.

(** ** Graph accessors *)

Lemma predecessors_successors EG u v :
  u ∈ predecessors EG v <-> v ∈ successors EG u.
Proof.
  unfold predecessors, successors. rewrite !list_elem_of_fmap. split.
  - intros (e & -> & [He E]%list_elem_of_filter). exists e.
    split; [done|]. apply list_elem_of_filter. done.
  - intros (e & -> & [He E]%list_elem_of_filter). exists e.
    split; [done|]. apply list_elem_of_filter. done.
Qed.

Lemma length_successors EG n :
  length (successors EG n)
  = length (filter (fun e => e.1.1 = n) (eg_edges EG)).
Proof. unfold successors. apply length_map. Qed.

(** ** Routes and reachability *)

Section RouteProps.
Variables (EG : edge_graph) (allow_closed : bool).
Hypothesis Hnonneg : nonneg_costs EG.

Lemma route_tt_loop_le u rest acc acc' :
  (acc <= acc')%Q ->
  (route_tt_loop EG u rest acc <= route_tt_loop EG u rest acc')%Q.
Proof.
  revert u acc acc'. induction rest as [|v rest IH]; intros u acc acc' H;
    simpl; [done|].
  apply IH. lra.
Qed.

Lemma route_tt_loop_ge u rest acc :
  (acc <= route_tt_loop EG u rest acc)%Q.
Proof.
  revert u acc. induction rest as [|v rest IH]; intros u acc; simpl; [lra|].
  destruct Hnonneg as [Htt Htc].
  specialize (IH v (acc + turn_cost EG u v + enode_travel_time EG v)%Q).
  specialize (Htt v). specialize (Htc u v). lra.
Qed.

Lemma route_tt_loop_shift u rest acc d :
  (route_tt_loop EG u rest (acc + d) == route_tt_loop EG u rest acc + d)%Q.
Proof.
  revert u acc. induction rest as [|v rest IH]; intros u acc; simpl; [lra|].
  rewrite <- IH. apply Qle_antisym; apply route_tt_loop_le; lra.
Qed.

End RouteProps.

Section ReachProps.
Variables (EG : edge_graph) (allow_closed : bool) (seeds : list segment).

Lemma reach_passable n c :
  reach EG allow_closed seeds n c -> passable EG allow_closed n.
Proof. by destruct 1. Qed.

(** Along a linked list of segments the accumulated cost of [reach] is the
    one [compute_route_tt] sums. *)
Lemma linked_reach rest u c acc :
  reach EG allow_closed seeds u c -> (c == acc)%Q ->
  linked EG allow_closed u rest ->
  exists t c', last (u :: rest) = Some t /\
    reach EG allow_closed seeds t c' /\
    (c' == route_tt_loop EG u rest acc)%Q.
Proof.
  revert u c acc. induction rest as [|v rest IH]; intros u c acc Hr Hc Hl.
  - exists u, c. by simpl.
  - destruct Hl as (Hv & Ha & Hl).
    destruct (IH v (c + turn_cost EG u v + enode_travel_time EG v)%Q
                (acc + turn_cost EG u v + enode_travel_time EG v)%Q)
      as (t & c' & Hlast & Hr' & Hc'); try done.
    + by apply reach_step.
    + lra.
    + exists t, c'. split; [|done]. by rewrite last_cons_cons.
Qed.

Lemma search_route_reach targets p :
  search_route EG allow_closed seeds targets p ->
  exists t c, t ∈ targets /\ reach EG allow_closed seeds t c /\
    cost_eq (Fin c) (compute_route_tt EG p).
Proof.
  destruct p as [|s rest]; [done|]. intros (Hs & Ha & Hl & t & Hlast & Ht).
  destruct (linked_reach rest s (enode_travel_time EG s)
              (0 + enode_travel_time EG s)%Q)
    as (t' & c' & Hlast' & Hr & Hc); try done.
  - by apply reach_seed.
  - lra.
  - rewrite Hlast in Hlast'. injection Hlast' as <-. by exists t, c'.
Qed.

End ReachProps.

(** ** The invariant of a one-directional search *)

Lemma chain_head prev n p : chain prev n p -> exists p', p = n :: p'.
Proof. destruct 1; eauto. Qed.

Lemma chain_insert prev n p m x :
  chain prev n p -> m ∉ p -> chain (<[m := x]> prev) n p.
Proof.
  induction 1 as [n Hn|n u p Hn Hc IH]; intros Hm.
  - apply chain_root. rewrite lookup_insert_ne; [done|].
    intros ->. apply Hm. by left.
  - apply chain_step with u.
    + rewrite lookup_insert_ne; [done|]. intros ->. apply Hm. by left.
    + apply IH. intros Hu. apply Hm. by right.
Qed.

Lemma prev_chain_chain prev n p fuel :
  chain prev n p -> (length p <= fuel)%nat ->
  prev_chain fuel prev (Some n) = Some p.
Proof.
  intros Hc. revert fuel. induction Hc as [n Hn|n u p Hn Hc IH]; intros fuel.
  - simpl. destruct fuel as [|fuel]; [lia|]. intros _. simpl. rewrite Hn.
    by destruct fuel.
  - simpl. destruct fuel as [|fuel]; [lia|]. intros Hl. simpl.
    rewrite Hn, IH; [done|lia].
Qed.

Section BestFirst.
Variables (EG : edge_graph) (allow_closed : bool).
Variables (seeds targets : list segment) (h : segment -> Q).
Hypothesis Hcons : consistent EG allow_closed targets h.

Local Abbreviation adm := (passable EG allow_closed).
Local Abbreviation Inv := (search_inv EG allow_closed seeds targets h).
Local Abbreviation rch := (reach EG allow_closed seeds).
Local Abbreviation tt := (enode_travel_time EG).
Local Abbreviation tc := (turn_cost EG).
Local Abbreviation relax := (relax_view EG allow_closed).
Local Abbreviation expanding := (expanding_from EG allow_closed seeds h).
Local Abbreviation seeded := (seeded_from EG allow_closed seeds).

Lemma inv_nil_src src src' σ : Inv src [] σ -> Inv src' [] σ.
Proof.
  intros [? ? Hcl ? ? ? ? ? ?]. split; try done.
  intros u v Hu Hv Ha. destruct (Hcl u v Hu Hv Ha) as [[_ H]|H]; [|by right].
  by apply elem_of_nil in H.
Qed.

(** Below the cost of any way to arrive somewhere there is an entry of the
    frontier, unless the place itself is settled at that cost. *)
Lemma frontier src σ n c :
  Inv src [] σ -> rch n c ->
  exists m dm, v_dist σ !! m = Some dm /\ (dm + h m <= c + h n)%Q /\
    (m ∉ v_vis σ \/ m = n).
Proof.
  intros HI. induction 1 as [s Hs Ha|u c v Hr IH Hv Ha].
  - destruct (inv_seed _ _ _ _ _ _ _ _ HI s Hs Ha) as (d & Hd & Hle).
    exists s, d. split; [done|]. split; [lra|by right].
  - destruct IH as (m & dm & Hm & Hle & Hcase).
    pose proof (proj2 Hcons u v Hv Ha) as Hc.
    destruct (decide (m ∈ v_vis σ)) as [Hin|Hout].
    + destruct Hcase as [?| ->]; [done|].
      destruct (inv_closed _ _ _ _ _ _ _ _ HI u v Hin Hv Ha)
        as [[_ H]|(du & dv & Hdu & Hdv & Hrel)].
      { by apply elem_of_nil in H. }
      rewrite Hm in Hdu. injection Hdu as <-.
      exists v, dv. split; [done|]. split; [lra|by right].
    + exists m, dm. split; [done|]. split; [lra|by left].
Qed.

(** The least entry of the heap, when it is a target, is no dearer than any
    way to arrive at a target. *)
Lemma pop_target_optimal src σ g t :
  Inv src [] σ ->
  (forall e, e ∈ v_q σ -> (g + h t <= e.1 + h e.2)%Q) ->
  t ∈ targets ->
  forall t' c', t' ∈ targets -> rch t' c' -> (g <= c')%Q.
Proof.
  intros HI Hmin Ht t' c' Ht' Hr.
  destruct (frontier src σ t' c' HI Hr) as (m & dm & Hm & Hle & Hcase).
  assert (Hout : m ∉ v_vis σ).
  { destruct Hcase as [?| ->]; [done|]. by apply (inv_target _ _ _ _ _ _ _ _ HI). }
  destruct (inv_front _ _ _ _ _ _ _ _ HI m dm Hm) as [?|Hq]; [done|].
  specialize (Hmin _ Hq). simpl in Hmin.
  pose proof (proj1 Hcons t Ht). pose proof (proj1 Hcons t' Ht'). lra.
Qed.

(** With an empty heap no target can be arrived at. *)
Lemma empty_no_route src σ :
  Inv src [] σ -> v_q σ = [] ->
  forall t' c', t' ∈ targets -> rch t' c' -> False.
Proof.
  intros HI Hq t' c' Ht' Hr.
  destruct (frontier src σ t' c' HI Hr) as (m & dm & Hm & Hle & Hcase).
  assert (Hout : m ∉ v_vis σ).
  { destruct Hcase as [?| ->]; [done|]. by apply (inv_target _ _ _ _ _ _ _ _ HI). }
  destruct (inv_front _ _ _ _ _ _ _ _ HI m dm Hm) as [?|Hin]; [done|].
  rewrite Hq in Hin. by apply elem_of_nil in Hin.
Qed.

Lemma elem_of_remove_middle {A} (l1 l2 : list A) (x y : A) :
  y ∈ l1 ++ x :: l2 -> y = x \/ y ∈ l1 ++ l2.
Proof.
  rewrite !elem_of_app, elem_of_cons. tauto.
Qed.

Lemma elem_of_middle_incl {A} (l1 l2 : list A) (x y : A) :
  y ∈ l1 ++ l2 -> y ∈ l1 ++ x :: l2.
Proof.
  rewrite !elem_of_app, elem_of_cons. tauto.
Qed.

(** Dropping an entry that is stale or whose segment is visited. *)
Lemma inv_skip src σ l1 l2 g n :
  Inv src [] σ -> v_q σ = l1 ++ (g, n) :: l2 ->
  (n ∈ v_vis σ \/ exists d, v_dist σ !! n = Some d /\ (d < g)%Q) ->
  Inv src [] (View (l1 ++ l2) (v_dist σ) (v_prev σ) (v_vis σ)).
Proof.
  intros HI Hq Hwhy. destruct HI as [He Hf Hc Hs Hm Ht Hr Hv Hch].
  split; simpl; try done.
  - intros g' n' Hin. apply He. rewrite Hq. by apply elem_of_middle_incl.
  - intros n' d Hd. destruct (Hf n' d Hd) as [?|Hin]; [by left|].
    rewrite Hq in Hin. apply elem_of_remove_middle in Hin as [[= -> ->]|?];
      [|by right].
    destruct Hwhy as [?|(d' & Hd' & Hlt)]; [by left|].
    rewrite Hd in Hd'. injection Hd' as <-. lra.
  - intros u du g' n' Hu Hdu Hin. apply (Hm u du g' n' Hu Hdu).
    rewrite Hq. by apply elem_of_middle_incl.
  - intros g' n' Hin. apply Hr. rewrite Hq. by apply elem_of_middle_incl.
Qed.

Lemma inv_relax_step n g v pending σ :
  Inv n (v :: pending) σ -> expanding n g σ -> v ∈ successors EG n ->
  Inv n pending (relax n g σ v) /\ expanding n g (relax n g σ v) /\
  v_vis (relax n g σ v) = v_vis σ /\
  (length (v_q (relax n g σ v)) <= S (length (v_q σ)))%nat.
Proof.
  intros HI Hex Hv.
  pose proof Hex as (Hn & Hrn & (dn & Hdn & Hgn) & Hm5).
  destruct HI as [He Hf Hc Hs Hm Ht Hr Hvd Hch].
  unfold relax_view.
  destruct (skip_closed EG allow_closed v) eqn:Hskip.
  { split; [|split; [done|split; [done|lia]]].
    split; try done.
    intros u x Hu Hx Ha. destruct (Hc u x Hu Hx Ha) as [[-> Hin]|?];
      [|by right].
    apply elem_of_cons in Hin as [->|?]; [|by left].
    unfold passable in Ha. congruence. }
  assert (Hadm : adm v) by done.
  pose proof (proj2 Hcons n v Hv Hadm) as Hcv.
  set (cand := (g + tc n v + tt v)%Q). cbv zeta.
  destruct (lt_get cand (v_dist σ !! v)) eqn:Hlt.
  2: { apply lt_get_false in Hlt as (dv & Hdv & Hle).
       split; [|split; [done|split; [done|lia]]].
       split; try done.
       intros u x Hu Hx Ha. destruct (Hc u x Hu Hx Ha) as [[-> Hin]|?];
         [|by right].
       apply elem_of_cons in Hin as [->|?]; [|by left].
       right. exists dn, dv. split; [done|]. split; [done|].
       unfold cand in Hle. lra. }
  assert (Hvout : v ∉ v_vis σ).
  { intros Hin. destruct (Hvd v Hin) as [dv Hdv]. rewrite Hdv in Hlt.
    apply lt_get_true in Hlt. specialize (Hm5 v dv Hin Hdv).
    unfold cand in Hlt. lra. }
  assert (Hvn : v <> n) by (intros ->; done).
  assert (Hold : forall dv, v_dist σ !! v = Some dv -> (cand < dv)%Q).
  { intros dv Hdv. rewrite Hdv in Hlt. by apply lt_get_true. }
  split; [|split; [|split; [done|simpl; lia]]].
  - split; simpl.
    + intros g' n' [[= -> ->]|Hin]%elem_of_cons.
      * exists cand. rewrite lookup_insert_eq. split; [done|lra].
      * destruct (He g' n' Hin) as (d & Hd & Hle).
        destruct (decide (n' = v)) as [->|Hne].
        -- exists cand. rewrite lookup_insert_eq. split; [done|].
           specialize (Hold d Hd). lra.
        -- exists d. by rewrite lookup_insert_ne.
    + intros n' d. destruct (decide (n' = v)) as [->|Hne].
      * rewrite lookup_insert_eq. intros [= <-]. right. by left.
      * rewrite lookup_insert_ne by done. intros Hd.
        destruct (Hf n' d Hd) as [?|?]; [by left|right; by right].
    + intros u x Hu Hx Ha. unfold relaxed in *. simpl.
      assert (Huv : u <> v) by (intros ->; done).
      destruct (Hc u x Hu Hx Ha) as [[-> Hin]|(du & dx & Hdu & Hdx & Hle)].
      * apply elem_of_cons in Hin as [->|?]; [|by left].
        right. exists dn, cand. rewrite lookup_insert_ne by done.
        rewrite lookup_insert_eq. split; [done|]. split; [done|].
        unfold cand. lra.
      * right. destruct (decide (x = v)) as [->|Hne].
        -- exists du, cand. rewrite lookup_insert_ne by done.
           rewrite lookup_insert_eq. split; [done|]. split; [done|].
           specialize (Hold dx Hdx). lra.
        -- exists du, dx. by rewrite !lookup_insert_ne.
    + intros s0 Hs0 Ha. destruct (Hs s0 Hs0 Ha) as (d & Hd & Hle).
      destruct (decide (s0 = v)) as [->|Hne].
      * exists cand. rewrite lookup_insert_eq. split; [done|].
        specialize (Hold d Hd). lra.
      * exists d. by rewrite lookup_insert_ne.
    + intros u du g' n' Hu.
      assert (Huv : u <> v) by (intros ->; done).
      rewrite lookup_insert_ne by done.
      intros Hdu [[= -> ->]|Hin]%elem_of_cons.
      * specialize (Hm5 u du Hu Hdu). unfold cand. lra.
      * by apply (Hm u du g' n').
    + done.
    + intros g' n' [[= -> ->]|Hin]%elem_of_cons; [|by apply Hr].
      by apply reach_step.
    + intros u Hu. assert (Huv : u <> v) by (intros ->; done).
      rewrite lookup_insert_ne by done. by apply Hvd.
    + intros n' d. destruct (decide (n' = v)) as [->|Hne].
      * intros _. destruct (Hch n dn Hdn) as (p & Hp & Htail).
        destruct (chain_head _ _ _ Hp) as [p' ->]. simpl in Htail.
        exists (v :: n :: p'). split.
        -- apply chain_step with n; [by rewrite lookup_insert_eq|].
           apply chain_insert; [done|].
           intros [->|Hin]%elem_of_cons; [done|]. by apply Hvout, Htail.
        -- simpl. intros x [->|Hin]%elem_of_cons; [done|]. by apply Htail.
      * rewrite lookup_insert_ne by done. intros Hd.
        destruct (Hch n' d Hd) as (p & Hp & Htail).
        destruct (chain_head _ _ _ Hp) as [p' ->]. simpl in Htail.
        exists (n' :: p'). split; [|done].
        apply chain_insert; [done|].
        intros [->|Hin]%elem_of_cons; [done|]. by apply Hvout, Htail.
  - split; [done|]. split; [done|]. split; simpl.
    + exists dn. by rewrite lookup_insert_ne.
    + intros u du Hu. assert (Huv : u <> v) by (intros ->; done).
      rewrite lookup_insert_ne by done. by apply Hm5.
Qed.

Lemma inv_relax_fold n g pending σ :
  Inv n pending σ -> expanding n g σ ->
  (forall v, v ∈ pending -> v ∈ successors EG n) ->
  Inv n [] (fold_left (relax n g) pending σ) /\
  v_vis (fold_left (relax n g) pending σ) = v_vis σ /\
  (length (v_q (fold_left (relax n g) pending σ))
   <= length (v_q σ) + length pending)%nat.
Proof.
  revert σ. induction pending as [|v pending IH]; intros σ HI Hex Hsub.
  - simpl. split; [done|]. split; [done|lia].
  - simpl.
    destruct (inv_relax_step n g v pending σ HI Hex) as (HI' & Hex' & Hv & Hl).
    { apply Hsub. by left. }
    destruct (IH _ HI' Hex') as (HI'' & Hv' & Hl').
    { intros x Hx. apply Hsub. by right. }
    split; [done|]. split; [congruence|lia].
Qed.

(** Relaxing out of a segment whose transitions are all relaxed, at a cost
    that is not below the settled one, changes nothing. *)
Lemma relax_fold_noop src σ n g dn l σ' :
  Inv src [] σ -> n ∈ v_vis σ -> v_dist σ !! n = Some dn -> (dn <= g)%Q ->
  (forall v, v ∈ l -> v ∈ successors EG n) ->
  v_dist σ' = v_dist σ ->
  fold_left (relax n g) l σ' = σ'.
Proof.
  intros HI Hn Hdn Hle. induction l as [|v l IH]; intros Hsub Hd; [done|].
  simpl. assert (Hstep : relax n g σ' v = σ').
  { unfold relax_view. destruct (skip_closed EG allow_closed v) eqn:Hs; [done|].
    destruct (inv_closed _ _ _ _ _ _ _ _ HI n v Hn) as [[_ H]|H].
    - apply Hsub. by left.
    - done.
    - by apply elem_of_nil in H.
    - destruct H as (du & dv & Hdu & Hdv & Hrel).
      rewrite Hdn in Hdu. injection Hdu as <-.
      rewrite Hd, Hdv. simpl.
      assert (Qltb (g + tc n v + tt v) dv = false) as ->; [|done].
      apply Qltb_ge. lra. }
  rewrite Hstep. apply IH; [|done]. intros x Hx. apply Hsub. by right.
Qed.

Lemma unvisited_edges_split (vis : gset segment) n
  (es : list (segment * segment * option Q)) :
  n ∉ vis ->
  (length (filter (fun e => e.1.1 ∉ {[n]} ∪ vis) es)
   + length (filter (fun e => e.1.1 = n) es)
   = length (filter (fun e => e.1.1 ∉ vis) es))%nat.
Proof.
  intros Hn. induction es as [|e es IH]; [done|].
  rewrite !filter_cons.
  destruct (decide (e.1.1 = n)) as [E|E].
  - rewrite decide_False by set_solver.
    rewrite decide_True by (rewrite E; done). simpl. lia.
  - destruct (decide (e.1.1 ∈ vis)).
    + rewrite decide_False by set_solver.
      rewrite decide_False by set_solver. done.
    + rewrite decide_True by set_solver.
      rewrite decide_True by set_solver. simpl. lia.
Qed.

(** Expanding the least entry of the heap. *)
Lemma inv_expand src σ l1 l2 g n :
  Inv src [] σ -> v_q σ = l1 ++ (g, n) :: l2 ->
  (forall e, e ∈ v_q σ -> (g + h n <= e.1 + h e.2)%Q) ->
  (forall d, v_dist σ !! n = Some d -> (g <= d)%Q) ->
  n ∉ targets ->
  Inv src []
    (fold_left (relax n g) (successors EG n)
       (View (l1 ++ l2) (v_dist σ) (v_prev σ) ({[n]} ∪ v_vis σ))) /\
  (search_measure EG
     (fold_left (relax n g) (successors EG n)
        (View (l1 ++ l2) (v_dist σ) (v_prev σ) ({[n]} ∪ v_vis σ)))
   < search_measure EG σ)%nat.
Proof.
  intros HI Hq Hmin Hfresh Hnt.
  pose proof HI as [He Hf Hc Hs Hm Ht Hr Hvd Hch].
  assert (Hin : (g, n) ∈ v_q σ).
  { rewrite Hq. apply elem_of_app. right. by left. }
  destruct (He g n Hin) as (dn & Hdn & Hdg).
  pose proof (Hfresh dn Hdn) as Hgd.
  set (σ1 := View (l1 ++ l2) (v_dist σ) (v_prev σ) ({[n]} ∪ v_vis σ)).
  assert (HI1 : Inv n (successors EG n) σ1).
  { split; simpl.
    - intros g' n' Hin'. apply He. rewrite Hq. by apply elem_of_middle_incl.
    - intros n' d Hd. destruct (Hf n' d Hd) as [?|Hin'].
      + left. set_solver.
      + rewrite Hq in Hin'.
        apply elem_of_remove_middle in Hin' as [[= -> ->]|?]; [|by right].
        left. set_solver.
    - intros u v Hu Hv Ha. destruct (decide (u = n)) as [->|Hne].
      + by left.
      + right. assert (Hu' : u ∈ v_vis σ) by set_solver.
        destruct (Hc u v Hu' Hv Ha) as [[_ H]|H]; [|done].
        by apply elem_of_nil in H.
    - done.
    - intros u du g' n' Hu Hdu Hin'.
      assert (Hin'' : (g', n') ∈ v_q σ).
      { rewrite Hq. by apply elem_of_middle_incl. }
      destruct (decide (u = n)) as [->|Hne].
      + rewrite Hdn in Hdu. injection Hdu as <-.
        specialize (Hmin _ Hin''). simpl in Hmin. lra.
      + apply (Hm u du g' n'); [set_solver|done|done].
    - intros t Ht0. specialize (Ht t Ht0).
      assert (t <> n) by (intros ->; done). set_solver.
    - intros g' n' Hin'. apply Hr. rewrite Hq. by apply elem_of_middle_incl.
    - intros u Hu. destruct (decide (u = n)) as [->|Hne]; [by eexists|].
      apply Hvd. set_solver.
    - intros n' d Hd. destruct (Hch n' d Hd) as (p & Hp & Htail).
      exists p. split; [done|]. intros x Hx. specialize (Htail x Hx).
      set_solver. }
  assert (Hex : expanding n g σ1).
  { split; [simpl; set_solver|]. split; [by apply Hr|]. split; simpl.
    - by exists dn.
    - intros u du Hu Hdu. destruct (decide (u = n)) as [->|Hne].
      + rewrite Hdn in Hdu. injection Hdu as <-. lra.
      + assert (Hu' : u ∈ v_vis σ) by set_solver.
        apply (Hm u du g n Hu' Hdu Hin). }
  destruct (inv_relax_fold n g (successors EG n) σ1 HI1 Hex)
    as (HI' & Hvis & Hlen); [done|].
  split; [by apply inv_nil_src with n|].
  unfold search_measure.
  destruct (decide (n ∈ v_vis σ)) as [Hnv|Hnv].
  - rewrite (relax_fold_noop src σ n g dn (successors EG n) σ1); try done.
    simpl. replace ({[n]} ∪ v_vis σ) with (v_vis σ) by set_solver.
    rewrite Hq, !length_app. simpl. lia.
  - rewrite Hvis. simpl.
    pose proof (unvisited_edges_split (v_vis σ) n (eg_edges EG) Hnv) as Hsplit.
    rewrite <- length_successors in Hsplit.
    simpl in Hlen. rewrite Hq. rewrite !length_app in *. simpl. lia.
Qed.

Lemma seeded_fold l σ :
  seeded σ -> (forall s, s ∈ l -> s ∈ seeds) ->
  seeded (fold_left (seed_view EG allow_closed) l σ) /\
  (forall s, is_Some (v_dist σ !! s) \/ (s ∈ l /\ adm s) ->
     is_Some (v_dist (fold_left (seed_view EG allow_closed) l σ) !! s)).
Proof.
  revert σ. induction l as [|s l IH]; intros σ HS Hsub.
  - simpl. split; [done|]. intros s [?|[H _]]; [done|].
    by apply elem_of_nil in H.
  - simpl. assert (HS' : seeded (seed_view EG allow_closed σ s)).
    { unfold seed_view. destruct (skip_closed EG allow_closed s) eqn:Hs;
        [done|].
      destruct HS as (Hv & Hq & Hd & Hp). split; [done|]. simpl.
      split; [|split].
      - intros g n [[= -> ->]|Hin]%elem_of_cons.
        + rewrite lookup_insert_eq. repeat split; try done.
          apply Hsub. by left.
        + destruct (Hq g n Hin) as (-> & ? & ? & Hdn).
          repeat split; try done.
          destruct (decide (n = s)) as [->|Hne].
          * by rewrite lookup_insert_eq.
          * by rewrite lookup_insert_ne.
      - intros n d. destruct (decide (n = s)) as [->|Hne].
        + rewrite lookup_insert_eq. intros [= <-]. by left.
        + rewrite lookup_insert_ne by done. intros H. right. by apply Hd.
      - intros n. destruct (decide (n = s)) as [->|Hne].
        + by rewrite lookup_insert_eq.
        + rewrite lookup_insert_ne by done. apply Hp. }
    destruct (IH _ HS') as (HS'' & Hcov).
    { intros x Hx. apply Hsub. by right. }
    split; [done|]. intros x Hx. apply Hcov.
    destruct Hx as [Hx|[[->|Hx]%elem_of_cons Ha]].
    + left. unfold seed_view. destruct (skip_closed EG allow_closed s);
        [done|]. simpl. destruct (decide (x = s)) as [->|Hne].
      * by rewrite lookup_insert_eq.
      * by rewrite lookup_insert_ne.
    + left. unfold seed_view. unfold passable in Ha. rewrite Ha. simpl.
      by rewrite lookup_insert_eq.
    + by right.
Qed.

Lemma inv_init src :
  Inv src [] (fold_left (seed_view EG allow_closed) seeds (View [] ∅ ∅ ∅)).
Proof.
  destruct (seeded_fold seeds (View [] ∅ ∅ ∅)) as ((Hv & Hq & Hd & Hp) & Hcov).
  { split; [done|]. split; [|split]; simpl.
    - intros g n H. by apply elem_of_nil in H.
    - intros n d. by rewrite lookup_empty.
    - intros n. by rewrite lookup_empty. }
  { done. }
  split.
  - intros g n Hin. destruct (Hq g n Hin) as (_ & _ & _ & Hdn).
    exists g. split; [done|lra].
  - intros n d Hdn. right. by apply Hd.
  - intros u v Hu. rewrite Hv in Hu. set_solver.
  - intros s Hs Ha. destruct (Hcov s) as [d Hds]; [right; done|].
    exists d. split; [done|]. destruct (Hq d s (Hd s d Hds)) as (-> & _).
    lra.
  - intros u du g n Hu. rewrite Hv in Hu. set_solver.
  - intros t _. rewrite Hv. set_solver.
  - intros g n Hin. destruct (Hq g n Hin) as (-> & Hs & Ha & _).
    by apply reach_seed.
  - intros u Hu. rewrite Hv in Hu. set_solver.
  - intros n d Hdn. exists [n]. split; [by apply chain_root|].
    simpl. intros x Hx. by apply elem_of_nil in Hx.
Qed.

End BestFirst.

(** ** [dijkstra_route] *)

Lemma consistent_zero EG allow_closed targets :
  nonneg_costs EG -> consistent EG allow_closed targets zero_h.
Proof.
  intros [Htt Htc]. split.
  - intros t _. unfold zero_h. lra.
  - intros u v _ _. unfold zero_h. specialize (Htt v). specialize (Htc u v).
    lra.
Qed.

Section Dijkstra.
Variables (EG : edge_graph) (allow_closed : bool) (max_visits : option Z).
Variables (seeds targets : list segment).
Hypothesis Hnonneg : nonneg_costs EG.

Local Abbreviation Inv :=
  (search_inv EG allow_closed seeds targets zero_h (0, 0, 0)%Z []).
Local Abbreviation loop :=
  (dijkstra_loop EG allow_closed max_visits targets).
Local Abbreviation good :=
  (loop_result_ok EG allow_closed max_visits seeds targets).

Lemma view_d_relax n g st v :
  view_d (dijkstra_relax EG allow_closed n g st v)
  = relax_view EG allow_closed n g (view_d st) v.
Proof.
  unfold dijkstra_relax, relax_view, view_d. simpl.
  destruct (skip_closed EG allow_closed v); [done|].
  by destruct (lt_get _ _).
Qed.

Lemma view_d_relax_fold n g l st :
  view_d (fold_left (dijkstra_relax EG allow_closed n g) l st)
  = fold_left (relax_view EG allow_closed n g) l (view_d st).
Proof.
  revert st. induction l as [|v l IH]; intros st; [done|].
  simpl. by rewrite IH, view_d_relax.
Qed.

Lemma view_d_seed_fold l st :
  view_d (fold_left (dijkstra_seed EG allow_closed) l st)
  = fold_left (seed_view EG allow_closed) l (view_d st).
Proof.
  revert st. induction l as [|v l IH]; intros st; [done|].
  simpl. rewrite IH. f_equal. unfold dijkstra_seed, seed_view, view_d.
  by destruct (skip_closed EG allow_closed v).
Qed.

Lemma dijkstra_init_inv : Inv (view_d (dijkstra_init EG allow_closed seeds)).
Proof.
  unfold dijkstra_init. rewrite view_d_seed_fold. apply inv_init.
  by apply consistent_zero.
Qed.

(** One turn of the loop either ends it, well, or leads to a state that
    keeps the invariant and has less left to do. *)
Lemma dijkstra_turn st :
  Inv (view_d st) ->
  (exists r, good (d_prev r.1) r.2 /\
     forall fuel, loop (S fuel) st = Some r) \/
  (exists st1, Inv (view_d st1) /\
     (search_measure EG (view_d st1) < search_measure EG (view_d st))%nat /\
     forall fuel, loop (S fuel) st = loop fuel st1).
Proof.
  intros HI.
  pose proof (consistent_zero EG allow_closed targets Hnonneg) as Hcons.
  destruct (heappop entry_le (d_pq st)) as [[[c n] pq]|] eqn:Hpop.
  2: { left. exists (st, None). split.
       - simpl. intros _ t' c' Ht' Hr. apply heappop_None in Hpop.
         by apply (empty_no_route EG allow_closed seeds targets zero_h Hcons
                     _ _ HI Hpop t' c').
       - intros fuel. simpl. by rewrite Hpop. }
  destruct (heappop_split _ _ _ _ Hpop) as (l1 & l2 & Hq & ->).
  pose proof (heappop_least entry_le fst _ _ _ entry_le_key
                entry_le_key_false Hpop) as Hleast.
  assert (Hmin : forall e, e ∈ v_q (view_d st) ->
                   (c + zero_h n <= e.1 + zero_h e.2)%Q).
  { intros e He. specialize (Hleast e He). unfold zero_h. simpl in *. lra. }
  set (st0 := DState (l1 ++ l2) (d_dist st) (d_prev st) (d_expanded st)
                (d_visited st)).
  destruct (cap_reached max_visits (d_expanded st)) eqn:Hcap.
  { left. exists (st0, None). split.
    - simpl. intros ->. done.
    - intros fuel. simpl. rewrite Hpop. simpl. by rewrite Hcap. }
  destruct (gt_get c (d_dist st !! n)) eqn:Hstale.
  { right. exists st0. split; [|split].
    - apply (inv_skip EG allow_closed seeds targets zero_h _ (view_d st)
               l1 l2 c n HI Hq).
      right. by apply gt_get_true.
    - unfold search_measure. simpl. rewrite Hq, !length_app. simpl. lia.
    - intros fuel. simpl. rewrite Hpop. simpl. by rewrite Hcap, Hstale. }
  assert (Hin : (c, n) ∈ d_pq st).
  { rewrite Hq. apply elem_of_app. right. by left. }
  destruct (inv_entry _ _ _ _ _ _ _ _ HI c n Hin) as (dn & Hdn & Hle).
  destruct (bool_decide (n ∈ targets)) eqn:Htgt.
  { left.
    exists (DState (l1 ++ l2) (d_dist st) (d_prev st) (d_expanded st + 1)
              (d_visited st), Some (n, c)).
    split.
    - simpl. apply bool_decide_eq_true in Htgt. split; [done|]. split.
      + by apply (inv_reach _ _ _ _ _ _ _ _ HI).
      + split.
        * by apply (pop_target_optimal EG allow_closed seeds targets zero_h
                      Hcons _ (view_d st) c n HI Hmin).
        * destruct (inv_chain _ _ _ _ _ _ _ _ HI n dn Hdn) as (p & Hp & _).
          by exists p.
    - intros fuel. simpl. rewrite Hpop. simpl.
      by rewrite Hcap, Hstale, Htgt. }
  destruct (inv_expand EG allow_closed seeds targets zero_h Hcons _
              (view_d st) l1 l2 c n HI Hq Hmin) as (HI' & Hlt).
  { intros d Hd. simpl in Hd. rewrite Hd in Hstale.
    by apply gt_get_false. }
  { by apply bool_decide_eq_false in Htgt. }
  right.
  exists (fold_left (dijkstra_relax EG allow_closed n c) (successors EG n)
            (DState (l1 ++ l2) (d_dist st) (d_prev st) (d_expanded st + 1)
               ({[n]} ∪ d_visited st))).
  split; [|split].
  - rewrite view_d_relax_fold. exact HI'.
  - rewrite view_d_relax_fold. exact Hlt.
  - intros fuel. simpl. rewrite Hpop. simpl.
    by rewrite Hcap, Hstale, Htgt.
Qed.

Lemma dijkstra_loop_spec fuel st r :
  Inv (view_d st) -> loop fuel st = Some r -> good (d_prev r.1) r.2.
Proof.
  revert st. induction fuel as [|fuel IH]; intros st HI; [done|].
  destruct (dijkstra_turn st HI) as [(r' & Hg & E)|(st1 & HI1 & _ & E)].
  - rewrite E. by intros [= <-].
  - rewrite E. by apply IH.
Qed.

Lemma dijkstra_loop_total fuel st :
  Inv (view_d st) ->
  (search_measure EG (view_d st) < fuel)%nat ->
  exists r, loop fuel st = Some r.
Proof.
  revert st. induction fuel as [|fuel IH]; intros st HI Hlt; [lia|].
  destruct (dijkstra_turn st HI) as [(r' & Hg & E)|(st1 & HI1 & Hm & E)].
  - rewrite E. by eexists.
  - rewrite E. apply IH; [done|lia].
Qed.

End Dijkstra.

Lemma dijkstra_loop_mono EG allow_closed max_visits targets fuel fuel' st r :
  dijkstra_loop EG allow_closed max_visits targets fuel st = Some r ->
  (fuel <= fuel')%nat ->
  dijkstra_loop EG allow_closed max_visits targets fuel' st = Some r.
Proof.
  revert fuel' st. induction fuel as [|fuel IH]; intros fuel' st; [done|].
  destruct fuel' as [|fuel']; [lia|]. intros H Hle. simpl in *.
  destruct (heappop entry_le (d_pq st)) as [[[c n] pq]|]; [|done].
  simpl in *.
  destruct (cap_reached max_visits (d_expanded st)); [done|].
  destruct (gt_get c (d_dist st !! n)); [apply IH; [done|lia]|].
  destruct (bool_decide (n ∈ targets)); [done|].
  apply IH; [done|lia].
Qed.

(** ** [astar_route] *)

Section AStar.
Variables (EG : edge_graph) (allow_closed : bool) (max_visits : option Z).
Variables (seeds targets : list segment) (h : segment -> Q).
Hypothesis Hcons : consistent EG allow_closed targets h.

Local Abbreviation Inv :=
  (search_inv EG allow_closed seeds targets h (0, 0, 0)%Z []).
Local Abbreviation loop :=
  (astar_loop EG allow_closed max_visits targets h).
Local Abbreviation good :=
  (loop_result_ok EG allow_closed max_visits seeds targets).
Local Abbreviation keyed := (keyed_by h).

Lemma view_a_relax n g st v :
  keyed (a_heap st) ->
  view_a (astar_relax EG allow_closed h n g st v)
  = relax_view EG allow_closed n g (view_a st) v /\
  keyed (a_heap (astar_relax EG allow_closed h n g st v)).
Proof.
  intros Hk. unfold astar_relax, relax_view, view_a. simpl.
  destruct (skip_closed EG allow_closed v); [done|].
  destruct (lt_get _ _); [|done]. simpl. split; [done|].
  intros e [->|He]%elem_of_cons; [done|]. by apply Hk.
Qed.

Lemma view_a_relax_fold n g l st :
  keyed (a_heap st) ->
  view_a (fold_left (astar_relax EG allow_closed h n g) l st)
  = fold_left (relax_view EG allow_closed n g) l (view_a st) /\
  keyed (a_heap (fold_left (astar_relax EG allow_closed h n g) l st)).
Proof.
  revert st. induction l as [|v l IH]; intros st Hk; [done|].
  simpl. destruct (view_a_relax n g st v Hk) as (E & Hk').
  destruct (IH _ Hk') as (E' & Hk''). by rewrite E', E.
Qed.

Lemma view_a_seed_fold l st :
  keyed (a_heap st) ->
  view_a (fold_left (astar_seed EG allow_closed h) l st)
  = fold_left (seed_view EG allow_closed) l (view_a st) /\
  keyed (a_heap (fold_left (astar_seed EG allow_closed h) l st)).
Proof.
  revert st. induction l as [|v l IH]; intros st Hk; [done|].
  simpl.
  assert (view_a (astar_seed EG allow_closed h st v)
          = seed_view EG allow_closed (view_a st) v /\
          keyed (a_heap (astar_seed EG allow_closed h st v))) as (E & Hk').
  { unfold astar_seed, seed_view, view_a.
    destruct (skip_closed EG allow_closed v); [done|]. simpl.
    split; [done|]. intros e [->|He]%elem_of_cons; [done|]. by apply Hk. }
  destruct (IH _ Hk') as (E' & Hk''). by rewrite E', E.
Qed.

Lemma astar_init_inv :
  Inv (view_a (astar_init EG allow_closed h seeds)) /\
  keyed (a_heap (astar_init EG allow_closed h seeds)).
Proof.
  unfold astar_init.
  destruct (view_a_seed_fold seeds (AState [] ∅ ∅ 0 ∅)) as (E & Hk).
  { intros e He. by apply elem_of_nil in He. }
  rewrite E. split; [|done]. by apply inv_init.
Qed.

Lemma astar_turn st :
  Inv (view_a st) -> keyed (a_heap st) ->
  (exists r, good (a_prev r.1) r.2 /\
     forall fuel, loop (S fuel) st = Some r) \/
  (exists st1, Inv (view_a st1) /\ keyed (a_heap st1) /\
     (search_measure EG (view_a st1) < search_measure EG (view_a st))%nat /\
     forall fuel, loop (S fuel) st = loop fuel st1).
Proof.
  intros HI Hk.
  destruct (heappop entry3_le (a_heap st)) as [[[[f g] n] heap]|] eqn:Hpop.
  2: { left. exists (st, None). split.
       - simpl. intros _ t' c' Ht' Hr. apply heappop_None in Hpop.
         apply (empty_no_route EG allow_closed seeds targets h Hcons
                  _ _ HI) with t' c'; try done.
         simpl. by rewrite Hpop.
       - intros fuel. simpl. by rewrite Hpop. }
  destruct (heappop_split _ _ _ _ Hpop) as (l1 & l2 & Hq & ->).
  pose proof (heappop_least entry3_le (fun e => e.1.1) _ _ _ entry3_le_key
                entry3_le_key_false Hpop) as Hleast.
  set (pr := fun e : Q * Q * segment => (e.1.2, e.2)).
  assert (Hq' : v_q (view_a st) = map pr l1 ++ (g, n) :: map pr l2).
  { simpl. by rewrite Hq, map_app. }
  assert (Hkn : f = (g + h n)%Q).
  { apply (Hk (f, g, n)). rewrite Hq. apply elem_of_app. right. by left. }
  assert (Hmin : forall e, e ∈ v_q (view_a st) ->
                   (g + h n <= e.1 + h e.2)%Q).
  { intros e He. simpl in He. apply list_elem_of_fmap in He as (e3 & -> & He3).
    specialize (Hleast e3 He3). simpl in Hleast.
    rewrite (Hk e3 He3), Hkn in Hleast. done. }
  assert (Hk' : keyed (l1 ++ l2)).
  { intros e He. apply Hk. rewrite Hq. by apply elem_of_middle_incl. }
  set (st0 := AState (l1 ++ l2) (a_gscore st) (a_prev st) (a_expanded st)
                (a_visited st)).
  assert (Hv0 : view_a st0
                = View (map pr l1 ++ map pr l2) (v_dist (view_a st))
                    (v_prev (view_a st)) (v_vis (view_a st))).
  { unfold view_a. simpl. by rewrite map_app. }
  destruct (cap_reached max_visits (a_expanded st)) eqn:Hcap.
  { left. exists (st0, None). split.
    - simpl. intros ->. done.
    - intros fuel. simpl. rewrite Hpop. simpl. by rewrite Hcap. }
  destruct (bool_decide (n ∈ a_visited st)) eqn:Hvisb.
  { apply bool_decide_eq_true in Hvisb as Hvis. right. exists st0.
    split; [|split; [done|split]].
    - rewrite Hv0.
      apply (inv_skip EG allow_closed seeds targets h _ (view_a st)
               (map pr l1) (map pr l2) g n HI Hq').
      by left.
    - unfold search_measure. rewrite Hv0, Hq'. simpl.
      rewrite !length_app. simpl. lia.
    - intros fuel. simpl. rewrite Hpop. simpl. by rewrite Hcap, Hvisb. }
  apply bool_decide_eq_false in Hvisb as Hvis.
  assert (Hin : (g, n) ∈ v_q (view_a st)).
  { rewrite Hq'. apply elem_of_app. right. by left. }
  destruct (inv_entry _ _ _ _ _ _ _ _ HI g n Hin) as (dn & Hdn & Hle).
  assert (Hfresh : gt_get g (a_gscore st !! n) = false).
  { simpl in Hdn. rewrite Hdn. simpl. apply Qltb_ge.
    destruct (inv_front _ _ _ _ _ _ _ _ HI n dn Hdn) as [?|Hfr]; [done|].
    specialize (Hmin _ Hfr). simpl in Hmin. lra. }
  destruct (bool_decide (n ∈ targets)) eqn:Htgt.
  { left.
    exists (AState (l1 ++ l2) (a_gscore st) (a_prev st) (a_expanded st + 1)
              ({[n]} ∪ a_visited st), Some (n, g)).
    split.
    - simpl. apply bool_decide_eq_true in Htgt. split; [done|]. split.
      + by apply (inv_reach _ _ _ _ _ _ _ _ HI).
      + split.
        * by apply (pop_target_optimal EG allow_closed seeds targets h
                      Hcons _ (view_a st) g n HI Hmin).
        * destruct (inv_chain _ _ _ _ _ _ _ _ HI n dn Hdn) as (p & Hp & _).
          by exists p.
    - intros fuel. simpl. rewrite Hpop. simpl.
      rewrite Hcap, Hvisb. simpl.
      by rewrite Hfresh, Htgt. }
  destruct (inv_expand EG allow_closed seeds targets h Hcons _
              (view_a st) (map pr l1) (map pr l2) g n HI Hq' Hmin)
    as (HI' & Hlt).
  { intros d Hd. simpl in Hd. rewrite Hd in Hfresh.
    by apply gt_get_false. }
  { by apply bool_decide_eq_false in Htgt. }
  set (st1 := AState (l1 ++ l2) (a_gscore st) (a_prev st) (a_expanded st + 1)
                ({[n]} ∪ a_visited st)).
  destruct (view_a_relax_fold n g (successors EG n) st1 Hk') as (E & Hk'').
  assert (Hv1 : view_a st1
                = View (map pr l1 ++ map pr l2) (v_dist (view_a st))
                    (v_prev (view_a st)) ({[n]} ∪ v_vis (view_a st))).
  { unfold view_a. simpl. by rewrite map_app. }
  right.
  exists (fold_left (astar_relax EG allow_closed h n g) (successors EG n) st1).
  split; [|split; [done|split]].
  - rewrite E, Hv1. exact HI'.
  - rewrite E, Hv1. exact Hlt.
  - intros fuel. simpl. rewrite Hpop. simpl.
    rewrite Hcap, Hvisb. simpl.
    by rewrite Hfresh, Htgt.
Qed.

Lemma astar_loop_spec fuel st r :
  Inv (view_a st) -> keyed (a_heap st) -> loop fuel st = Some r ->
  good (a_prev r.1) r.2.
Proof.
  revert st. induction fuel as [|fuel IH]; intros st HI Hk; [done|].
  destruct (astar_turn st HI Hk) as [(r' & Hg & E)|(st1 & HI1 & Hk1 & _ & E)].
  - rewrite E. by intros [= <-].
  - rewrite E. by apply IH.
Qed.

Lemma astar_loop_total fuel st :
  Inv (view_a st) -> keyed (a_heap st) ->
  (search_measure EG (view_a st) < fuel)%nat ->
  exists r, loop fuel st = Some r.
Proof.
  revert st. induction fuel as [|fuel IH]; intros st HI Hk Hlt; [lia|].
  destruct (astar_turn st HI Hk)
    as [(r' & Hg & E)|(st1 & HI1 & Hk1 & Hm & E)].
  - rewrite E. by eexists.
  - rewrite E. apply IH; [done|done|lia].
Qed.

End AStar.

Lemma astar_loop_mono EG allow_closed max_visits targets h fuel fuel' st r :
  astar_loop EG allow_closed max_visits targets h fuel st = Some r ->
  (fuel <= fuel')%nat ->
  astar_loop EG allow_closed max_visits targets h fuel' st = Some r.
Proof.
  revert fuel' st. induction fuel as [|fuel IH]; intros fuel' st; [done|].
  destruct fuel' as [|fuel']; [lia|]. intros H Hle. simpl in *.
  destruct (heappop entry3_le (a_heap st)) as [[[[f g] n] heap]|]; [|done].
  simpl in *.
  destruct (cap_reached max_visits (a_expanded st)); [done|].
  destruct (bool_decide (n ∈ a_visited st)); [apply IH; [done|lia]|].
  destruct (gt_get g (a_gscore st !! n)); [apply IH; [done|lia]|].
  destruct (bool_decide (n ∈ targets)); [done|].
  apply IH; [done|lia].
Qed.

(** ** The searches as wholes *)

Lemma search_result_Ret fuel prev expanded best r :
  search_result fuel prev expanded best = Ret r ->
  r_cost r = match best with Some (_, c) => Fin c | None => Inf end /\
  (route_enodes r = None <-> best = None).
Proof.
  unfold search_result. destruct best as [[t c]|].
  - intros H. inv_bind H. injection H as <-. simpl. split; [done|].
    split; discriminate.
  - intros [= <-]. done.
Qed.

Lemma search_result_returns fuel prev expanded best :
  (forall t c, best = Some (t, c) ->
     exists p, chain prev t p /\ (length p <= fuel)%nat) ->
  exists r, search_result fuel prev expanded best = Ret r.
Proof.
  intros H. unfold search_result. destruct best as [[t c]|]; [|by eexists].
  destruct (H t c eq_refl) as (p & Hp & Hl).
  rewrite (prev_chain_chain _ _ _ _ Hp Hl). simpl. by eexists.
Qed.

Section Wholes.
Context `{RT : PyRuntime}.

Lemma dijkstra_route_spec fuel EG s t constraints allow_closed max_visits
  starts tgts r :
  nonneg_costs EG ->
  search_endpoints EG s t constraints = Ret (Some (starts, tgts)) ->
  dijkstra_route fuel EG s t constraints allow_closed max_visits = Ret r ->
  exists prev res,
    loop_result_ok EG allow_closed max_visits starts tgts prev res /\
    r_cost r = match res with Some (_, c) => Fin c | None => Inf end /\
    (route_enodes r = None <-> res = None).
Proof.
  intros Hnn Hends. unfold dijkstra_route, dijkstra_search. rewrite Hends.
  simpl. intros H. inv_bind H.
  destruct (dijkstra_loop _ _ _ _ _ _) as [r0|] eqn:Hloop; [|done].
  injection Ha as <-.
  exists (d_prev r0.1), r0.2. split.
  - apply (dijkstra_loop_spec EG allow_closed max_visits starts tgts Hnn
             fuel (dijkstra_init EG allow_closed starts) r0); [|done].
    by apply dijkstra_init_inv.
  - by apply search_result_Ret in H.
Qed.

Lemma dijkstra_route_returns EG s t constraints allow_closed max_visits ends :
  nonneg_costs EG ->
  search_endpoints EG s t constraints = Ret ends ->
  exists fuel0, forall fuel, (fuel0 <= fuel)%nat ->
    exists r,
      dijkstra_route fuel EG s t constraints allow_closed max_visits = Ret r.
Proof.
  intros Hnn Hends. unfold dijkstra_route, dijkstra_search. rewrite Hends.
  simpl. destruct ends as [[starts tgts]|]; [|exists 0%nat; by eexists].
  set (st := dijkstra_init EG allow_closed starts).
  pose proof (dijkstra_init_inv EG allow_closed starts tgts Hnn) as HI.
  fold st in HI.
  destruct (dijkstra_loop_total EG allow_closed max_visits starts tgts Hnn
              (S (search_measure EG (view_d st))) st HI) as [r0 Hr0]; [lia|].
  pose proof (dijkstra_loop_spec EG allow_closed max_visits starts tgts Hnn
                _ _ r0 HI Hr0) as Hgood.
  assert (exists k, forall t c, r0.2 = Some (t, c) ->
            exists p, chain (d_prev r0.1) t p /\ (length p <= k)%nat)
    as [k Hk].
  { destruct r0 as [st' [[t' c]|]]; simpl in *.
    - destruct Hgood as (_ & _ & _ & p & Hp). exists (length p).
      intros t'' c' [= <- <-]. by exists p.
    - exists 0%nat. done. }
  exists (S (search_measure EG (view_d st)) + k)%nat. intros fuel Hfuel.
  rewrite (dijkstra_loop_mono _ _ _ _ _ fuel _ _ Hr0) by lia. simpl.
  apply search_result_returns. intros t' c E.
  destruct (Hk t' c E) as (p & Hp & Hl). exists p. split; [done|lia].
Qed.

Lemma astar_route_spec fuel EG s t constraints vmax_mps allow_closed
  max_visits starts sample tgts r :
  ~ (vmax_mps == 0)%Q ->
  search_endpoints EG s t constraints = Ret (Some (starts, sample :: tgts)) ->
  consistent EG allow_closed (sample :: tgts)
    (heuristic EG (v_x (node_data EG sample)) (v_y (node_data EG sample))
       vmax_mps) ->
  astar_route fuel EG s t constraints vmax_mps allow_closed max_visits
  = Ret r ->
  exists prev res,
    loop_result_ok EG allow_closed max_visits starts (sample :: tgts) prev
      res /\
    r_cost r = match res with Some (_, c) => Fin c | None => Inf end /\
    (route_enodes r = None <-> res = None).
Proof.
  intros Hv Hends Hcons. unfold astar_route, astar_search. rewrite Hends.
  simpl.
  assert (Qeq_bool vmax_mps 0 = false) as ->.
  { apply not_true_iff_false. by rewrite Qeq_bool_iff. }
  simpl. intros H. inv_bind H.
  destruct (astar_loop _ _ _ _ _ _ _) as [r0|] eqn:Hloop; [|done].
  injection Ha as <-.
  exists (a_prev r0.1), r0.2. split.
  - destruct (astar_init_inv EG allow_closed starts (sample :: tgts) _ Hcons)
      as (HI & Hk).
    by apply (astar_loop_spec EG allow_closed max_visits starts
                (sample :: tgts) _ Hcons fuel _ r0 HI Hk).
  - by apply search_result_Ret in H.
Qed.

Lemma astar_route_returns EG s t constraints vmax_mps allow_closed max_visits
  starts sample tgts :
  ~ (vmax_mps == 0)%Q ->
  search_endpoints EG s t constraints = Ret (Some (starts, sample :: tgts)) ->
  consistent EG allow_closed (sample :: tgts)
    (heuristic EG (v_x (node_data EG sample)) (v_y (node_data EG sample))
       vmax_mps) ->
  exists fuel0, forall fuel, (fuel0 <= fuel)%nat ->
    exists r,
      astar_route fuel EG s t constraints vmax_mps allow_closed max_visits
      = Ret r.
Proof.
  intros Hv Hends Hcons. unfold astar_route, astar_search. rewrite Hends.
  simpl.
  assert (Qeq_bool vmax_mps 0 = false) as ->.
  { apply not_true_iff_false. by rewrite Qeq_bool_iff. }
  simpl.
  set (h := heuristic EG (v_x (node_data EG sample))
              (v_y (node_data EG sample)) vmax_mps) in *.
  set (st := astar_init EG allow_closed h starts).
  destruct (astar_init_inv EG allow_closed starts (sample :: tgts) h Hcons)
    as (HI & Hk).
  fold st in HI, Hk.
  destruct (astar_loop_total EG allow_closed max_visits starts
              (sample :: tgts) h Hcons
              (S (search_measure EG (view_a st))) st HI Hk) as [r0 Hr0];
    [lia|].
  pose proof (astar_loop_spec EG allow_closed max_visits starts
                (sample :: tgts) h Hcons _ _ r0 HI Hk Hr0) as Hgood.
  assert (exists k, forall t c, r0.2 = Some (t, c) ->
            exists p, chain (a_prev r0.1) t p /\ (length p <= k)%nat)
    as [k Hkk].
  { destruct r0 as [st' [[t' c]|]]; simpl in *.
    - destruct Hgood as (_ & _ & _ & p & Hp). exists (length p).
      intros t'' c' [= <- <-]. by exists p.
    - exists 0%nat. done. }
  exists (S (search_measure EG (view_a st)) + k)%nat. intros fuel Hfuel.
  rewrite (astar_loop_mono _ _ _ _ _ _ fuel _ _ Hr0) by lia. simpl.
  apply search_result_returns. intros t' c E.
  destruct (Hkk t' c E) as (p & Hp & Hl). exists p. split; [done|lia].
Qed.

End Wholes.

(** ** The checks decide what they check *)

Lemma assoc_Some_elem {A} n (l : list (segment * A)) a :
  assoc n l = Some a -> (n, a) ∈ l.
Proof.
  induction l as [|[k b] l IH]; [done|]. simpl.
  destruct (decide (k = n)) as [->|_].
  - intros [= ->]. by left.
  - intros H. right. by apply IH.
Qed.

Lemma edge_attr_Some_elem es a b tc :
  edge_attr es a b = Some tc -> (a, b, tc) ∈ es.
Proof.
  induction es as [|[[x y] c] es IH]; [done|]. simpl.
  destruct (decide (x = a /\ y = b)) as [[-> ->]|_].
  - intros [= ->]. by left.
  - intros H. right. by apply IH.
Qed.

Lemma nonneg_costs_check_sound EG :
  nonneg_costs_check EG = true -> nonneg_costs EG.
Proof.
  unfold nonneg_costs_check. intros [Hn He]%andb_prop.
  rewrite forallb_forall in Hn, He. split.
  - intros n. destruct (assoc n (eg_nodes EG)) as [d|] eqn:E.
    + apply assoc_Some_elem, list_elem_of_In in E.
      apply Hn in E. by apply Qle_bool_iff in E.
    + unfold enode_travel_time, node_data. rewrite E. simpl. lra.
  - intros u v. unfold turn_cost.
    destruct (edge_attr (eg_edges EG) u v) as [[tc|]|] eqn:E; try lra.
    apply edge_attr_Some_elem, list_elem_of_In in E.
    apply He in E. by apply Qle_bool_iff in E.
Qed.

Lemma consistent_check_sound EG allow_closed targets h :
  consistent_check EG allow_closed targets h = true ->
  consistent EG allow_closed targets h.
Proof.
  unfold consistent_check. intros [Ht He]%andb_prop.
  rewrite forallb_forall in Ht, He. split.
  - intros t Hin. apply list_elem_of_In in Hin. apply Ht in Hin.
    by apply Qeq_bool_iff.
  - intros u v Hv Ha. unfold successors in Hv.
    apply list_elem_of_fmap in Hv as (e & -> & [<- Hin]%list_elem_of_filter).
    apply list_elem_of_In in Hin. apply He in Hin.
    apply orb_prop in Hin as [Hs|Hle].
    + unfold passable in Ha. congruence.
    + by apply Qle_bool_iff.
Qed.

(** ** Uniform-cost search is optimal among the routes it can take *)

Section Optimality.
Context `{RT : PyRuntime}.

(** C4, amended: with non-negative travel times and turn costs, the cost of
    a route returned by [dijkstra_route] is at most the cost of every route
    the search can take from the start set to the target set: a route whose
    segments all get past the closed-segment filter (every route when
    [allow_closed] is set). *)
Theorem dijkstra_route_minimal fuel EG s t constraints allow_closed
  max_visits r path starts tgts p :
  nonneg_costs EG ->
  dijkstra_route fuel EG s t constraints allow_closed max_visits = Ret r ->
  route_enodes r = Some path ->
  search_endpoints EG s t constraints = Ret (Some (starts, tgts)) ->
  search_route EG allow_closed starts tgts p ->
  cost_le (r_cost r) (compute_route_tt EG p).
Proof.
  intros Hnn Hr Hpath Hends Hp.
  destruct (dijkstra_route_spec fuel EG s t constraints allow_closed
              max_visits starts tgts r Hnn Hends Hr)
    as (prev & res & Hgood & Hcost & Hnone).
  destruct res as [[t0 c]|].
  2: { destruct Hnone as [_ Hn]. rewrite Hn in Hpath; done. }
  destruct Hgood as (_ & _ & Hopt & _).
  destruct (search_route_reach EG allow_closed starts tgts p Hp)
    as (t' & c' & Ht' & Hreach & Hc').
  specialize (Hopt t' c' Ht' Hreach). rewrite Hcost.
  destruct (compute_route_tt EG p) as [x|]; simpl in *; [lra|done].
Qed.


End Optimality.

(** C4, the claim as stated fails: on [shortcut_graph], whose costs are
    non-negative, the closed segment [(1,2,0)] alone is a path of cost 1
    from the start set to the target set, and with [allow_closed = False]
    [dijkstra_route] returns the open segment at cost 5. *)
Lemma dijkstra_passes_over_closed_shortcut :
  nonneg_costs shortcut_graph /\
  dijkstra_route (RT := example_runtime) 10 shortcut_graph 1 2 None false None
  = Ret {| route_nodes := Some [1; 2]%Z;
           route_enodes := Some [(1, 2, 1)%Z];
           r_cost := Fin 5; r_expanded := 1 |} /\
  (1, 2, 0)%Z ∈ enodes_from_start shortcut_graph 1 /\
  (1, 2, 0)%Z ∈ target_nodes shortcut_graph 2 /\
  compute_route_tt shortcut_graph [(1, 2, 0)%Z] = Fin 1 /\
  ~ cost_le (Fin 5) (compute_route_tt shortcut_graph [(1, 2, 0)%Z]).
Proof.
  split; [by apply nonneg_costs_check_sound|].
  split; [reflexivity|].
  split; [by apply (bool_decide_unpack _)|].
  split; [by apply (bool_decide_unpack _)|].
  split; [reflexivity|].
  intros H. exact (H eq_refl).
Qed.

Lemma dijkstra_route_minimal_witness :
  cost_le (Fin 14)
    (compute_route_tt detour_graph
       [(1, 2, 0); (2, 4, 0); (4, 5, 0); (5, 6, 0)]%Z).
Proof.
  apply (@dijkstra_route_minimal example_runtime 20 detour_graph 1 6 None
           false None
           {| route_nodes := Some [1; 2; 3; 4; 5; 6]%Z;
              route_enodes :=
                Some [(1, 2, 0); (2, 3, 0); (3, 4, 0); (4, 5, 0);
                      (5, 6, 0)]%Z;
              r_cost := Fin 14; r_expanded := 6 |}
           [(1, 2, 0); (2, 3, 0); (3, 4, 0); (4, 5, 0); (5, 6, 0)]%Z
           [(1, 2, 0)%Z] [(5, 6, 0)%Z]).
  - by apply nonneg_costs_check_sound.
  - reflexivity.
  - reflexivity.
  - reflexivity.
  - repeat split; try (by apply (bool_decide_unpack _)).
    exists (5, 6, 0)%Z. split; [reflexivity|by apply (bool_decide_unpack _)].
Defined.

Lemma detour_graph_coords n :
  n <> (2, 3, 0)%Z ->
  v_x (node_data detour_graph n) = 0%Q /\ v_y (node_data detour_graph n) = 0%Q.
Proof.
  intros Hne. unfold node_data, detour_graph, mk_seg. simpl.
  repeat (case_decide; [subst; simpl; done|]). done.
Qed.



(** ** [bidirectional_astar_route] *)

Section Bidirectional.
Variables (EG : edge_graph) (allow_closed : bool).
Variables (seeds targets : list segment) (hf hb : segment -> Q).
Hypothesis Hnonneg : nonneg_costs EG.

Local Abbreviation rch := (reach EG allow_closed seeds).
Local Abbreviation rchb := (reach_back EG allow_closed targets).
Local Abbreviation BInv := (bidir_inv EG allow_closed seeds targets).

Lemma reach_back_passable n c : rchb n c -> passable EG allow_closed n.
Proof. by destruct 1. Qed.

(** Where the two searches meet, the costs of the two sides add up to the
    cost of a way to a target plus the travel time of the meeting segment,
    which both sides count. *)
Lemma meeting_route m gb :
  rchb m gb -> forall gf, rch m gf ->
  exists t c, t ∈ targets /\ rch t c /\
    (c + enode_travel_time EG m == gf + gb)%Q.
Proof.
  induction 1 as [t Ht Ha|v c u Hb IH Hu Ha]; intros gf Hf.
  - exists t, gf. split; [done|]. split; [done|]. lra.
  - apply predecessors_successors in Hu.
    destruct (IH (gf + turn_cost EG u v + enode_travel_time EG v)%Q)
      as (t & c0 & Ht & Hr & Hc).
    { apply reach_step; try done. by apply reach_back_passable with c. }
    exists t, c0. split; [done|]. split; [done|]. lra.
Qed.

Lemma meeting_bound m gf gb :
  rch m gf -> rchb m gb ->
  exists t c, t ∈ targets /\ rch t c /\ (c <= gf + gb)%Q.
Proof.
  intros Hf Hb. destruct (meeting_route m gb Hb gf Hf) as (t & c & Ht & Hr & Hc).
  exists t, c. split; [done|]. split; [done|].
  pose proof (proj1 Hnonneg m). lra.
Qed.

Lemma bidir_meet_fwd st n g :
  BInv st -> rch n g -> BInv (bidir_meet (g_bwd st) n g st).
Proof.
  intros HI Hr. unfold bidir_meet.
  destruct (g_bwd st !! n) as [g'|] eqn:E; [|done].
  destruct (cost_lt _ _); [|done].
  destruct HI as [H1 H2 H3 H4 H5]. split; simpl; try done.
  intros c [= <-]. apply meeting_bound with n; [done|]. by apply H4.
Qed.

Lemma bidir_meet_bwd st n g :
  BInv st -> rchb n g -> BInv (bidir_meet (g_fwd st) n g st).
Proof.
  intros HI Hr. unfold bidir_meet.
  destruct (g_fwd st !! n) as [g'|] eqn:E; [|done].
  destruct (cost_lt _ _); [|done].
  destruct HI as [H1 H2 H3 H4 H5]. split; simpl; try done.
  intros c [= <-].
  destruct (meeting_bound n g' g) as (t & c' & Ht & Hc & Hle);
    [by apply H2|done|].
  exists t, c'. split; [done|]. split; [done|]. lra.
Qed.

Lemma bidir_relax_fwd_inv n g l st :
  BInv st -> rch n g -> (forall v, v ∈ l -> v ∈ successors EG n) ->
  BInv (fold_left (bidir_relax_fwd EG allow_closed hf n g) l st).
Proof.
  intros HI Hr. revert st HI. induction l as [|v l IH]; intros st HI Hsub;
    [done|].
  simpl. apply IH; [|intros x Hx; apply Hsub; by right].
  unfold bidir_relax_fwd.
  destruct (skip_closed EG allow_closed v) eqn:Hs; [done|].
  destruct (lt_get _ _); [|done].
  assert (Hv : rch v (g + turn_cost EG n v + enode_travel_time EG v)%Q).
  { apply reach_step; try done. apply Hsub. by left. }
  destruct HI as [H1 H2 H3 H4 H5]. split; simpl; try done.
  - intros e [->|He]%elem_of_cons; [done|]. by apply H1.
  - intros x gx. destruct (decide (x = v)) as [->|Hne].
    + rewrite lookup_insert_eq. by intros [= <-].
    + rewrite lookup_insert_ne by done. apply H2.
Qed.

Lemma bidir_relax_bwd_inv n g l st :
  BInv st -> rchb n g -> (forall u, u ∈ l -> u ∈ predecessors EG n) ->
  BInv (fold_left (bidir_relax_bwd EG allow_closed hb n g) l st).
Proof.
  intros HI Hr. revert st HI. induction l as [|u l IH]; intros st HI Hsub;
    [done|].
  simpl. apply IH; [|intros x Hx; apply Hsub; by right].
  unfold bidir_relax_bwd.
  destruct (skip_closed EG allow_closed u) eqn:Hs; [done|].
  destruct (lt_get _ _); [|done].
  assert (Hu : rchb u (g + turn_cost EG u n + enode_travel_time EG u)%Q).
  { apply reach_back_step; try done. apply Hsub. by left. }
  destruct HI as [H1 H2 H3 H4 H5]. split; simpl; try done.
  - intros e [->|He]%elem_of_cons; [done|]. by apply H3.
  - intros x gx. destruct (decide (x = u)) as [->|Hne].
    + rewrite lookup_insert_eq. by intros [= <-].
    + rewrite lookup_insert_ne by done. apply H4.
Qed.

Lemma bidir_seed_fwd_inv l st :
  BInv st -> (forall s, s ∈ l -> s ∈ seeds) ->
  BInv (fold_left (bidir_seed_fwd EG allow_closed hf) l st).
Proof.
  revert st. induction l as [|s l IH]; intros st HI Hsub; [done|].
  simpl. apply IH; [|intros x Hx; apply Hsub; by right].
  unfold bidir_seed_fwd.
  destruct (skip_closed EG allow_closed s) eqn:Hs; [done|].
  assert (Hr : rch s (enode_travel_time EG s)).
  { apply reach_seed; [|done]. apply Hsub. by left. }
  destruct HI as [H1 H2 H3 H4 H5]. split; simpl; try done.
  - intros e [->|He]%elem_of_cons; [done|]. by apply H1.
  - intros x gx. destruct (decide (x = s)) as [->|Hne].
    + rewrite lookup_insert_eq. by intros [= <-].
    + rewrite lookup_insert_ne by done. apply H2.
Qed.

Lemma bidir_seed_bwd_inv l st :
  BInv st -> (forall s, s ∈ l -> s ∈ targets) ->
  BInv (fold_left (bidir_seed_bwd EG allow_closed hb) l st).
Proof.
  revert st. induction l as [|s l IH]; intros st HI Hsub; [done|].
  simpl. apply IH; [|intros x Hx; apply Hsub; by right].
  unfold bidir_seed_bwd.
  destruct (skip_closed EG allow_closed s) eqn:Hs; [done|].
  assert (Hr : rchb s (enode_travel_time EG s)).
  { apply reach_back_target; [|done]. apply Hsub. by left. }
  destruct HI as [H1 H2 H3 H4 H5]. split; simpl; try done.
  - intros e [->|He]%elem_of_cons; [done|]. by apply H3.
  - intros x gx. destruct (decide (x = s)) as [->|Hne].
    + rewrite lookup_insert_eq. by intros [= <-].
    + rewrite lookup_insert_ne by done. apply H4.
Qed.

Lemma bidir_init_inv :
  BInv (bidir_init EG allow_closed hf hb seeds targets).
Proof.
  unfold bidir_init. apply bidir_seed_bwd_inv; [|done].
  apply bidir_seed_fwd_inv; [|done].
  split; simpl; try done; intros e He; by apply elem_of_nil in He.
Qed.

Lemma bidir_pop_fwd_inv st f g n heap :
  BInv st -> heappop entry3_le (open_fwd st) = Some ((f, g, n), heap) ->
  rch n g /\
  BInv (BState heap (open_bwd st) (g_fwd st) (g_bwd st) (prev_fwd st)
          (prev_bwd st) (b_expanded st + 1) (best_cost st) (meeting_node st)).
Proof.
  intros HI Hpop. destruct (heappop_split _ _ _ _ Hpop) as (l1 & l2 & Hq & ->).
  destruct HI as [H1 H2 H3 H4 H5]. split.
  - apply (H1 (f, g, n)). rewrite Hq. apply elem_of_app. right. by left.
  - split; simpl; try done. intros e He. apply H1. rewrite Hq.
    revert He. rewrite !elem_of_app, elem_of_cons. tauto.
Qed.

Lemma bidir_step_bwd_inv st :
  BInv st -> BInv (bidir_step_bwd EG allow_closed hb st).
Proof.
  intros HI. unfold bidir_step_bwd.
  destruct (heappop entry3_le (open_bwd st)) as [[[[f g] n] heap]|] eqn:Hpop;
    [|done].
  destruct (heappop_split _ _ _ _ Hpop) as (l1 & l2 & Hq & ->).
  assert (Hr : rchb n g).
  { apply (bi_open_bwd _ _ _ _ _ HI (f, g, n)). rewrite Hq.
    apply elem_of_app. right. by left. }
  assert (HI' : BInv (BState (open_fwd st) (l1 ++ l2) (g_fwd st) (g_bwd st)
                        (prev_fwd st) (prev_bwd st) (b_expanded st + 1)
                        (best_cost st) (meeting_node st))).
  { destruct HI as [H1 H2 H3 H4 H5]. split; simpl; try done.
    intros e He. apply H3. rewrite Hq.
    revert He. rewrite !elem_of_app, elem_of_cons. tauto. }
  simpl. destruct (gt_get g (g_bwd st !! n)); [done|].
  apply bidir_relax_bwd_inv; [|done|done].
  by apply (bidir_meet_bwd _ n g HI').
Qed.

Lemma bidir_loop_inv max_visits fuel st st' :
  BInv st ->
  bidir_loop EG allow_closed max_visits hf hb fuel st = Some st' ->
  BInv st'.
Proof.
  revert st. induction fuel as [|fuel IH]; intros st HI; [done|].
  simpl. destruct (open_bwd st) as [|eb bwd] eqn:Hb.
  { by intros [= <-]. }
  destruct (heappop entry3_le (open_fwd st)) as [[[[f g] n] heap]|] eqn:Hpop.
  2: { by intros [= <-]. }
  destruct (cap_reached_truthy max_visits (b_expanded st)).
  { by intros [= <-]. }
  destruct (bidir_pop_fwd_inv st f g n heap HI Hpop) as (Hr & HI').
  simpl. rewrite <- Hb.
  destruct (gt_get g (g_fwd st !! n)); [by apply IH|].
  apply IH. apply bidir_step_bwd_inv.
  apply bidir_relax_fwd_inv; [|done|done].
  by apply (bidir_meet_fwd _ n g HI').
Qed.

End Bidirectional.

Section BidirectionalCost.
Context `{RT : PyRuntime}.


End BidirectionalCost.


(** * Further properties *)

(** ** What each relaxation level removes *)

Lemma relax_lookup (base : gmap string pyval) (level : Z)
  (k : string) :
  relax_constraints base level !! k =
  if bool_decide
       ((1 <= level)%Z /\
        (k = "road_type" \/ k = "traffic_multi" \/
         ((2 <= level)%Z /\ k = "min_lanes") \/
         ((3 <= level)%Z /\ k <> "avoid_closed")))
  then None else base !! k.
Proof.
  unfold relax_constraints.
  destruct (Z.eqb_spec level 0) as [->|H0].
  { rewrite bool_decide_eq_false_2; [done|]. intros [? _]. lia. }
  destruct (Z.leb_spec 1 level) as [H1|H1].
  2:{ destruct (Z.leb_spec 2 level); [lia|].
      destruct (Z.leb_spec 3 level); [lia|].
      rewrite bool_decide_eq_false_2; [done|]. intros [? _]. lia. }
  destruct (Z.leb_spec 3 level) as [H3|H3].
  - destruct (Z.leb_spec 2 level) as [H2|H2]; [|lia].
    destruct (decide (k = "avoid_closed")) as [->|Hk].
    + rewrite bool_decide_eq_false_2.
      2:{ intros (_ & [?|[?|[[_ ?]|[_ ?]]]]); done. }
      destruct (base !! "avoid_closed") as [v|] eqn:E.
      * apply map_lookup_filter_Some. split.
        -- by rewrite !lookup_delete_ne.
        -- simpl. unfold keep_keys. set_solver.
      * apply map_lookup_filter_None. left. by rewrite !lookup_delete_ne.
    + rewrite bool_decide_eq_true_2 by (split; [lia|]; do 3 right; done).
      apply map_lookup_filter_None. right. intros x _. simpl.
      unfold keep_keys. by rewrite list_elem_of_singleton.
  - destruct (Z.leb_spec 2 level) as [H2|H2].
    + destruct (decide (k = "min_lanes")) as [->|Hm].
      { rewrite bool_decide_eq_true_2 by (split; [lia|]; right; right; left; done).
        apply lookup_delete_eq. }
      rewrite lookup_delete_ne by done.
      destruct (decide (k = "traffic_multi")) as [->|Ht].
      { rewrite bool_decide_eq_true_2 by (split; [lia|]; right; left; done).
        apply lookup_delete_eq. }
      rewrite lookup_delete_ne by done.
      destruct (decide (k = "road_type")) as [->|Hr].
      { rewrite bool_decide_eq_true_2 by (split; [lia|]; left; done).
        apply lookup_delete_eq. }
      rewrite lookup_delete_ne by done.
      rewrite bool_decide_eq_false_2; [done|].
      intros (_ & [?|[?|[[_ ?]|[? _]]]]); try done. lia.
    + destruct (decide (k = "traffic_multi")) as [->|Ht].
      { rewrite bool_decide_eq_true_2 by (split; [lia|]; right; left; done).
        apply lookup_delete_eq. }
      rewrite lookup_delete_ne by done.
      destruct (decide (k = "road_type")) as [->|Hr].
      { rewrite bool_decide_eq_true_2 by (split; [lia|]; left; done).
        apply lookup_delete_eq. }
      rewrite lookup_delete_ne by done.
      rewrite bool_decide_eq_false_2; [done|].
      intros (_ & [?|[?|[[? _]|[? _]]]]); try done; lia.
Qed.

(** X1: the constraint set of a level, key by key. Level 0 and negative
    levels leave the profile as it is; from level 1 on [road_type] and
    [traffic_multi] are gone, from level 2 on [min_lanes] too, and from
    level 3 on every key but [avoid_closed]; what stays keeps its value. *)
Theorem relax_constraints_lookup (base : gmap string pyval) (level : Z)
  (k : string) :
  relax_constraints base level !! k =
  if bool_decide
       ((1 <= level)%Z /\
        (k = "road_type" \/ k = "traffic_multi" \/
         ((2 <= level)%Z /\ k = "min_lanes") \/
         ((3 <= level)%Z /\ k <> "avoid_closed")))
  then None else base !! k.
Proof. apply relax_lookup. Qed.

(** X2: relaxing further never constrains more: the constraint set of a
    higher level is contained, values included, in the one of every lower
    level, and each of them in the profile. *)
Theorem relax_constraints_antitone (base : gmap string pyval) (l l' : Z) :
  (l <= l')%Z ->
  relax_constraints base l' ⊆ relax_constraints base l /\
  relax_constraints base l ⊆ base.
Proof.
  intros Hl. split; apply map_subseteq_spec; intros k v;
    rewrite !relax_lookup.
  - destruct (bool_decide _) eqn:E'; [discriminate|].
    intros Hv. rewrite bool_decide_eq_false_2; [done|].
    apply bool_decide_eq_false in E'. intros (? & Hc). apply E'.
    split; [lia|]. destruct Hc as [?|[?|[[? ?]|[? ?]]]]; auto.
    + right; right; left. split; [lia|done].
    + do 3 right. split; [lia|done].
  - by destruct (bool_decide _).
Qed.

Lemma relax_constraints_antitone_witness :
  relax_constraints (profile 3 4 1 true 1 []) 2
    ⊆ relax_constraints (profile 3 4 1 true 1 []) 1 /\
  relax_constraints (profile 3 4 1 true 1 []) 1 ⊆ profile 3 4 1 true 1 [].
Proof. apply relax_constraints_antitone. lia. Defined.

Section ValidateRoute.
Context `{RT : PyRuntime}.

Lemma validate_single_edge_shape EG en c b p :
  validate_single_edge EG en c = Ret (b, p) ->
  (b = true /\ exists q, p = Fin q) \/ (b = false /\ p = Inf).
Proof.
  unfold validate_single_edge. intros H.
  inv_bind H. destruct a; [injection H as <- <-; by right|].
  inv_bind H. destruct a; [injection H as <- <-; by right|].
  inv_bind H. destruct a; [injection H as <- <-; by right|].
  inv_bind H. injection H as <- <-. left. eauto.
Qed.

Lemma py_in_yes_values x : exists b, py_in x yes_values = Ret b.
Proof. unfold yes_values, py_in. eauto. Qed.

Lemma validate_route_loop_valid EG route c acc p :
  validate_route_loop EG route c (Fin acc) = Ret (true, p) <->
  exists qs,
    Forall2 (fun en q => validate_single_edge EG en c = Ret (true, Fin q))
      route qs /\
    p = Fin (fold_left Qplus qs acc).
Proof.
  revert acc. induction route as [|en rest IH]; intros acc; simpl.
  - split.
    + intros [= <-]. exists []. split; [constructor|done].
    + intros (qs & HF & ->). by inversion HF.
  - split.
    + intros H. inv_bind H. destruct a as [valid pen].
      destruct valid; [|discriminate].
      destruct (validate_single_edge_shape _ _ _ _ _ Ha) as [[_ [q ->]]|[? _]];
        [|discriminate].
      simpl in H. apply IH in H as (qs & HF & ->).
      exists (q :: qs). split; [by constructor|done].
    + intros (qs & HF & ->). inversion HF as [|? q ? qs' Hen HF']; subst.
      rewrite Hen. simpl. apply IH. eauto.
Qed.

Lemma validate_route_valid EG route c p :
  validate_route EG (Some route) c = Ret (true, p) <->
  route <> [] /\
  exists qs,
    Forall2 (fun en q => validate_single_edge EG en c = Ret (true, Fin q))
      route qs /\
    p = Fin (fold_left Qplus qs 0%Q).
Proof.
  destruct route as [|en rest].
  - simpl. split; [discriminate|]. by intros [? _].
  - unfold validate_route. rewrite validate_route_loop_valid.
    split; [by intros ?|by intros [_ ?]].
Qed.

(** X3: [validate_route] accepts a route exactly when the route is not
    empty and [validate_single_edge] accepts each of its segments; the
    penalty is then the sum of the penalties of the segments, added up from
    0.0 in the order of the route. *)
Theorem validate_route_valid_iff EG route c p :
  validate_route EG (Some route) c = Ret (true, p) <->
  route <> [] /\
  exists qs,
    Forall2 (fun en q => validate_single_edge EG en c = Ret (true, Fin q))
      route qs /\
    p = Fin (fold_left Qplus qs 0%Q).
Proof. apply validate_route_valid. Qed.

(** X4: the first segment that [validate_single_edge] rejects ends the
    validation with [(False, inf)]; the segments after it are not looked
    at. *)
Theorem validate_route_first_rejection EG pre en post c :
  Forall (fun x => exists q, validate_single_edge EG x c = Ret (true, Fin q))
    pre ->
  validate_single_edge EG en c = Ret (false, Inf) ->
  validate_route EG (Some (pre ++ en :: post)) c = Ret (false, Inf).
Proof.
  intros Hpre Hen.
  assert (Hloop : forall acc,
    validate_route_loop EG (pre ++ en :: post) c acc = Ret (false, Inf)).
  { induction Hpre as [|x pre' [q Hx] _ IH]; intros acc; simpl.
    - by rewrite Hen.
    - rewrite Hx. simpl. apply IH. }
  unfold validate_route. destruct (pre ++ en :: post) eqn:E.
  - by destruct pre.
  - apply Hloop.
Qed.

(** From level 3 on the hard limits are gone with the rest: a segment is
    accepted whatever its data, and the penalty is the default 10.0 (the
    profile's own [non_preferred_penalty] is removed as well), added twice
    when [avoid_closed] is set and the segment reads as closed. *)
Lemma validate_single_edge_from_level_3 EG en base level :
  (3 <= level)%Z ->
  validate_single_edge EG en (relax_constraints base level)
  = Ret (true,
         Fin (if truthy (default VNone (base !! "avoid_closed"))
                 && truthy (default (VBool true) (closed (node_data EG en)))
              then 0 + 10 + 10 else 0)%Q).
Proof.
  intros Hl.
  assert (Hno : forall k, k <> "avoid_closed" ->
    relax_constraints base level !! k = None).
  { intros k Hk. rewrite relax_from_3 by done. by rewrite decide_False. }
  assert (Hac : relax_constraints base level !! "avoid_closed"
                = base !! "avoid_closed").
  { rewrite relax_from_3 by done. by rewrite decide_True. }
  unfold validate_single_edge, bridge_rejects, tunnel_rejects, lanes_rejects.
  rewrite !Hno by done.
  destruct (py_in_yes_values (default (VStr "no") (bridge (node_data EG en))))
    as [b1 ->].
  destruct (py_in_yes_values (default (VStr "no") (tunnel (node_data EG en))))
    as [b2 ->].
  destruct b1, b2; simpl;
    unfold soft_penalty, closed_general, closed_keyed, allow_lists,
      allow_list, add_non_preferred;
    rewrite ?(Hno "non_preferred_penalty"), ?(Hno "tunnel"), ?(Hno "bridge"),
      ?(Hno "road_type") by done; rewrite Hac.
  all: destruct (base !! "avoid_closed") as [flag|]; simpl; try done;
    destruct (truthy flag); simpl; try done;
    destruct (truthy _); simpl; done.
Qed.

Lemma validate_route_level_3_valid EG route base level :
  (3 <= level)%Z -> route <> [] ->
  exists p,
    validate_route EG (Some route) (relax_constraints base level)
    = Ret (true, Fin p).
Proof.
  intros Hl Hne.
  eexists. apply validate_route_valid. split; [done|].
  exists (map (fun en =>
            if truthy (default VNone (base !! "avoid_closed"))
               && truthy (default (VBool true) (closed (node_data EG en)))
            then 0 + 10 + 10 else 0)%Q route).
  split; [|done].
  clear Hne. induction route as [|en rest IH]; simpl; constructor; [|done].
  by apply validate_single_edge_from_level_3.
Qed.


Lemma profile_limits vt base :
  VEHICLE_PROFILES !! vt = Some base ->
  exists h w,
    base !! "max_height" = Some (VFloat h) /\
    base !! "max_weight" = Some (VFloat w) /\ (h < 9 # 2)%Q /\ (w < 30)%Q.
Proof.
  unfold VEHICLE_PROFILES. simpl. intros H.
  apply lookup_insert_Some in H as [[_ <-]|[_ H]];
    [|apply lookup_insert_Some in H as [[_ <-]|[_ H]];
      [|apply lookup_insert_Some in H as [[_ <-]|[_ H]]; [|done]]].
  - exists 3%Q, 4%Q. repeat split; reflexivity.
  - exists (7 # 2)%Q, 12%Q. repeat split; reflexivity.
  - exists (5 # 2)%Q, (5 # 2)%Q. repeat split; reflexivity.
Qed.

(** X6: below level 3 each of the three vehicle profiles rejects every
    bridge whose [maxheight] or [maxweight] is not declared and every
    tunnel whose [maxheight] is not declared: the defaults read in their
    place (5.0 and 4.5 metres, 30.0 tonnes) exceed the limits of all three
    profiles. *)
Theorem undeclared_limits_rejected EG en vt base level :
  VEHICLE_PROFILES !! vt = Some base -> (level < 3)%Z ->
  (py_in (default (VStr "no") (bridge (node_data EG en))) yes_values
   = Ret true /\
   (maxheight (node_data EG en) = None \/ maxweight (node_data EG en) = None))
  \/
  (py_in (default (VStr "no") (tunnel (node_data EG en))) yes_values
   = Ret true /\ maxheight (node_data EG en) = None) ->
  validate_single_edge EG en (relax_constraints base level)
  = Ret (false, Inf).
Proof.
  intros Hvt Hl Hcase.
  destruct (profile_limits _ _ Hvt) as (h & w & Hh & Hw & Hh5 & Hw30).
  assert (Hch : relax_constraints base level !! "max_height"
                = Some (VFloat h)).
  { rewrite relax_lookup, bool_decide_eq_false_2; [done|].
    intros (_ & [?|[?|[[_ ?]|[? _]]]]); try done. lia. }
  assert (Hcw : relax_constraints base level !! "max_weight"
                = Some (VFloat w)).
  { rewrite relax_lookup, bool_decide_eq_false_2; [done|].
    intros (_ & [?|[?|[[_ ?]|[? _]]]]); try done. lia. }
  unfold validate_single_edge.
  assert (Hbr : exists b,
    bridge_rejects (node_data EG en) (relax_constraints base level) = Ret b /\
    (py_in (default (VStr "no") (bridge (node_data EG en))) yes_values
     = Ret true ->
     maxheight (node_data EG en) = None \/ maxweight (node_data EG en) = None ->
     b = true)).
  { unfold bridge_rejects.
    destruct (py_in_yes_values
                (default (VStr "no") (bridge (node_data EG en)))) as [b1 ->].
    destruct b1; simpl; [|by eexists].
    rewrite Hch, Hcw. unfold float_gt. simpl.
    destruct (Qltb h _) eqn:Eh; simpl; [by eexists|].
    eexists; split; [done|]. intros _ [Hm|Hm].
    - rewrite Hm in Eh. simpl in Eh. apply Qltb_ge in Eh. lra.
    - rewrite Hm. simpl. apply Qltb_lt. done. }
  destruct Hbr as (b & -> & Hb). simpl.
  destruct b; [done|].
  destruct Hcase as [[Hyes Hm]|[Hyes Hm]].
  - by specialize (Hb Hyes Hm).
  - unfold tunnel_rejects. rewrite Hyes. simpl. rewrite Hch, Hm.
    unfold float_gt. simpl.
    assert (Qltb h (9 # 2) = true) as -> by by apply Qltb_lt.
    done.
Qed.

End ValidateRoute.

Lemma validate_route_first_rejection_witness :
  validate_route (RT := example_runtime) bridge_graph
    (Some ([] ++ (1, 2, 0)%Z :: [(7, 8, 9)%Z])) (height_limit (5 # 2))
  = Ret (false, Inf).
Proof.
  apply (@validate_route_first_rejection example_runtime bridge_graph
           [] (1, 2, 0)%Z [(7, 8, 9)%Z] (height_limit (5 # 2)));
    [constructor|reflexivity].
Defined.


Lemma undeclared_limits_rejected_witness :
  validate_single_edge (RT := example_runtime) plain_bridge_graph (1, 2, 0)%Z
    (relax_constraints
       (profile (7 # 2) 12 2 true 2 ["max_height"; "max_weight"; "max_width"])
       2)
  = Ret (false, Inf).
Proof.
  apply (@undeclared_limits_rejected example_runtime plain_bridge_graph
           (1, 2, 0)%Z "fire_engine"); [reflexivity|lia|].
  left. split; [reflexivity|left; reflexivity].
Defined.

(** ** The choice among the three searches *)

Lemma cost_le_refl a : cost_le a a.
Proof. destruct a; simpl; [lra|done]. Qed.

Lemma cost_le_trans a b c : cost_le a b -> cost_le b c -> cost_le a c.
Proof. destruct a, b, c; simpl; try done. lra. Qed.

Lemma cost_lt_true a b : cost_lt a b = true -> cost_le a b /\ a <> Inf.
Proof.
  destruct a, b; simpl; try done.
  intros H%Qltb_lt. split; [lra|done].
Qed.

Lemma cost_lt_false a b : cost_lt a b = false -> cost_le b a.
Proof. destruct a, b; simpl; try done. by intros H%Qltb_ge. Qed.

Lemma pick_best_fold EG l b c :
  let res := fold_left (pick_best EG) l (b, c) in
  cost_le res.2 c /\
  (forall r', r' ∈ l -> cost_le res.2 (result_time EG r')) /\
  (res = (b, c) \/
   exists r, r ∈ l /\ res = (Some r, result_time EG r) /\
     result_time EG r <> Inf).
Proof.
  revert b c. induction l as [|x l IH]; intros b c; simpl.
  - split; [apply cost_le_refl|]. split; [|by left].
    intros r' Hr'. by apply elem_of_nil in Hr'.
  - assert (Hx : pick_best EG (b, c) x
                 = if cost_lt (result_time EG x) c
                   then (Some x, result_time EG x) else (b, c)) by done.
    rewrite Hx. clear Hx.
    destruct (cost_lt (result_time EG x) c) eqn:E.
    + destruct (IH (Some x) (result_time EG x)) as (H1 & H2 & H3).
      apply cost_lt_true in E as [E1 E2].
      split; [by eapply cost_le_trans|]. split.
      * intros r' [->|Hr']%elem_of_cons; [exact H1|by apply H2].
      * right. destruct H3 as [->|(r & Hr & -> & Hfin)].
        -- exists x. split; [apply list_elem_of_here|done].
        -- exists r. split; [by apply list_elem_of_further|done].
    + destruct (IH b c) as (H1 & H2 & H3).
      apply cost_lt_false in E.
      split; [done|]. split.
      * intros r' [->|Hr']%elem_of_cons; [by eapply cost_le_trans|by apply H2].
      * destruct H3 as [->|(r & Hr & -> & Hfin)]; [by left|].
        right. exists r. split; [by apply list_elem_of_further|done].
Qed.

Section RunSearch.
Context `{RT : PyRuntime}.

Lemma run_search_result fuel EG s t allow_closed res :
  _run_search fuel EG s t allow_closed = Ret res ->
  exists rd ra rb,
    dijkstra_route fuel EG s t None allow_closed None = Ret rd /\
    astar_route fuel EG s t None 30 allow_closed None = Ret ra /\
    bidirectional_astar_route fuel EG s t 30 allow_closed None None
    = Ret rb /\
    match res with
    | Some r =>
        r ∈ [rd; ra; rb] /\
        (exists route, route_enodes r = Some route /\ route <> []) /\
        forall r', r' ∈ [rd; ra; rb] ->
          cost_le (result_time EG r) (result_time EG r')
    | None =>
        forall r', r' ∈ [rd; ra; rb] ->
          route_enodes r' = None \/ route_enodes r' = Some []
    end.
Proof.
  unfold _run_search. intros H.
  inv_bind H. inv_bind H. inv_bind H. injection H as <-.
  exists a, a0, a1. do 3 (split; [done|]).
  pose proof (pick_best_fold EG [a; a0; a1] None Inf) as Hf.
  cbv zeta in Hf.
  destruct (fold_left (pick_best EG) [a; a0; a1] (None, Inf)) as [b c] eqn:E.
  destruct Hf as (_ & H2 & H3). simpl in *.
  destruct H3 as [[= -> ->]|(r & Hr & [= -> ->] & Hfin)]; rewrite E; simpl.
  - intros r' Hr'. specialize (H2 r' Hr'). simpl in H2.
    unfold result_time in H2.
    destruct (route_enodes r') as [[|x l]|]; simpl in *; auto. done.
  - split; [done|]. split; [|done].
    unfold result_time in Hfin.
    destruct (route_enodes r) as [[|x l]|]; simpl in *; try done.
    by eexists.
Qed.

(** X7: [_run_search] returns one of the three results, one whose travel
    time by [compute_route_tt] is finite and no larger than that of the
    other two; it returns [None] only when none of the three holds a
    route. *)
Theorem run_search_picks_fastest fuel EG s t allow_closed res :
  _run_search fuel EG s t allow_closed = Ret res ->
  exists rd ra rb,
    dijkstra_route fuel EG s t None allow_closed None = Ret rd /\
    astar_route fuel EG s t None 30 allow_closed None = Ret ra /\
    bidirectional_astar_route fuel EG s t 30 allow_closed None None
    = Ret rb /\
    match res with
    | Some r =>
        r ∈ [rd; ra; rb] /\
        (exists route, route_enodes r = Some route /\ route <> []) /\
        forall r', r' ∈ [rd; ra; rb] ->
          cost_le (result_time EG r) (result_time EG r')
    | None =>
        forall r', r' ∈ [rd; ra; rb] ->
          route_enodes r' = None \/ route_enodes r' = Some []
    end.
Proof. apply run_search_result. Qed.

(** ** The planner and its last level *)

Lemma level_range_from_3 m :
  (3 <= m)%Z -> exists rest, level_range m = [0; 1; 2]%Z ++ 3%Z :: rest.
Proof.
  intros Hm. unfold level_range.
  assert (Z.to_nat (m + 1) = S (S (S (S (Z.to_nat (m - 3)))))) as -> by lia.
  simpl. eauto.
Qed.

Lemma plan_levels_stops fuel EG s t vt base cl pre l post r :
  (3 <= l)%Z ->
  plan_levels fuel EG s t vt base cl (pre ++ l :: post) = Ret r ->
  exists res route q l',
    _run_search fuel EG s t (truthy cl) = Ret (Some res) /\
    route_enodes res = Some route /\ route <> [] /\
    l' ∈ pre ++ [l] /\
    validate_route EG (Some route) (relax_constraints base l')
    = Ret (true, Fin q) /\
    r = {| p_start_node := s; p_target_node := t;
           p_route_nodes := route_nodes res;
           p_route_enodes := Some route;
           p_cost := Fin q;
           p_expanded_nodes := r_expanded res;
           p_valid := true; p_penalty := Fin q;
           p_total_time := compute_route_tt EG route;
           p_vehicle_type := vt;
           p_relax_level := Some l';
           p_constraints_used := Some (relax_constraints base l') |}.
Proof.
  intros Hl. induction pre as [|l0 pre IH]; simpl; intros H.
  - inv_bind H. destruct a as [res|]; [|discriminate].
    pose proof (run_search_result _ _ _ _ _ _ Ha)
      as (rd & ra & rb & _ & _ & _ & _ & (route & Hroute & Hne) & _).
    destruct (validate_route_level_3_valid EG route base l Hl Hne) as [q Hq].
    rewrite Hroute, Hq in H. simpl in H. injection H as <-.
    exists res, route, q, l. repeat split; try done.
    all: first [apply list_elem_of_here | by rewrite Hroute].
  - inv_bind H. destruct a as [res|]; [|discriminate].
    inv_bind H. destruct a as [valid pen]. destruct valid.
    + injection H as <-.
      pose proof (run_search_result _ _ _ _ _ _ Ha)
        as (rd & ra & rb & _ & _ & _ & _ & (route & Hroute & Hne) & _).
      rewrite Hroute in Ha0.
      assert (exists q, pen = Fin q) as [q ->].
      { apply validate_route_valid in Ha0 as (_ & qs & _ & ->). eauto. }
      exists res, route, q, l0. repeat split; try done.
      all: first [apply list_elem_of_here | by rewrite Hroute].
    + apply IH in H as (res' & route & q & l' & H1 & H2 & H3 & H4 & H5 & H6).
      exists res', route, q, l'. repeat split; try done.
      by apply list_elem_of_further.
Qed.

(** X8: with [max_relax_level] at 3 or more (3 is the default)
    [_plan_route] never returns the infeasible result: whatever it returns
    is valid, at a level from 0 to 3, and carries the route of
    [_run_search] (which is not empty) with the travel time
    [compute_route_tt] gives it and the penalty as cost. *)
Theorem plan_route_never_infeasible fuel EG s t vehicle_type max_relax_level
  r :
  (3 <= max_relax_level)%Z ->
  _plan_route fuel EG s t vehicle_type max_relax_level = Ret r ->
  p_valid r = true /\
  (exists level, p_relax_level r = Some level /\ (0 <= level <= 3)%Z) /\
  (exists res route flag,
     _run_search fuel EG s t flag = Ret (Some res) /\
     p_route_enodes r = Some route /\ route_enodes res = Some route /\
     route <> [] /\ p_total_time r = compute_route_tt EG route) /\
  (exists q, p_penalty r = Fin q /\ p_cost r = Fin q).
Proof.
  intros Hm. unfold _plan_route.
  destruct (VEHICLE_PROFILES !! vehicle_type) as [base|]; [|discriminate].
  destruct (base !! "avoid_closed") as [cl|]; [|discriminate].
  destruct (level_range_from_3 _ Hm) as [rest ->].
  intros H. apply plan_levels_stops in H
    as (res & route & q & l' & H1 & H2 & H3 & H4 & H5 & ->); [|lia].
  simpl. split; [done|]. split; [|split].
  - exists l'. split; [done|].
    simpl in H4. set_solver by lia.
  - by exists res, route, (truthy cl).
  - by exists q.
Qed.

End RunSearch.

Lemma run_search_picks_fastest_witness :
  exists rd ra rb,
    dijkstra_route (RT := example_runtime) 10 detour_graph 4 3 None true None
    = Ret rd /\
    astar_route (RT := example_runtime) 10 detour_graph 4 3 None 30 true None
    = Ret ra /\
    bidirectional_astar_route (RT := example_runtime) 10 detour_graph 4 3 30
      true None None
    = Ret rb /\
    forall r', r' ∈ [rd; ra; rb] ->
      route_enodes r' = None \/ route_enodes r' = Some [].
Proof.
  apply (@run_search_picks_fastest example_runtime 10 detour_graph 4 3 true
           None).
  reflexivity.
Defined.

Lemma plan_route_never_infeasible_witness :
  exists r,
    _plan_route (RT := example_runtime) 10 shortcut_graph 1 2 "ambulance" 3
    = Ret r /\ p_valid r = true.
Proof.
  eexists. split; [vm_compute; reflexivity|].
  eapply (@plan_route_never_infeasible example_runtime 10 shortcut_graph 1 2
            "ambulance" 3); [lia|vm_compute; reflexivity].
Defined.

(** ** The shape of a returned route *)

Section PrevSound.
Variables (EG : edge_graph) (allow_closed : bool).
Variables (succ : segment -> list segment) (seeds : list segment).

Local Abbreviation sound := (prev_sound EG allow_closed succ seeds).

Lemma prev_sound_empty : sound ∅.
Proof. intros n. by rewrite lookup_empty. Qed.

Lemma prev_sound_seed prev s :
  sound prev -> s ∈ seeds -> passable EG allow_closed s ->
  sound (<[s := None]> prev).
Proof.
  intros H Hs Ha n. destruct (decide (n = s)) as [->|Hne].
  - by rewrite lookup_insert_eq.
  - rewrite lookup_insert_ne by done. specialize (H n).
    destruct (prev !! n) as [[u|]|]; try done.
    destruct H as (? & ? & Hu). repeat split; try done.
    destruct (decide (u = s)) as [->|Hus].
    + by rewrite lookup_insert_eq.
    + by rewrite lookup_insert_ne.
Qed.

Lemma prev_sound_step prev u v :
  sound prev -> is_Some (prev !! u) -> v ∈ succ u ->
  passable EG allow_closed v ->
  sound (<[v := Some u]> prev).
Proof.
  intros H Hu Hv Ha n.
  assert (Hkeep : forall x, is_Some (prev !! x) ->
            is_Some (<[v := Some u]> prev !! x)).
  { intros x Hx. destruct (decide (x = v)) as [->|Hne].
    - by rewrite lookup_insert_eq.
    - by rewrite lookup_insert_ne. }
  destruct (decide (n = v)) as [->|Hne].
  - rewrite lookup_insert_eq. repeat split; try done. by apply Hkeep.
  - rewrite lookup_insert_ne by done. specialize (H n).
    destruct (prev !! n) as [[u'|]|]; try done.
    destruct H as (? & ? & Hu'). repeat split; try done. by apply Hkeep.
Qed.

(** What [prev_chain] collects from a segment with an entry: the way back
    to a seed, one predecessor after the other. *)
Lemma prev_chain_back prev fuel t p :
  sound prev -> is_Some (prev !! t) ->
  prev_chain fuel prev (Some t) = Some p ->
  exists s mid,
    p = t :: mid /\ last p = Some s /\ s ∈ seeds /\
    passable EG allow_closed t /\
    (forall i a b, p !! i = Some a -> p !! S i = Some b ->
       a ∈ succ b /\ passable EG allow_closed b).
Proof.
  intros Hs. revert t p. induction fuel as [|fuel IH]; intros t p Ht; [done|].
  simpl. destruct (prev_chain fuel prev (mjoin (prev !! t))) as [path|] eqn:E;
    [|done].
  intros [= <-]. pose proof (Hs t) as Hst.
  destruct (prev !! t) as [[u|]|] eqn:Et; simpl in E.
  - destruct Hst as (Htu & Hta & Hu).
    destruct (IH u path Hu E) as (s & mid & -> & Hlast & Hseed & Hua & Hlink).
    exists s, (u :: mid). split; [done|]. split; [by rewrite last_cons_cons|].
    split; [done|]. split; [done|].
    intros [|i] a b; simpl.
    + by intros [= <-] [= <-].
    + apply Hlink.
  - destruct fuel; simpl in E; injection E as <-;
      (exists t, []; destruct Hst as [? ?]; repeat split; try done;
       intros [|i] a b; simpl; done).
  - by destruct Ht.
Qed.

End PrevSound.

Section Shape.
Variables (EG : edge_graph) (allow_closed : bool).

Lemma linked_snoc u rest v w :
  linked EG allow_closed u rest -> last (u :: rest) = Some w ->
  v ∈ successors EG w -> passable EG allow_closed v ->
  linked EG allow_closed u (rest ++ [v]).
Proof.
  revert u. induction rest as [|x rest IH]; intros u Hl Hlast Hv Ha.
  - simpl in *. injection Hlast as ->. done.
  - destruct Hl as (Hx & Hxa & Hl). simpl. split; [done|]. split; [done|].
    apply IH; done.
Qed.

Lemma linked_app u l1 w l2 :
  linked EG allow_closed u l1 -> last (u :: l1) = Some w ->
  linked EG allow_closed w l2 ->
  linked EG allow_closed u (l1 ++ l2).
Proof.
  revert u. induction l1 as [|x l1 IH]; intros u Hl Hlast Hl2.
  - simpl in *. by injection Hlast as ->.
  - destruct Hl as (Hx & Hxa & Hl). simpl. split; [done|]. split; [done|].
    apply IH; done.
Qed.

(** The list [prev_chain] collects along forward predecessors, reversed,
    is a route from a seed. *)
Lemma back_chain_route (seeds : list segment) p t mid s :
  p = t :: mid -> last p = Some s -> s ∈ seeds ->
  passable EG allow_closed t ->
  (forall i a b, p !! i = Some a -> p !! S i = Some b ->
     a ∈ successors EG b /\ passable EG allow_closed b) ->
  exists rest,
    rev p = s :: rest /\ passable EG allow_closed s /\
    linked EG allow_closed s rest /\ last (s :: rest) = Some t.
Proof.
  intros ->. revert t.
  induction mid as [|u mid IH]; intros t Hlast Hs Ht Hlink.
  - simpl in *. injection Hlast as <-. by exists [].
  - rewrite last_cons_cons in Hlast.
    destruct (Hlink 0%nat t u eq_refl eq_refl) as (Htu & Hu).
    destruct (IH u Hlast Hs Hu) as (rest & Hrev & Hsa & Hl & Hlast').
    { intros i a b. apply (Hlink (S i)). }
    exists (rest ++ [t]).
    change (rev (t :: u :: mid)) with (rev (u :: mid) ++ [t]).
    rewrite Hrev. split; [done|]. split; [done|]. split.
    + by apply linked_snoc with u.
    + change (s :: rest ++ [t]) with ((s :: rest) ++ [t]). by rewrite last_snoc.
Qed.

(** The list [prev_chain] collects along backward predecessors is a route
    to a target as it stands. *)
Lemma fwd_chain_route p t mid :
  p = t :: mid ->
  (forall i a b, p !! i = Some a -> p !! S i = Some b ->
     a ∈ predecessors EG b /\ passable EG allow_closed b) ->
  linked EG allow_closed t mid.
Proof.
  intros ->. revert t. induction mid as [|u mid IH]; intros t Hlink; [done|].
  destruct (Hlink 0%nat t u eq_refl eq_refl) as (Htu & Hu).
  simpl. split; [by apply predecessors_successors|]. split; [done|].
  apply IH. intros i a b. apply (Hlink (S i)).
Qed.

End Shape.

Section ShapeInv.
Variables (EG : edge_graph) (allow_closed : bool).
Variables (succ : segment -> list segment) (seeds : list segment).

Local Abbreviation shape := (shape_inv EG allow_closed succ seeds).

Lemma shape_seed waiting prev s :
  shape waiting prev -> s ∈ seeds -> passable EG allow_closed s ->
  shape (s :: waiting) (<[s := None]> prev).
Proof.
  intros [Hs Hw] Hin Ha. split; [by apply prev_sound_seed|].
  intros n [->|Hn]%elem_of_cons; [by rewrite lookup_insert_eq|].
  destruct (decide (n = s)) as [->|Hne].
  - by rewrite lookup_insert_eq.
  - rewrite lookup_insert_ne by done. by apply Hw.
Qed.

Lemma shape_step waiting prev u v :
  shape waiting prev -> is_Some (prev !! u) -> v ∈ succ u ->
  passable EG allow_closed v ->
  shape (v :: waiting) (<[v := Some u]> prev) /\
  forall x, is_Some (prev !! x) -> is_Some (<[v := Some u]> prev !! x).
Proof.
  intros [Hs Hw] Hu Hv Ha.
  assert (Hkeep : forall x, is_Some (prev !! x) ->
            is_Some (<[v := Some u]> prev !! x)).
  { intros x Hx. destruct (decide (x = v)) as [->|Hne].
    - by rewrite lookup_insert_eq.
    - by rewrite lookup_insert_ne. }
  split; [|done]. split; [by apply prev_sound_step|].
  intros n [->|Hn]%elem_of_cons; [by rewrite lookup_insert_eq|].
  by apply Hkeep, Hw.
Qed.

Lemma shape_drop waiting waiting' prev :
  shape waiting prev -> (forall n, n ∈ waiting' -> n ∈ waiting) ->
  shape waiting' prev.
Proof. intros [Hs Hw] Hsub. split; [done|]. intros n Hn. by apply Hw, Hsub. Qed.

End ShapeInv.

Lemma heappop_keys {A} (le : A * segment -> A * segment -> bool) h m r :
  heappop le h = Some (m, r) ->
  m.2 ∈ h.*2 /\ forall n, n ∈ r.*2 -> n ∈ h.*2.
Proof.
  intros H. destruct (heappop_split _ _ _ _ H) as (l1 & l2 & -> & ->).
  rewrite !fmap_app, fmap_cons. split.
  - apply elem_of_app. right. by left.
  - intros n. rewrite !elem_of_app, elem_of_cons. tauto.
Qed.

Section DijkstraShape.
Variables (EG : edge_graph) (allow_closed : bool) (max_visits : option Z).
Variables (seeds targets : list segment).

Local Abbreviation shape :=
  (shape_inv EG allow_closed (successors EG) seeds).

Lemma dijkstra_seed_shape l st :
  shape (d_pq st).*2 (d_prev st) -> (forall s, s ∈ l -> s ∈ seeds) ->
  shape (d_pq (fold_left (dijkstra_seed EG allow_closed) l st)).*2
    (d_prev (fold_left (dijkstra_seed EG allow_closed) l st)).
Proof.
  revert st. induction l as [|s l IH]; intros st HS Hsub; [done|].
  simpl. apply IH; [|intros x Hx; apply Hsub; by right].
  unfold dijkstra_seed. destruct (skip_closed EG allow_closed s) eqn:E; [done|].
  simpl. apply shape_seed; [done| |done]. apply Hsub. by left.
Qed.

Lemma dijkstra_relax_shape1 n g st v :
  shape (d_pq st).*2 (d_prev st) -> is_Some (d_prev st !! n) ->
  v ∈ successors EG n ->
  shape (d_pq (dijkstra_relax EG allow_closed n g st v)).*2
    (d_prev (dijkstra_relax EG allow_closed n g st v)) /\
  is_Some (d_prev (dijkstra_relax EG allow_closed n g st v) !! n).
Proof.
  intros HS Hn Hv. unfold dijkstra_relax.
  destruct (skip_closed EG allow_closed v) eqn:E; [done|].
  cbv zeta. destruct (lt_get _ _); [|done].
  destruct (shape_step EG allow_closed (successors EG) seeds _ _ n v HS Hn Hv E)
    as [HS' Hkeep].
  simpl. split; [done|by apply Hkeep].
Qed.

Lemma dijkstra_relax_shape n g l st :
  shape (d_pq st).*2 (d_prev st) -> is_Some (d_prev st !! n) ->
  (forall v, v ∈ l -> v ∈ successors EG n) ->
  shape (d_pq (fold_left (dijkstra_relax EG allow_closed n g) l st)).*2
    (d_prev (fold_left (dijkstra_relax EG allow_closed n g) l st)).
Proof.
  revert st. induction l as [|v l IH]; intros st HS Hn Hsub; [done|].
  simpl.
  destruct (dijkstra_relax_shape1 n g st v HS Hn) as [HS' Hn'].
  { apply Hsub. by left. }
  apply IH; [done|done|]. intros x Hx. apply Hsub. by right.
Qed.

Lemma dijkstra_loop_shape fuel st st' res :
  shape (d_pq st).*2 (d_prev st) ->
  dijkstra_loop EG allow_closed max_visits targets fuel st = Some (st', res) ->
  prev_sound EG allow_closed (successors EG) seeds (d_prev st') /\
  forall t c, res = Some (t, c) -> t ∈ targets /\ is_Some (d_prev st' !! t).
Proof.
  revert st. induction fuel as [|fuel IH]; intros st HS; [done|].
  simpl. destruct (heappop entry_le (d_pq st)) as [[[c n] pq]|] eqn:Hpop.
  2: { intros [= <- <-]. split; [apply HS|done]. }
  destruct (heappop_keys _ _ _ _ Hpop) as [Hn Hsub]. simpl in *.
  assert (HS0 : shape pq.*2 (d_prev st)) by by apply shape_drop with (d_pq st).*2.
  destruct (cap_reached max_visits (d_expanded st)).
  { intros [= <- <-]. split; [apply HS|done]. }
  destruct (gt_get c (d_dist st !! n)); [by apply IH|].
  destruct (bool_decide (n ∈ targets)) eqn:Ht.
  { intros [= <- <-]. simpl. split; [apply HS|].
    intros t' c' [= <- <-]. apply bool_decide_eq_true in Ht.
    split; [done|]. by apply HS. }
  apply IH. apply dijkstra_relax_shape; simpl; try done. by apply HS.
Qed.

End DijkstraShape.

Section AStarShape.
Variables (EG : edge_graph) (allow_closed : bool) (max_visits : option Z).
Variables (seeds targets : list segment) (h : segment -> Q).

Local Abbreviation shape :=
  (shape_inv EG allow_closed (successors EG) seeds).

Lemma astar_seed_shape l st :
  shape (a_heap st).*2 (a_prev st) -> (forall s, s ∈ l -> s ∈ seeds) ->
  shape (a_heap (fold_left (astar_seed EG allow_closed h) l st)).*2
    (a_prev (fold_left (astar_seed EG allow_closed h) l st)).
Proof.
  revert st. induction l as [|s l IH]; intros st HS Hsub; [done|].
  simpl. apply IH; [|intros x Hx; apply Hsub; by right].
  unfold astar_seed. destruct (skip_closed EG allow_closed s) eqn:E; [done|].
  simpl. apply shape_seed; [done| |done]. apply Hsub. by left.
Qed.

Lemma astar_relax_shape1 n g st v :
  shape (a_heap st).*2 (a_prev st) -> is_Some (a_prev st !! n) ->
  v ∈ successors EG n ->
  shape (a_heap (astar_relax EG allow_closed h n g st v)).*2
    (a_prev (astar_relax EG allow_closed h n g st v)) /\
  is_Some (a_prev (astar_relax EG allow_closed h n g st v) !! n).
Proof.
  intros HS Hn Hv. unfold astar_relax.
  destruct (skip_closed EG allow_closed v) eqn:E; [done|].
  cbv zeta. destruct (lt_get _ _); [|done].
  destruct (shape_step EG allow_closed (successors EG) seeds _ _ n v HS Hn Hv E)
    as [HS' Hkeep].
  simpl. split; [done|by apply Hkeep].
Qed.

Lemma astar_relax_shape n g l st :
  shape (a_heap st).*2 (a_prev st) -> is_Some (a_prev st !! n) ->
  (forall v, v ∈ l -> v ∈ successors EG n) ->
  shape (a_heap (fold_left (astar_relax EG allow_closed h n g) l st)).*2
    (a_prev (fold_left (astar_relax EG allow_closed h n g) l st)).
Proof.
  revert st. induction l as [|v l IH]; intros st HS Hn Hsub; [done|].
  simpl.
  destruct (astar_relax_shape1 n g st v HS Hn) as [HS' Hn'].
  { apply Hsub. by left. }
  apply IH; [done|done|]. intros x Hx. apply Hsub. by right.
Qed.

Lemma astar_loop_shape fuel st st' res :
  shape (a_heap st).*2 (a_prev st) ->
  astar_loop EG allow_closed max_visits targets h fuel st = Some (st', res) ->
  prev_sound EG allow_closed (successors EG) seeds (a_prev st') /\
  forall t c, res = Some (t, c) -> t ∈ targets /\ is_Some (a_prev st' !! t).
Proof.
  revert st. induction fuel as [|fuel IH]; intros st HS; [done|].
  simpl. destruct (heappop entry3_le (a_heap st)) as [[[[f g] n] heap]|] eqn:Hpop.
  2: { intros [= <- <-]. split; [apply HS|done]. }
  destruct (heappop_keys _ _ _ _ Hpop) as [Hn Hsub]. simpl in *.
  assert (HS0 : shape heap.*2 (a_prev st))
    by by apply shape_drop with (a_heap st).*2.
  destruct (cap_reached max_visits (a_expanded st)).
  { intros [= <- <-]. split; [apply HS|done]. }
  destruct (bool_decide (n ∈ a_visited st)); [by apply IH|].
  destruct (gt_get g (a_gscore st !! n)); [by apply IH|].
  destruct (bool_decide (n ∈ targets)) eqn:Ht.
  { intros [= <- <-]. simpl. split; [apply HS|].
    intros t' c' [= <- <-]. apply bool_decide_eq_true in Ht.
    split; [done|]. by apply HS. }
  apply IH. apply astar_relax_shape; simpl; try done. by apply HS.
Qed.

End AStarShape.

Section RoutesReturned.
Context `{RT : PyRuntime}.

Lemma filter_valid_incl EG c l l' :
  filter_valid EG c l = Ret l' -> forall x, x ∈ l' -> x ∈ l.
Proof.
  revert l'. induction l as [|en l IH]; intros l'; simpl.
  - by intros [= <-].
  - intros H. inv_bind H. inv_bind H. injection H as <-.
    intros x Hx. destruct (a.1).
    + apply elem_of_cons in Hx as [->|Hx]; [by left|right; by apply (IH a0)].
    + right. by apply (IH a0).
Qed.

Lemma search_endpoints_incl EG s t constraints starts tgts :
  search_endpoints EG s t constraints = Ret (Some (starts, tgts)) ->
  (forall x, x ∈ starts -> x ∈ enodes_from_start EG s) /\
  (forall x, x ∈ tgts -> x ∈ target_nodes EG t).
Proof.
  unfold search_endpoints.
  destruct (bool_decide _ || bool_decide _); [done|].
  destruct constraints as [c|].
  - destruct (bool_decide (dom c = ∅)).
    + intros [= <- <-]. split; [done|]. intros x. apply py_set_iter_elem.
    + intros H. inv_bind H. inv_bind H. injection H as <- <-. split.
      * by apply (filter_valid_incl _ _ _ _ Ha).
      * intros x Hx. apply py_set_iter_elem.
        by apply (filter_valid_incl _ _ _ _ Ha0).
  - intros [= <- <-]. split; [done|]. intros x. apply py_set_iter_elem.
Qed.

(** What the closing lines make of a sound predecessor map. *)
Lemma search_result_route fuel EG allow_closed (starts tgts : list segment)
  prev expanded best r path s t :
  prev_sound EG allow_closed (successors EG) starts prev ->
  (forall t' c, best = Some (t', c) -> t' ∈ tgts /\ is_Some (prev !! t')) ->
  (forall x, x ∈ starts -> x ∈ enodes_from_start EG s) ->
  (forall x, x ∈ tgts -> x ∈ target_nodes EG t) ->
  search_result fuel prev expanded best = Ret r ->
  route_enodes r = Some path ->
  route_between EG allow_closed s t path /\
  route_nodes r = Some (to_route_nodes path).
Proof.
  intros Hs Hbest Hst Htg. unfold search_result.
  destruct best as [[t' c]|]; [|by intros [= <-]].
  destruct (Hbest t' c eq_refl) as [Ht' Hsome].
  intros H. inv_bind H. injection H as <-. simpl. intros [= <-].
  split; [|done].
  destruct (prev_chain fuel prev (Some t')) as [p|] eqn:E; [|done].
  injection Ha as <-.
  destruct (prev_chain_back EG allow_closed (successors EG) starts prev fuel
              t' p Hs Hsome E) as (s0 & mid & Hp & Hlast & Hseed & Hta & Hlink).
  destruct (back_chain_route EG allow_closed starts p t' mid s0 Hp Hlast Hseed
              Hta Hlink) as (rest & Hrev & Hsa & Hl & Hlast').
  exists s0, rest, t'. rewrite Hrev. repeat split; try done.
  - by apply Hst.
  - by apply Htg.
Qed.

(** X9: a route returned by [dijkstra_route] is a route of the graph,
    whatever the costs, the constraints and the cap: it starts with a
    segment leaving the start node, ends with a segment arriving at the
    target node, each segment is a successor of the one before it, and
    none is one the closed-segment filter holds back; [route_nodes] is the
    node list of it. *)
Theorem dijkstra_route_is_route fuel EG s t constraints allow_closed
  max_visits r path :
  dijkstra_route fuel EG s t constraints allow_closed max_visits = Ret r ->
  route_enodes r = Some path ->
  route_between EG allow_closed s t path /\
  route_nodes r = Some (to_route_nodes path).
Proof.
  unfold dijkstra_route. intros H. inv_bind H.
  destruct a as [[starts tgts]|]; [|by injection H as <-].
  destruct (search_endpoints_incl _ _ _ _ _ _ Ha) as [Hst Htg].
  unfold dijkstra_search in H. inv_bind H.
  destruct (dijkstra_loop _ _ _ _ _ _) as [[st' res]|] eqn:Hloop; [|done].
  injection Ha0 as <-. simpl in H.
  destruct (dijkstra_loop_shape EG allow_closed max_visits starts tgts fuel
              (dijkstra_init EG allow_closed starts) st' res)
    as [Hs Hbest]; [|done|].
  { unfold dijkstra_init. apply dijkstra_seed_shape; [|done].
    split; [apply prev_sound_empty|]. simpl. intros n Hn.
    by apply elem_of_nil in Hn. }
  by apply (search_result_route fuel EG allow_closed starts tgts _ _ _ r path
              s t Hs Hbest Hst Htg H).
Qed.

(** X10: the same holds of a route returned by [astar_route], whatever
    the heuristic makes of the order of expansion. *)
Theorem astar_route_is_route fuel EG s t constraints vmax_mps allow_closed
  max_visits r path :
  astar_route fuel EG s t constraints vmax_mps allow_closed max_visits
  = Ret r ->
  route_enodes r = Some path ->
  route_between EG allow_closed s t path /\
  route_nodes r = Some (to_route_nodes path).
Proof.
  unfold astar_route. intros H. inv_bind H.
  destruct a as [[starts tgts]|]; [|by injection H as <-].
  destruct (search_endpoints_incl _ _ _ _ _ _ Ha) as [Hst Htg].
  destruct tgts as [|sample tgts]; [done|].
  destruct (Qeq_bool vmax_mps 0 && _); [done|].
  unfold astar_search in H. inv_bind H.
  destruct (astar_loop _ _ _ _ _ _ _) as [[st' res]|] eqn:Hloop; [|done].
  injection Ha0 as <-. simpl in H.
  set (h := heuristic EG _ _ vmax_mps) in *.
  destruct (astar_loop_shape EG allow_closed max_visits starts
              (sample :: tgts) h fuel (astar_init EG allow_closed h starts)
              st' res) as [Hs Hbest]; [|done|].
  { unfold astar_init. apply astar_seed_shape; [|done].
    split; [apply prev_sound_empty|]. simpl. intros n Hn.
    by apply elem_of_nil in Hn. }
  by apply (search_result_route fuel EG allow_closed starts (sample :: tgts)
              _ _ _ r path s t Hs Hbest Hst Htg H).
Qed.

End RoutesReturned.

Lemma dijkstra_route_is_route_witness :
  route_between chain_graph false 1 3 [(1, 2, 0); (2, 3, 0)]%Z /\
  Some [1; 2; 3]%Z = Some (to_route_nodes [(1, 2, 0); (2, 3, 0)]%Z).
Proof.
  apply (@dijkstra_route_is_route example_runtime 10 chain_graph 1 3 None
           false None
           {| route_nodes := Some [1; 2; 3]%Z;
              route_enodes := Some [(1, 2, 0); (2, 3, 0)]%Z;
              r_cost := Fin 2; r_expanded := 2 |});
    reflexivity.
Defined.

Lemma astar_route_is_route_witness :
  route_between chain_graph false 1 3 [(1, 2, 0); (2, 3, 0)]%Z /\
  Some [1; 2; 3]%Z = Some (to_route_nodes [(1, 2, 0); (2, 3, 0)]%Z).
Proof.
  apply (@astar_route_is_route example_runtime 10 chain_graph 1 3 None 30
           false None
           {| route_nodes := Some [1; 2; 3]%Z;
              route_enodes := Some [(1, 2, 0); (2, 3, 0)]%Z;
              r_cost := Fin 2; r_expanded := 2 |});
    reflexivity.
Defined.

Section BidirShape.
Variables (EG : edge_graph) (allow_closed : bool) (max_visits : option Z).
Variables (seeds targets : list segment) (hf hb : segment -> Q).

Local Abbreviation shape := (bidir_shape EG allow_closed seeds targets).

Lemma is_Some_insert {A : Type} (m : gmap segment A) k v x :
  is_Some (m !! x) -> is_Some (<[k := v]> m !! x).
Proof.
  intros Hx. destruct (decide (x = k)) as [->|Hne].
  - by rewrite lookup_insert_eq.
  - by rewrite lookup_insert_ne.
Qed.

Lemma is_Some_insert_inv {A B : Type} (m : gmap segment A)
  (m' : gmap segment B) k v v' :
  (forall n, is_Some (m !! n) -> is_Some (m' !! n)) ->
  forall n, is_Some (<[k := v]> m !! n) -> is_Some (<[k := v']> m' !! n).
Proof.
  intros H n. destruct (decide (n = k)) as [->|Hne].
  - by rewrite !lookup_insert_eq.
  - rewrite !lookup_insert_ne by done. apply H.
Qed.

Lemma bidir_seed_fwd_shape l st :
  shape st -> (forall s, s ∈ l -> s ∈ seeds) ->
  shape (fold_left (bidir_seed_fwd EG allow_closed hf) l st).
Proof.
  revert st. induction l as [|s l IH]; intros st HS Hsub; [done|].
  simpl. apply IH; [|intros x Hx; apply Hsub; by right].
  unfold bidir_seed_fwd.
  destruct (skip_closed EG allow_closed s) eqn:E; [done|].
  destruct HS as [Hf Hb Hgf Hgb Hm]. split; simpl; try done.
  - apply shape_seed; [done| |done]. apply Hsub. by left.
  - by apply is_Some_insert_inv.
  - intros m Hmm. destruct (Hm m Hmm). split; [by apply is_Some_insert|done].
Qed.

Lemma bidir_seed_bwd_shape l st :
  shape st -> (forall s, s ∈ l -> s ∈ targets) ->
  shape (fold_left (bidir_seed_bwd EG allow_closed hb) l st).
Proof.
  revert st. induction l as [|s l IH]; intros st HS Hsub; [done|].
  simpl. apply IH; [|intros x Hx; apply Hsub; by right].
  unfold bidir_seed_bwd.
  destruct (skip_closed EG allow_closed s) eqn:E; [done|].
  destruct HS as [Hf Hb Hgf Hgb Hm]. split; simpl; try done.
  - apply shape_seed; [done| |done]. apply Hsub. by left.
  - by apply is_Some_insert_inv.
  - intros m Hmm. destruct (Hm m Hmm). split; [done|by apply is_Some_insert].
Qed.

Lemma bidir_init_shape :
  shape (bidir_init EG allow_closed hf hb seeds targets).
Proof.
  unfold bidir_init. apply bidir_seed_bwd_shape; [|done].
  apply bidir_seed_fwd_shape; [|done].
  split; simpl; try done.
  - split; [apply prev_sound_empty|]. intros n Hn. by apply elem_of_nil in Hn.
  - split; [apply prev_sound_empty|]. intros n Hn. by apply elem_of_nil in Hn.
  - intros n. rewrite lookup_empty. by intros [? ?].
  - intros n. rewrite lookup_empty. by intros [? ?].
Qed.

Lemma bidir_meet_shape_fwd n g st :
  shape st -> is_Some (prev_fwd st !! n) ->
  shape (bidir_meet (g_bwd st) n g st) /\
  prev_fwd (bidir_meet (g_bwd st) n g st) = prev_fwd st.
Proof.
  intros HS Hn. unfold bidir_meet.
  destruct (g_bwd st !! n) as [g'|] eqn:E; [|done].
  destruct (cost_lt _ _); [|done]. split; [|done].
  destruct HS as [Hf Hb Hgf Hgb Hm]. split; simpl; try done.
  intros m [= <-]. split; [done|]. apply Hgb. by rewrite E.
Qed.

Lemma bidir_meet_shape_bwd n g st :
  shape st -> is_Some (prev_bwd st !! n) ->
  shape (bidir_meet (g_fwd st) n g st) /\
  prev_bwd (bidir_meet (g_fwd st) n g st) = prev_bwd st.
Proof.
  intros HS Hn. unfold bidir_meet.
  destruct (g_fwd st !! n) as [g'|] eqn:E; [|done].
  destruct (cost_lt _ _); [|done]. split; [|done].
  destruct HS as [Hf Hb Hgf Hgb Hm]. split; simpl; try done.
  intros m [= <-]. split; [|done]. apply Hgf. by rewrite E.
Qed.

Lemma bidir_relax_fwd_shape n g l st :
  shape st -> is_Some (prev_fwd st !! n) ->
  (forall v, v ∈ l -> v ∈ successors EG n) ->
  shape (fold_left (bidir_relax_fwd EG allow_closed hf n g) l st).
Proof.
  revert st. induction l as [|v l IH]; intros st HS Hn Hsub; [done|].
  simpl.
  assert (shape (bidir_relax_fwd EG allow_closed hf n g st v) /\
          is_Some (prev_fwd (bidir_relax_fwd EG allow_closed hf n g st v) !! n))
    as [HS' Hn'].
  { unfold bidir_relax_fwd.
    destruct (skip_closed EG allow_closed v) eqn:E; [done|].
    cbv zeta. destruct (lt_get _ _); [|done].
    destruct HS as [Hf Hb Hgf Hgb Hm].
    destruct (shape_step EG allow_closed (successors EG) seeds _ _ n v Hf Hn)
      as [Hf' Hkeep]; [apply Hsub; by left|done|].
    split; [|by apply Hkeep]. split; simpl; try done.
    - by apply is_Some_insert_inv.
    - intros m Hmm. destruct (Hm m Hmm). split; [by apply Hkeep|done]. }
  apply IH; [done|done|]. intros x Hx. apply Hsub. by right.
Qed.

Lemma bidir_relax_bwd_shape n g l st :
  shape st -> is_Some (prev_bwd st !! n) ->
  (forall v, v ∈ l -> v ∈ predecessors EG n) ->
  shape (fold_left (bidir_relax_bwd EG allow_closed hb n g) l st).
Proof.
  revert st. induction l as [|v l IH]; intros st HS Hn Hsub; [done|].
  simpl.
  assert (shape (bidir_relax_bwd EG allow_closed hb n g st v) /\
          is_Some (prev_bwd (bidir_relax_bwd EG allow_closed hb n g st v) !! n))
    as [HS' Hn'].
  { unfold bidir_relax_bwd.
    destruct (skip_closed EG allow_closed v) eqn:E; [done|].
    cbv zeta. destruct (lt_get _ _); [|done].
    destruct HS as [Hf Hb Hgf Hgb Hm].
    destruct (shape_step EG allow_closed (predecessors EG) targets _ _ n v
                Hb Hn) as [Hb' Hkeep]; [apply Hsub; by left|done|].
    split; [|by apply Hkeep]. split; simpl; try done.
    - by apply is_Some_insert_inv.
    - intros m Hmm. destruct (Hm m Hmm). split; [done|by apply Hkeep]. }
  apply IH; [done|done|]. intros x Hx. apply Hsub. by right.
Qed.

Lemma bidir_step_bwd_shape st :
  shape st -> shape (bidir_step_bwd EG allow_closed hb st).
Proof.
  intros HS. unfold bidir_step_bwd.
  destruct (heappop entry3_le (open_bwd st)) as [[[[f g] n] heap]|] eqn:Hpop;
    [|done].
  destruct (heappop_keys _ _ _ _ Hpop) as [Hn Hsub]. simpl in *.
  pose proof HS as [Hf Hb Hgf Hgb Hm].
  set (st0 := BState (open_fwd st) heap (g_fwd st) (g_bwd st) (prev_fwd st)
                (prev_bwd st) (b_expanded st + 1) (best_cost st)
                (meeting_node st)).
  assert (HS0 : shape st0).
  { split; simpl; try done. by apply shape_drop with (open_bwd st).*2. }
  assert (Hn0 : is_Some (prev_bwd st0 !! n)) by by apply Hb.
  destruct (gt_get g (g_bwd st !! n)); [done|].
  destruct (bidir_meet_shape_bwd n g st0 HS0 Hn0) as [HS1 Hp1].
  change (shape (fold_left (bidir_relax_bwd EG allow_closed hb n g)
                   (predecessors EG n) (bidir_meet (g_fwd st0) n g st0))).
  apply bidir_relax_bwd_shape; [done| |done].
  by rewrite Hp1.
Qed.

Lemma bidir_loop_shape fuel st st' :
  shape st ->
  bidir_loop EG allow_closed max_visits hf hb fuel st = Some st' ->
  shape st'.
Proof.
  revert st. induction fuel as [|fuel IH]; intros st HS; [done|].
  simpl. destruct (open_bwd st) as [|e0 bw] eqn:Hbw; [by intros [= <-]|].
  destruct (heappop entry3_le (open_fwd st)) as [[[[f g] n] heap]|] eqn:Hpop;
    [|by intros [= <-]].
  destruct (cap_reached_truthy max_visits (b_expanded st));
    [by intros [= <-]|].
  destruct (heappop_keys _ _ _ _ Hpop) as [Hn Hsub]. simpl in *.
  pose proof HS as [Hf Hb Hgf Hgb Hm].
  set (st0 := BState heap (e0 :: bw) (g_fwd st) (g_bwd st) (prev_fwd st)
                (prev_bwd st) (b_expanded st + 1) (best_cost st)
                (meeting_node st)).
  assert (HS0 : shape st0).
  { split; simpl; try done.
    - by apply shape_drop with (open_fwd st).*2.
    - rewrite Hbw in Hb. exact Hb. }
  assert (Hn0 : is_Some (prev_fwd st0 !! n)) by by apply Hf.
  destruct (gt_get g (g_fwd st !! n)); [by apply IH|].
  destruct (bidir_meet_shape_fwd n g st0 HS0 Hn0) as [HS1 Hp1].
  apply IH. apply bidir_step_bwd_shape.
  change (shape (fold_left (bidir_relax_fwd EG allow_closed hf n g)
                   (successors EG n) (bidir_meet (g_bwd st0) n g st0))).
  apply bidir_relax_fwd_shape; [done| |done].
  by rewrite Hp1.
Qed.

End BidirShape.

Section BidirRoute.
Context `{RT : PyRuntime}.

Lemma bidir_result_route fuel EG allow_closed (starts tgts : list segment) st
  r path s t :
  bidir_shape EG allow_closed starts tgts st ->
  (forall x, x ∈ starts -> x ∈ enodes_from_start EG s) ->
  (forall x, x ∈ tgts -> x ∈ target_nodes EG t) ->
  bidir_result fuel st = Ret r ->
  route_enodes r = Some path ->
  route_between EG allow_closed s t path /\
  route_nodes r = Some (to_route_nodes path).
Proof.
  intros HS Hst Htg. unfold bidir_result.
  destruct (meeting_node st) as [m|] eqn:Hm; [|by intros [= <-]].
  destruct (bs_meeting _ _ _ _ _ HS m Hm) as [Hmf Hmb].
  intros H. inv_bind H. inv_bind H. injection H as <-. simpl.
  intros [= <-]. split; [|done].
  destruct (prev_chain fuel (prev_fwd st) (Some m)) as [pf|] eqn:Ef; [|done].
  injection Ha as <-.
  destruct (prev_chain fuel (prev_bwd st) _) as [pb|] eqn:Eb; [|done].
  injection Ha0 as <-.
  destruct (bs_fwd _ _ _ _ _ HS) as [Hsf _].
  destruct (bs_bwd _ _ _ _ _ HS) as [Hsb _].
  destruct (prev_chain_back EG allow_closed (successors EG) starts _ fuel
              m pf Hsf Hmf Ef) as (s0 & mid & Hp & Hlast & Hseed & Hma & Hlink).
  destruct (back_chain_route EG allow_closed starts pf m mid s0 Hp Hlast Hseed
              Hma Hlink) as (rest & Hrev & Hsa & Hl & Hlast').
  rewrite Hrev. pose proof (Hsb m) as Hsm.
  destruct (prev_bwd st !! m) as [[u|]|] eqn:Em; simpl in Eb.
  - destruct Hsm as (Hmu & _ & Hu).
    destruct (prev_chain_back EG allow_closed (predecessors EG) tgts _ fuel
                u pb Hsb Hu Eb)
      as (t0 & mid' & Hp' & Hlast2 & Htgt & Hua & Hlink').
    pose proof (fwd_chain_route EG allow_closed pb u mid' Hp' Hlink') as Hl'.
    exists s0, (rest ++ pb), t0. repeat split; try done.
    + change ((s0 :: rest) ++ pb) with (s0 :: (rest ++ pb)).
      rewrite Hp'. rewrite Hp' in Hlast2.
      change (s0 :: rest ++ u :: mid') with ((s0 :: rest) ++ u :: mid').
      by rewrite last_app, Hlast2.
    + by apply Hst.
    + by apply Htg.
    + apply linked_app with m; [done|done|]. rewrite Hp'. simpl.
      split; [by apply predecessors_successors|]. done.
  - assert (pb = []) as -> by (destruct fuel; simpl in Eb; congruence).
    exists s0, rest, m. rewrite app_nil_r. destruct Hsm as [Hmt _].
    repeat split; try done; [by apply Hst|by apply Htg].
  - by destruct Hmb.
Qed.

(** X11: a route returned by [bidirectional_astar_route], the forward
    half joined to the backward half at the meeting segment, is a route of
    the graph too: from a segment leaving the start node to a segment
    arriving at the target node, along transitions, over segments the
    closed-segment filter lets through. *)
Theorem bidirectional_route_is_route fuel EG s t vmax_mps allow_closed
  constraints max_visits r path :
  bidirectional_astar_route fuel EG s t vmax_mps allow_closed constraints
    max_visits = Ret r ->
  route_enodes r = Some path ->
  route_between EG allow_closed s t path /\
  route_nodes r = Some (to_route_nodes path).
Proof.
  unfold bidirectional_astar_route. intros H. inv_bind H.
  destruct a as [[starts tgts]|]; [|by injection H as <-].
  destruct (search_endpoints_incl _ _ _ _ _ _ Ha) as [Hst Htg].
  destruct tgts as [|sample_t tgts]; [done|].
  destruct starts as [|sample_s starts]; [done|].
  destruct (Qeq_bool vmax_mps 0 && _); [done|].
  unfold bidir_search in H. inv_bind H.
  destruct (bidir_loop _ _ _ _ _ _ _) as [st'|] eqn:Hloop; [|done].
  injection Ha0 as <-.
  apply (bidir_result_route fuel EG allow_closed (sample_s :: starts)
           (sample_t :: tgts) st' r path s t); try done.
  eapply bidir_loop_shape; [|exact Hloop]. apply bidir_init_shape.
Qed.

End BidirRoute.

Lemma bidirectional_route_is_route_witness :
  route_between chain_graph false 1 3 [(1, 2, 0); (2, 3, 0)]%Z /\
  Some [1; 2; 3]%Z = Some (to_route_nodes [(1, 2, 0); (2, 3, 0)]%Z).
Proof.
  apply (@bidirectional_route_is_route example_runtime 10 chain_graph 1 3 30
           false None None
           {| route_nodes := Some [1; 2; 3]%Z;
              route_enodes := Some [(1, 2, 0); (2, 3, 0)]%Z;
              r_cost := Fin 3; r_expanded := 4 |});
    reflexivity.
Defined.

(** ** The cost a search reports and the route it reports *)

Lemma route_tt_loop_snoc EG u rest v w acc :
  last (u :: rest) = Some w ->
  route_tt_loop EG u (rest ++ [v]) acc
  = (route_tt_loop EG u rest acc + turn_cost EG w v
     + enode_travel_time EG v)%Q.
Proof.
  revert u acc. induction rest as [|x rest IH]; intros u acc Hlast.
  - simpl in *. by injection Hlast as ->.
  - simpl. apply IH. by rewrite last_cons_cons in Hlast.
Qed.

Section CostChain.
Variables (EG : edge_graph) (allow_closed : bool).
Variables (targets : list segment) (h : segment -> Q).
Hypothesis Hcons : consistent EG allow_closed targets h.

Local Abbreviation relax := (relax_view EG allow_closed).

Lemma cost_chain_relax n g σ v :
  cost_chain EG σ -> settled_below h n g σ -> n ∈ v_vis σ ->
  (exists dn, v_dist σ !! n = Some dn /\ (dn == g)%Q) ->
  v ∈ successors EG n ->
  cost_chain EG (relax n g σ v) /\ settled_below h n g (relax n g σ v) /\
  v_vis (relax n g σ v) = v_vis σ /\
  (exists dn, v_dist (relax n g σ v) !! n = Some dn /\ (dn == g)%Q).
Proof.
  intros [Hdom Hk] Hset Hn (dn & Hdn & Hg) Hv. unfold relax_view.
  destruct (skip_closed EG allow_closed v) eqn:Hskip.
  { split; [by split|]. split; [done|]. split; [done|]. by exists dn. }
  cbv zeta.
  destruct (lt_get _ (v_dist σ !! v)) eqn:Hlt.
  2: { split; [by split|]. split; [done|]. split; [done|]. by exists dn. }
  assert (Hvout : v ∉ v_vis σ).
  { intros Hin. destruct (Hset v Hin) as (dv & Hdv & Hle).
    rewrite Hdv in Hlt. apply lt_get_true in Hlt.
    pose proof (proj2 Hcons n v Hv Hskip). lra. }
  assert (Hvn : v <> n) by (intros ->; done).
  simpl. split; [|split; [|split; [done|]]].
  - split.
    + intros x. simpl. destruct (decide (x = v)) as [->|Hne].
      * by rewrite !lookup_insert_eq.
      * rewrite !lookup_insert_ne by done. apply Hdom.
    + intros x. simpl. destruct (decide (x = v)) as [->|Hne].
      * rewrite lookup_insert_eq. split; [done|].
        eexists dn, _. rewrite lookup_insert_ne by done.
        rewrite lookup_insert_eq. split; [done|]. split; [done|]. lra.
      * rewrite lookup_insert_ne by done. specialize (Hk x).
        destruct (v_prev σ !! x) as [[u|]|]; [|by rewrite lookup_insert_ne|done].
        destruct Hk as (Hu & du & dx & Hdu & Hdx & Heq).
        split; [done|]. exists du, dx.
        assert (u <> v) by (intros ->; done).
        by rewrite !lookup_insert_ne.
  - intros u Hu. simpl in *. assert (u <> v) by (intros ->; done).
    rewrite lookup_insert_ne by done. by apply Hset.
  - exists dn. by rewrite lookup_insert_ne.
Qed.

Lemma cost_chain_relax_fold n g l σ :
  cost_chain EG σ -> settled_below h n g σ -> n ∈ v_vis σ ->
  (exists dn, v_dist σ !! n = Some dn /\ (dn == g)%Q) ->
  (forall v, v ∈ l -> v ∈ successors EG n) ->
  cost_chain EG (fold_left (relax n g) l σ).
Proof.
  revert σ. induction l as [|v l IH]; intros σ Hk Hset Hn Hdn Hsub; [done|].
  simpl.
  destruct (cost_chain_relax n g σ v Hk Hset Hn Hdn) as (Hk' & Hset' & Hv & Hdn').
  { apply Hsub. by left. }
  apply IH; try done.
  - by rewrite Hv.
  - intros x Hx. apply Hsub. by right.
Qed.

(** Taking the least entry [(g, n)] out of the heap and expanding it. *)
Lemma cost_chain_expand seeds src σ l1 l2 g n :
  search_inv EG allow_closed seeds targets h src [] σ ->
  cost_chain EG σ ->
  v_q σ = l1 ++ (g, n) :: l2 ->
  (forall d, v_dist σ !! n = Some d -> (g <= d)%Q) ->
  cost_chain EG
    (fold_left (relax n g) (successors EG n)
       (View (l1 ++ l2) (v_dist σ) (v_prev σ) ({[n]} ∪ v_vis σ))) /\
  exists d, v_dist σ !! n = Some d /\ (d == g)%Q.
Proof.
  intros HI [Hdom Hk] Hq Hfresh.
  assert (Hin : (g, n) ∈ v_q σ).
  { rewrite Hq. apply elem_of_app. right. by left. }
  destruct (inv_entry _ _ _ _ _ _ _ _ HI g n Hin) as (dn & Hdn & Hle).
  pose proof (Hfresh dn Hdn) as Hge.
  assert (Heq : (dn == g)%Q) by lra.
  split; [|by exists dn].
  apply cost_chain_relax_fold; simpl.
  - split; [done|]. intros x. specialize (Hk x). simpl.
    destruct (v_prev σ !! x) as [[u|]|]; try done.
    destruct Hk as (Hu & Hrest). split; [set_solver|done].
  - intros u Hu. simpl. destruct (decide (u = n)) as [->|Hne].
    + exists dn. split; [done|lra].
    + assert (Hu' : u ∈ v_vis σ) by set_solver.
      destruct (inv_visited _ _ _ _ _ _ _ _ HI u Hu') as [du Hdu].
      exists du. split; [done|].
      apply (inv_mono _ _ _ _ _ _ _ _ HI u du g n Hu' Hdu Hin).
  - set_solver.
  - by exists dn.
  - done.
Qed.

End CostChain.

Lemma cost_chain_seeded EG allow_closed l :
  cost_chain EG (fold_left (seed_view EG allow_closed) l (View [] ∅ ∅ ∅)).
Proof.
  assert (Hgen : forall σ,
    (forall n, is_Some (v_dist σ !! n) -> is_Some (v_prev σ !! n)) ->
    (forall n, match v_prev σ !! n with
               | Some None => v_dist σ !! n = Some (enode_travel_time EG n)
               | Some (Some _) => False
               | None => True
               end) ->
    cost_chain EG (fold_left (seed_view EG allow_closed) l σ)).
  { induction l as [|s l IH]; intros σ Hdom Hk.
    - simpl. split; [done|]. intros n. specialize (Hk n).
      by destruct (v_prev σ !! n) as [[u|]|].
    - simpl. apply IH; unfold seed_view;
        destruct (skip_closed EG allow_closed s); try done; simpl.
      + intros n. destruct (decide (n = s)) as [->|Hne].
        * by rewrite !lookup_insert_eq.
        * rewrite !lookup_insert_ne by done. apply Hdom.
      + intros n. destruct (decide (n = s)) as [->|Hne].
        * by rewrite !lookup_insert_eq.
        * rewrite !lookup_insert_ne by done. apply Hk. }
  apply Hgen; simpl.
  - intros n. rewrite lookup_empty. by intros [? ?].
  - intros n. by rewrite lookup_empty.
Qed.

(** Along the predecessors, the costs add up to what [compute_route_tt]
    sums over the route. *)
Lemma cost_chain_route_time EG σ fuel t p d :
  cost_chain EG σ -> v_dist σ !! t = Some d ->
  prev_chain fuel (v_prev σ) (Some t) = Some p ->
  exists s rest,
    rev p = s :: rest /\ last (s :: rest) = Some t /\
    (route_tt_loop EG s rest (0 + enode_travel_time EG s) == d)%Q.
Proof.
  intros [Hdom Hk]. revert t p d.
  induction fuel as [|fuel IH]; intros t p d Hd; [done|].
  simpl.
  destruct (prev_chain fuel (v_prev σ) (mjoin (v_prev σ !! t))) as [path|] eqn:E;
    [|done].
  intros [= <-]. pose proof (Hk t) as Hkt.
  destruct (Hdom t) as [pt Hpt]; [by eexists|]. rewrite Hpt in *.
  destruct pt as [u|]; simpl in E.
  - destruct Hkt as (_ & du & dn & Hdu & Hdn & Heq).
    rewrite Hd in Hdn. injection Hdn as <-.
    destruct (IH u path du Hdu E) as (s & rest & Hrev & Hlast & Hsum).
    exists s, (rest ++ [t]). simpl. rewrite Hrev. split; [done|]. split.
    + change (s :: rest ++ [t]) with ((s :: rest) ++ [t]). by rewrite last_snoc.
    + rewrite (route_tt_loop_snoc EG s rest t u) by done. lra.
  - assert (path = []) as -> by (destruct fuel; simpl in E; congruence).
    exists t, []. simpl. split; [done|]. split; [done|].
    rewrite Hd in Hkt. injection Hkt as ->. lra.
Qed.

Section DijkstraCost.
Variables (EG : edge_graph) (allow_closed : bool) (max_visits : option Z).
Variables (seeds targets : list segment).
Hypothesis Hnonneg : nonneg_costs EG.

Local Abbreviation Inv :=
  (search_inv EG allow_closed seeds targets zero_h (0, 0, 0)%Z []).

Lemma dijkstra_loop_cost fuel st r :
  Inv (view_d st) -> cost_chain EG (view_d st) ->
  dijkstra_loop EG allow_closed max_visits targets fuel st = Some r ->
  cost_chain EG (view_d r.1) /\
  forall t c, r.2 = Some (t, c) ->
    exists d, d_dist r.1 !! t = Some d /\ (d == c)%Q.
Proof.
  pose proof (consistent_zero EG allow_closed targets Hnonneg) as Hcons.
  revert st. induction fuel as [|fuel IH]; intros st HI HK; [done|].
  simpl.
  destruct (heappop entry_le (d_pq st)) as [[[c n] pq]|] eqn:Hpop.
  2: { intros [= <-]. by simpl. }
  destruct (heappop_split _ _ _ _ Hpop) as (l1 & l2 & Hq & ->).
  pose proof (heappop_least entry_le fst _ _ _ entry_le_key
                entry_le_key_false Hpop) as Hleast.
  assert (Hmin : forall e, e ∈ v_q (view_d st) ->
                   (c + zero_h n <= e.1 + zero_h e.2)%Q).
  { intros e He. specialize (Hleast e He). unfold zero_h. simpl in *. lra. }
  simpl.
  destruct (cap_reached max_visits (d_expanded st)) eqn:Hcap.
  { intros [= <-]. simpl. split; [exact HK|done]. }
  destruct (gt_get c (d_dist st !! n)) eqn:Hstale.
  { apply IH; [|exact HK].
    apply (inv_skip EG allow_closed seeds targets zero_h _ (view_d st)
             l1 l2 c n HI Hq).
    right. by apply gt_get_true. }
  assert (Hfresh : forall d, v_dist (view_d st) !! n = Some d -> (c <= d)%Q).
  { intros d Hd. simpl in Hd. rewrite Hd in Hstale. by apply gt_get_false. }
  destruct (bool_decide (n ∈ targets)) eqn:Htgt.
  { intros [= <-]. simpl. split; [exact HK|]. intros t' c' [= <- <-].
    assert (Hin : (c, n) ∈ d_pq st).
    { rewrite Hq. apply elem_of_app. right. by left. }
    destruct (inv_entry _ _ _ _ _ _ _ _ HI c n Hin) as (dn & Hdn & Hle).
    exists dn. split; [done|]. specialize (Hfresh dn Hdn). lra. }
  apply IH; rewrite view_d_relax_fold.
  - apply (inv_expand EG allow_closed seeds targets zero_h Hcons _
             (view_d st) l1 l2 c n HI Hq Hmin Hfresh).
    by apply bool_decide_eq_false in Htgt.
  - apply (cost_chain_expand EG allow_closed targets zero_h Hcons seeds _
             (view_d st) l1 l2 c n HI HK Hq Hfresh).
Qed.

End DijkstraCost.

Section AStarCost.
Variables (EG : edge_graph) (allow_closed : bool) (max_visits : option Z).
Variables (seeds targets : list segment) (h : segment -> Q).
Hypothesis Hcons : consistent EG allow_closed targets h.

Local Abbreviation Inv :=
  (search_inv EG allow_closed seeds targets h (0, 0, 0)%Z []).

Lemma astar_loop_cost fuel st r :
  Inv (view_a st) -> keyed_by h (a_heap st) -> cost_chain EG (view_a st) ->
  astar_loop EG allow_closed max_visits targets h fuel st = Some r ->
  cost_chain EG (view_a r.1) /\
  forall t c, r.2 = Some (t, c) ->
    exists d, a_gscore r.1 !! t = Some d /\ (d == c)%Q.
Proof.
  revert st. induction fuel as [|fuel IH]; intros st HI Hk HK; [done|].
  simpl.
  destruct (heappop entry3_le (a_heap st)) as [[[[f g] n] heap]|] eqn:Hpop.
  2: { intros [= <-]. by simpl. }
  destruct (heappop_split _ _ _ _ Hpop) as (l1 & l2 & Hq & ->).
  pose proof (heappop_least entry3_le (fun e => e.1.1) _ _ _ entry3_le_key
                entry3_le_key_false Hpop) as Hleast.
  set (pr := fun e : Q * Q * segment => (e.1.2, e.2)).
  assert (Hq' : v_q (view_a st) = map pr l1 ++ (g, n) :: map pr l2).
  { simpl. by rewrite Hq, map_app. }
  assert (Hkn : f = (g + h n)%Q).
  { apply (Hk (f, g, n)). rewrite Hq. apply elem_of_app. right. by left. }
  assert (Hmin : forall e, e ∈ v_q (view_a st) ->
                   (g + h n <= e.1 + h e.2)%Q).
  { intros e He. simpl in He. apply list_elem_of_fmap in He as (e3 & -> & He3).
    specialize (Hleast e3 He3). simpl in Hleast.
    rewrite (Hk e3 He3), Hkn in Hleast. done. }
  assert (Hk' : keyed_by h (l1 ++ l2)).
  { intros e He. apply Hk. rewrite Hq. by apply elem_of_middle_incl. }
  set (st0 := AState (l1 ++ l2) (a_gscore st) (a_prev st) (a_expanded st)
                (a_visited st)).
  assert (Hv0 : view_a st0
                = View (map pr l1 ++ map pr l2) (v_dist (view_a st))
                    (v_prev (view_a st)) (v_vis (view_a st))).
  { unfold view_a. simpl. by rewrite map_app. }
  simpl.
  destruct (cap_reached max_visits (a_expanded st)) eqn:Hcap.
  { intros [= <-]. simpl. split; [exact HK|done]. }
  destruct (bool_decide (n ∈ a_visited st)) eqn:Hvisb.
  { apply bool_decide_eq_true in Hvisb as Hvis.
    apply (IH st0); [|done|exact HK].
    rewrite Hv0.
    apply (inv_skip EG allow_closed seeds targets h _ (view_a st)
             (map pr l1) (map pr l2) g n HI Hq').
    by left. }
  apply bool_decide_eq_false in Hvisb as Hvis.
  assert (Hin : (g, n) ∈ v_q (view_a st)).
  { rewrite Hq'. apply elem_of_app. right. by left. }
  destruct (inv_entry _ _ _ _ _ _ _ _ HI g n Hin) as (dn & Hdn & Hle).
  assert (Hfresh : gt_get g (a_gscore st !! n) = false).
  { simpl in Hdn. rewrite Hdn. simpl. apply Qltb_ge.
    destruct (inv_front _ _ _ _ _ _ _ _ HI n dn Hdn) as [?|Hfr]; [done|].
    specialize (Hmin _ Hfr). simpl in Hmin. lra. }
  rewrite Hfresh.
  assert (Hfresh' : forall d, v_dist (view_a st) !! n = Some d -> (g <= d)%Q).
  { intros d Hd. simpl in Hd. rewrite Hd in Hfresh. by apply gt_get_false. }
  destruct (bool_decide (n ∈ targets)) eqn:Htgt.
  { intros [= <-]. simpl. split.
    - destruct HK as [Hdom Hkk]. split; [done|]. intros x. specialize (Hkk x).
      simpl in *. destruct (a_prev st !! x) as [[u|]|]; try done.
      destruct Hkk as (Hu & Hrest). split; [set_solver|done].
    - intros t' c' [= <- <-]. exists dn. split; [done|].
      specialize (Hfresh' dn Hdn). lra. }
  set (st1 := AState (l1 ++ l2) (a_gscore st) (a_prev st) (a_expanded st + 1)
                ({[n]} ∪ a_visited st)).
  destruct (view_a_relax_fold EG allow_closed h n g (successors EG n) st1 Hk')
    as (E & Hk'').
  assert (Hv1 : view_a st1
                = View (map pr l1 ++ map pr l2) (v_dist (view_a st))
                    (v_prev (view_a st)) ({[n]} ∪ v_vis (view_a st))).
  { unfold view_a. simpl. by rewrite map_app. }
  apply IH; [| done |]; rewrite E, Hv1.
  - apply (inv_expand EG allow_closed seeds targets h Hcons _
             (view_a st) (map pr l1) (map pr l2) g n HI Hq' Hmin Hfresh').
    by apply bool_decide_eq_false in Htgt.
  - apply (cost_chain_expand EG allow_closed targets h Hcons seeds _
             (view_a st) (map pr l1) (map pr l2) g n HI HK Hq' Hfresh').
Qed.

End AStarCost.

Section CostReported.
Context `{RT : PyRuntime}.

Lemma search_result_time fuel EG σ expanded best r path :
  cost_chain EG σ ->
  (forall t c, best = Some (t, c) ->
     exists d, v_dist σ !! t = Some d /\ (d == c)%Q) ->
  search_result fuel (v_prev σ) expanded best = Ret r ->
  route_enodes r = Some path ->
  cost_eq (r_cost r) (compute_route_tt EG path).
Proof.
  intros HK Hbest. unfold search_result.
  destruct best as [[t c]|]; [|by intros [= <-]].
  destruct (Hbest t c eq_refl) as (d & Hd & Hdc).
  intros H. inv_bind H. injection H as <-. simpl. intros [= <-].
  destruct (prev_chain fuel (v_prev σ) (Some t)) as [p|] eqn:E; [|done].
  injection Ha as <-.
  destruct (cost_chain_route_time EG σ fuel t p d HK Hd E)
    as (s & rest & -> & _ & Hsum).
  simpl. lra.
Qed.

(** X12: with non-negative travel times and turn costs, the cost
    [dijkstra_route] reports is the travel time [compute_route_tt] gives
    the route it reports. *)
Theorem dijkstra_cost_is_route_time fuel EG s t constraints allow_closed
  max_visits r path :
  nonneg_costs EG ->
  dijkstra_route fuel EG s t constraints allow_closed max_visits = Ret r ->
  route_enodes r = Some path ->
  cost_eq (r_cost r) (compute_route_tt EG path).
Proof.
  intros Hnn. unfold dijkstra_route. intros H. inv_bind H.
  destruct a as [[starts tgts]|]; [|by injection H as <-].
  unfold dijkstra_search in H. inv_bind H.
  destruct (dijkstra_loop _ _ _ _ _ _) as [r0|] eqn:Hloop; [|done].
  injection Ha0 as <-.
  destruct (dijkstra_loop_cost EG allow_closed max_visits starts tgts Hnn
              fuel (dijkstra_init EG allow_closed starts) r0)
    as [HK Hbest]; [| |done|].
  { by apply dijkstra_init_inv. }
  { unfold dijkstra_init. rewrite view_d_seed_fold. apply cost_chain_seeded. }
  by apply (search_result_time fuel EG (view_d r0.1) (d_expanded r0.1) r0.2).
Qed.


End CostReported.

Lemma dijkstra_cost_is_route_time_witness :
  cost_eq (Fin 14)
    (compute_route_tt detour_graph
       [(1, 2, 0); (2, 3, 0); (3, 4, 0); (4, 5, 0); (5, 6, 0)]%Z).
Proof.
  apply (@dijkstra_cost_is_route_time example_runtime 20 detour_graph 1 6
           None false None
           {| route_nodes := Some [1; 2; 3; 4; 5; 6]%Z;
              route_enodes :=
                Some [(1, 2, 0); (2, 3, 0); (3, 4, 0); (4, 5, 0); (5, 6, 0)]%Z;
              r_cost := Fin 14; r_expanded := 6 |}).
  - by apply nonneg_costs_check_sound.
  - vm_compute. reflexivity.
  - reflexivity.
Defined.


(** ** [compute_route_tt] and the node list of a route *)

(** X14: one more segment at the end of a route adds its turn cost from
    the last segment (0.0 when the graph has no such transition) and its
    travel time to the time [compute_route_tt] gives the route. *)
Theorem compute_route_tt_snoc EG p w v :
  last p = Some w ->
  compute_route_tt EG (p ++ [v])
  = cost_add (cost_add (compute_route_tt EG p) (Fin (turn_cost EG w v)))
      (Fin (enode_travel_time EG v)).
Proof.
  destruct p as [|s rest]; [done|]. intros Hlast. simpl.
  by rewrite (route_tt_loop_snoc EG s rest v w).
Qed.

Lemma compute_route_tt_snoc_witness :
  compute_route_tt chain_graph ([(1, 2, 0)%Z] ++ [(2, 3, 0)%Z])
  = cost_add
      (cost_add (compute_route_tt chain_graph [(1, 2, 0)%Z])
         (Fin (turn_cost chain_graph (1, 2, 0)%Z (2, 3, 0)%Z)))
      (Fin (enode_travel_time chain_graph (2, 3, 0)%Z)).
Proof. apply compute_route_tt_snoc. reflexivity. Defined.

Lemma route_nodes_loop_app idx path acc :
  route_nodes_loop (S idx) path acc = acc ++ map (fun e => e.1.2) path.
Proof.
  revert idx acc. induction path as [|[[u v] k] path IH]; intros idx acc; simpl.
  - by rewrite app_nil_r.
  - rewrite IH. by rewrite <- app_assoc.
Qed.

(** X15: the node list of a route is the origin of its first segment
    followed by the destination of every segment, so it is one longer than
    the route; it is empty for the empty route. *)
Theorem to_route_nodes_shape :
  to_route_nodes [] = [] /\
  forall u v k rest,
    to_route_nodes ((u, v, k) :: rest)
    = u :: v :: map (fun e => e.1.2) rest /\
    length (to_route_nodes ((u, v, k) :: rest))
    = S (length ((u, v, k) :: rest)).
Proof.
  split; [done|]. intros u v k rest. unfold to_route_nodes. simpl.
  rewrite route_nodes_loop_app. simpl. split; [done|].
  by rewrite length_map.
Qed.

(** ** Start and target sets *)

Lemma filter_nil_forall {A} (P : A -> Prop) `{forall x, Decision (P x)}
  (l : list A) :
  (forall x, x ∈ l -> ~ P x) -> filter P l = [].
Proof.
  induction l as [|x l IH]; intros Hall; [done|].
  rewrite filter_cons. rewrite decide_False by (apply Hall; by left).
  apply IH. intros y Hy. apply Hall. by right.
Qed.

Section Endpoints.
Context `{RT : PyRuntime}.

(** X16: when no segment leaves the start node, or none arrives at the
    target node, each of the three searches returns the no-route result
    with no expansion, whatever the constraints, the speed and the cap; none
    raises. *)
Theorem no_endpoint_no_route fuel EG s t constraints vmax_mps allow_closed
  max_visits :
  (forall nd, nd ∈ eg_nodes EG -> orig_u nd.2 <> s) \/
  (forall nd, nd ∈ eg_nodes EG -> orig_v nd.2 <> t) ->
  dijkstra_route fuel EG s t constraints allow_closed max_visits
  = Ret (no_route 0) /\
  astar_route fuel EG s t constraints vmax_mps allow_closed max_visits
  = Ret (no_route 0) /\
  bidirectional_astar_route fuel EG s t vmax_mps allow_closed constraints
    max_visits
  = Ret (no_route 0).
Proof.
  intros Hno.
  assert (Hends : search_endpoints EG s t constraints = Ret None).
  { unfold search_endpoints.
    assert (bool_decide (enodes_from_start EG s = [])
            || bool_decide (target_nodes EG t = ∅) = true) as ->; [|done].
    destruct Hno as [Hs|Ht].
    - rewrite bool_decide_eq_true_2; [done|].
      unfold enodes_from_start. by rewrite filter_nil_forall.
    - rewrite (bool_decide_eq_true_2 (target_nodes EG t = ∅));
        [by rewrite orb_true_r|].
      unfold target_nodes. by rewrite filter_nil_forall. }
  unfold dijkstra_route, astar_route, bidirectional_astar_route.
  by rewrite Hends.
Qed.

Lemma filter_valid_all_rejected EG c l :
  (forall x, x ∈ l -> exists q, validate_single_edge EG x c = Ret (false, q)) ->
  filter_valid EG c l = Ret [].
Proof.
  induction l as [|x l IH]; intros Hall; [done|]. simpl.
  destruct (Hall x) as [q ->]; [by left|]. simpl.
  rewrite IH; [done|]. intros y Hy. apply Hall. by right.
Qed.

Lemma filter_valid_returns EG c l :
  (forall x, x ∈ l -> exists r, validate_single_edge EG x c = Ret r) ->
  exists l', filter_valid EG c l = Ret l'.
Proof.
  induction l as [|x l IH]; intros Hall; [by eexists|]. simpl.
  destruct (Hall x) as [r ->]; [by left|]. simpl.
  destruct IH as [l' ->]; [intros y Hy; apply Hall; by right|].
  simpl. by eexists.
Qed.

(** X17: when the constraints reject every segment arriving at the target
    node, [astar_route] and [bidirectional_astar_route] raise
    [StopIteration] (they sample a target from the emptied list), where
    [dijkstra_route] reports no route. *)
Theorem all_targets_rejected fuel EG s t c vmax_mps allow_closed max_visits :
  enodes_from_start EG s <> [] -> target_nodes EG t <> ∅ -> dom c <> ∅ ->
  (forall x, x ∈ enodes_from_start EG s ->
     exists r, validate_single_edge EG x c = Ret r) ->
  (forall x, x ∈ target_nodes EG t ->
     exists q, validate_single_edge EG x c = Ret (false, q)) ->
  astar_route fuel EG s t (Some c) vmax_mps allow_closed max_visits
  = Raise StopIteration /\
  bidirectional_astar_route fuel EG s t vmax_mps allow_closed (Some c)
    max_visits
  = Raise StopIteration /\
  forall r,
    dijkstra_route fuel EG s t (Some c) allow_closed max_visits = Ret r ->
    route_enodes r = None.
Proof.
  intros Hs Ht Hc Hstart Htgt.
  destruct (filter_valid_returns EG c (enodes_from_start EG s) Hstart)
    as [starts Hstarts].
  assert (Hends : search_endpoints EG s t (Some c) = Ret (Some (starts, []))).
  { unfold search_endpoints.
    rewrite !bool_decide_eq_false_2 by done. simpl.
    rewrite Hstarts. simpl.
    rewrite filter_valid_all_rejected; [done|].
    intros x Hx. apply Htgt. by apply py_set_iter_elem. }
  unfold dijkstra_route, astar_route, bidirectional_astar_route.
  rewrite Hends. simpl. split; [done|]. split; [done|].
  intros r H. unfold dijkstra_search in H. inv_bind H.
  destruct (dijkstra_loop _ _ _ _ _ _) as [[st' res]|] eqn:Hloop; [|done].
  injection Ha as <-. simpl in H.
  destruct res as [[t' c']|]; [|by injection H as <-].
  destruct (dijkstra_loop_shape EG allow_closed max_visits starts [] fuel
              (dijkstra_init EG allow_closed starts) st' (Some (t', c')))
    as [_ Hbest]; [|done|].
  { unfold dijkstra_init. apply dijkstra_seed_shape; [|done].
    split; [apply prev_sound_empty|]. simpl. intros n Hn.
    by apply elem_of_nil in Hn. }
  destruct (Hbest t' c' eq_refl) as [Hin _]. by apply elem_of_nil in Hin.
Qed.

End Endpoints.

Lemma no_endpoint_no_route_witness :
  dijkstra_route (RT := example_runtime) 5 chain_graph 7 3 None false None
  = Ret (no_route 0) /\
  astar_route (RT := example_runtime) 5 chain_graph 7 3 None 30 false None
  = Ret (no_route 0) /\
  bidirectional_astar_route (RT := example_runtime) 5 chain_graph 7 3 30
    false None None
  = Ret (no_route 0).
Proof.
  apply (@no_endpoint_no_route example_runtime 5 chain_graph 7 3 None 30
           false None).
  left. intros nd Hnd.
  repeat (apply elem_of_cons in Hnd as [->|Hnd]; [done|]).
  by apply elem_of_nil in Hnd.
Defined.

Lemma all_targets_rejected_witness :
  astar_route (RT := example_runtime) 5 bridge_graph 1 2
    (Some (height_limit (5 # 2))) 30 false None
  = Raise StopIteration /\
  bidirectional_astar_route (RT := example_runtime) 5 bridge_graph 1 2 30
    false (Some (height_limit (5 # 2))) None
  = Raise StopIteration /\
  forall r,
    dijkstra_route (RT := example_runtime) 5 bridge_graph 1 2
      (Some (height_limit (5 # 2))) false None = Ret r ->
    route_enodes r = None.
Proof.
  apply (@all_targets_rejected example_runtime 5 bridge_graph 1 2
           (height_limit (5 # 2)) 30 false None).
  - discriminate.
  - intros H. assert (Hin : (1, 2, 0)%Z ∈ target_nodes bridge_graph 2)
      by by apply (bool_decide_unpack _).
    rewrite H in Hin. by apply elem_of_empty in Hin.
  - intros H. assert (Hin : "max_height" ∈ dom (height_limit (5 # 2)))
      by by apply (bool_decide_unpack _).
    rewrite H in Hin. by apply elem_of_empty in Hin.
  - intros x Hx. apply list_elem_of_singleton in Hx as ->. by eexists.
  - intros x Hx.
    assert (x = (1, 2, 0)%Z) as ->.
    { unfold target_nodes, bridge_graph in Hx. simpl in Hx. set_solver. }
    by eexists.
Defined.

(** ** [dijkstra_route] finds a route when there is one *)

Lemma reach_route EG allow_closed (seeds : list segment) n c :
  reach EG allow_closed seeds n c ->
  exists s rest,
    s ∈ seeds /\ passable EG allow_closed s /\
    linked EG allow_closed s rest /\ last (s :: rest) = Some n.
Proof.
  induction 1 as [s Hs Ha|u c v Hr (s & rest & Hs & Ha & Hl & Hlast) Hv Hva].
  - by exists s, [].
  - exists s, (rest ++ [v]). split; [done|]. split; [done|]. split.
    + by apply linked_snoc with u.
    + change (s :: rest ++ [v]) with ((s :: rest) ++ [v]). by rewrite last_snoc.
Qed.

Section Complete.
Context `{RT : PyRuntime}.

(** X18: with non-negative travel times and turn costs and no cap,
    [dijkstra_route] comes to an end, and it reports no route only when
    there is none: no list of segments leads from the start set to the
    target set along transitions over segments the closed-segment filter
    lets through. *)
Theorem dijkstra_route_complete EG s t constraints allow_closed starts tgts :
  nonneg_costs EG ->
  search_endpoints EG s t constraints = Ret (Some (starts, tgts)) ->
  exists fuel0, forall fuel, (fuel0 <= fuel)%nat ->
    exists r,
      dijkstra_route fuel EG s t constraints allow_closed None = Ret r /\
      (route_enodes r = None <->
       forall p, ~ search_route EG allow_closed starts tgts p).
Proof.
  intros Hnn Hends.
  destruct (dijkstra_route_returns EG s t constraints allow_closed None _
              Hnn Hends) as [fuel0 Hret].
  exists fuel0. intros fuel Hfuel. destruct (Hret fuel Hfuel) as [r Hr].
  exists r. split; [done|].
  destruct (dijkstra_route_spec fuel EG s t constraints allow_closed None
              starts tgts r Hnn Hends Hr) as (prev & res & Hgood & _ & Hnone).
  rewrite Hnone. destruct res as [[t' c]|]; simpl in Hgood.
  - destruct Hgood as (Ht' & Hreach & _).
    split; [done|]. intros Hno. exfalso.
    destruct (reach_route _ _ _ _ _ Hreach) as (s0 & rest & Hs & Ha & Hl & Hlast).
    apply (Hno (s0 :: rest)). simpl. repeat split; try done. by exists t'.
  - split; [|done]. intros _ p Hp.
    destruct (search_route_reach EG allow_closed starts tgts p Hp)
      as (t' & c & Ht' & Hreach & _).
    by apply (Hgood eq_refl t' c).
Qed.

End Complete.

Lemma dijkstra_route_complete_witness :
  exists fuel0, forall fuel, (fuel0 <= fuel)%nat ->
    exists r,
      dijkstra_route (RT := example_runtime) fuel chain_graph 1 3 None false
        None = Ret r /\
      (route_enodes r = None <->
       forall p, ~ search_route chain_graph false [(1, 2, 0)%Z] [(2, 3, 0)%Z] p).
Proof.
  apply (@dijkstra_route_complete example_runtime chain_graph 1 3 None false
           [(1, 2, 0)%Z] [(2, 3, 0)%Z]).
  - by apply nonneg_costs_check_sound.
  - reflexivity.
Defined.

(** ** The expansion counter and the cap *)

Section Counter.
Variables (EG : edge_graph) (allow_closed : bool).

Lemma dijkstra_relax_expanded n g l st :
  d_expanded (fold_left (dijkstra_relax EG allow_closed n g) l st)
  = d_expanded st.
Proof.
  revert st. induction l as [|v l IH]; intros st; [done|]. simpl.
  rewrite IH. unfold dijkstra_relax.
  destruct (skip_closed EG allow_closed v); [done|]. by destruct (lt_get _ _).
Qed.

Lemma dijkstra_seed_expanded l st :
  d_expanded (fold_left (dijkstra_seed EG allow_closed) l st) = d_expanded st.
Proof.
  revert st. induction l as [|v l IH]; intros st; [done|]. simpl.
  rewrite IH. unfold dijkstra_seed.
  by destruct (skip_closed EG allow_closed v).
Qed.

Lemma dijkstra_loop_expanded m targets fuel st r :
  (0 <= d_expanded st <= Z.max 0 m)%Z ->
  dijkstra_loop EG allow_closed (Some m) targets fuel st = Some r ->
  (0 <= d_expanded r.1 <= Z.max 0 m)%Z.
Proof.
  revert st. induction fuel as [|fuel IH]; intros st Hb; [done|]. simpl.
  destruct (heappop entry_le (d_pq st)) as [[[c n] pq]|]; [|by intros [= <-]].
  simpl. destruct (Z.leb_spec m (d_expanded st)); [by intros [= <-]|].
  destruct (gt_get c (d_dist st !! n)); [by apply IH|].
  destruct (bool_decide (n ∈ targets)).
  - intros [= <-]. simpl. lia.
  - apply IH. rewrite dijkstra_relax_expanded. simpl. lia.
Qed.

Lemma astar_relax_expanded h n g l st :
  a_expanded (fold_left (astar_relax EG allow_closed h n g) l st)
  = a_expanded st.
Proof.
  revert st. induction l as [|v l IH]; intros st; [done|]. simpl.
  rewrite IH. unfold astar_relax.
  destruct (skip_closed EG allow_closed v); [done|]. by destruct (lt_get _ _).
Qed.

Lemma astar_seed_expanded h l st :
  a_expanded (fold_left (astar_seed EG allow_closed h) l st) = a_expanded st.
Proof.
  revert st. induction l as [|v l IH]; intros st; [done|]. simpl.
  rewrite IH. unfold astar_seed.
  by destruct (skip_closed EG allow_closed v).
Qed.

Lemma astar_loop_expanded m targets h fuel st r :
  (0 <= a_expanded st <= Z.max 0 m)%Z ->
  astar_loop EG allow_closed (Some m) targets h fuel st = Some r ->
  (0 <= a_expanded r.1 <= Z.max 0 m)%Z.
Proof.
  revert st. induction fuel as [|fuel IH]; intros st Hb; [done|]. simpl.
  destruct (heappop entry3_le (a_heap st)) as [[[[f g] n] heap]|];
    [|by intros [= <-]].
  simpl. destruct (Z.leb_spec m (a_expanded st)); [by intros [= <-]|].
  destruct (bool_decide (n ∈ a_visited st)); [by apply IH|].
  destruct (gt_get g (a_gscore st !! n)); [by apply IH|].
  destruct (bool_decide (n ∈ targets)).
  - intros [= <-]. simpl. lia.
  - apply IH. rewrite astar_relax_expanded. simpl. lia.
Qed.

Lemma bidir_meet_expanded other n g st :
  b_expanded (bidir_meet other n g st) = b_expanded st /\
  open_bwd (bidir_meet other n g st) = open_bwd st.
Proof.
  unfold bidir_meet. destruct (other !! n); [|done].
  by destruct (cost_lt _ _).
Qed.

Lemma bidir_relax_fwd_expanded hf n g l st :
  b_expanded (fold_left (bidir_relax_fwd EG allow_closed hf n g) l st)
  = b_expanded st.
Proof.
  revert st. induction l as [|v l IH]; intros st; [done|]. simpl.
  rewrite IH. unfold bidir_relax_fwd.
  destruct (skip_closed EG allow_closed v); [done|]. by destruct (lt_get _ _).
Qed.

Lemma bidir_relax_bwd_expanded hb n g l st :
  b_expanded (fold_left (bidir_relax_bwd EG allow_closed hb n g) l st)
  = b_expanded st.
Proof.
  revert st. induction l as [|v l IH]; intros st; [done|]. simpl.
  rewrite IH. unfold bidir_relax_bwd.
  destruct (skip_closed EG allow_closed v); [done|]. by destruct (lt_get _ _).
Qed.

Lemma bidir_seed_expanded hf hb starts tgts :
  b_expanded (bidir_init EG allow_closed hf hb starts tgts) = 0%Z.
Proof.
  unfold bidir_init.
  assert (Hf : forall l st,
    b_expanded (fold_left (bidir_seed_fwd EG allow_closed hf) l st)
    = b_expanded st).
  { induction l as [|v l IH]; intros st; [done|]. simpl. rewrite IH.
    unfold bidir_seed_fwd. by destruct (skip_closed EG allow_closed v). }
  assert (Hb : forall l st,
    b_expanded (fold_left (bidir_seed_bwd EG allow_closed hb) l st)
    = b_expanded st).
  { induction l as [|v l IH]; intros st; [done|]. simpl. rewrite IH.
    unfold bidir_seed_bwd. by destruct (skip_closed EG allow_closed v). }
  by rewrite Hb, Hf.
Qed.

Lemma bidir_step_bwd_expanded hb st :
  (b_expanded st <= b_expanded (bidir_step_bwd EG allow_closed hb st)
   <= b_expanded st + 1)%Z.
Proof.
  unfold bidir_step_bwd.
  destruct (heappop entry3_le (open_bwd st)) as [[[[f g] n] heap]|]; [|lia].
  simpl. destruct (gt_get g (g_bwd st !! n)); simpl; [lia|].
  rewrite bidir_relax_bwd_expanded.
  destruct (bidir_meet_expanded (g_fwd st) n g
              (BState (open_fwd st) heap (g_fwd st) (g_bwd st) (prev_fwd st)
                 (prev_bwd st) (b_expanded st + 1) (best_cost st)
                 (meeting_node st))) as [-> _].
  simpl. lia.
Qed.

Lemma bidir_loop_expanded m hf hb fuel st st' :
  m <> 0%Z ->
  (0 <= b_expanded st <= Z.max 0 (m + 1))%Z ->
  bidir_loop EG allow_closed (Some m) hf hb fuel st = Some st' ->
  (0 <= b_expanded st' <= Z.max 0 (m + 1))%Z.
Proof.
  intros Hm. revert st. induction fuel as [|fuel IH]; intros st Hb; [done|].
  simpl. destruct (open_bwd st) as [|e0 bw]; [by intros [= <-]|].
  destruct (heappop entry3_le (open_fwd st)) as [[[[f g] n] heap]|];
    [|by intros [= <-]].
  simpl. rewrite (proj2 (Z.eqb_neq m 0) Hm). simpl.
  destruct (Z.leb_spec m (b_expanded st)); [by intros [= <-]|].
  destruct (gt_get g (g_fwd st !! n)).
  - apply IH. simpl. lia.
  - apply IH.
    match goal with
    | |- context [bidir_step_bwd EG allow_closed hb ?s] =>
        pose proof (bidir_step_bwd_expanded hb s) as Hstep
    end.
    rewrite bidir_relax_fwd_expanded in Hstep.
    match type of Hstep with
    | context [bidir_meet ?o ?x ?y ?s] =>
        destruct (bidir_meet_expanded o x y s) as [E _]
    end.
    rewrite E in Hstep. simpl in Hstep. lia.
Qed.

End Counter.

Section Cap.
Context `{RT : PyRuntime}.

Lemma search_result_expanded fuel prev expanded best r :
  search_result fuel prev expanded best = Ret r -> r_expanded r = expanded.
Proof.
  unfold search_result. destruct best as [[t c]|]; [|by intros [= <-]].
  intros H. inv_bind H. by injection H as <-.
Qed.

(** X19: under a cap of [m] expansions, [dijkstra_route] and
    [astar_route] never count more than [m] of them (none when [m] is
    negative); [bidirectional_astar_route], which checks the cap once per
    turn and expands on both sides after it, may count one more, and does
    not cap at all when [m] is 0. *)
Theorem expansions_within_cap fuel EG s t constraints vmax_mps allow_closed
  m :
  (forall r,
     dijkstra_route fuel EG s t constraints allow_closed (Some m) = Ret r ->
     (0 <= r_expanded r <= Z.max 0 m)%Z) /\
  (forall r,
     astar_route fuel EG s t constraints vmax_mps allow_closed (Some m)
     = Ret r ->
     (0 <= r_expanded r <= Z.max 0 m)%Z) /\
  (forall r,
     m <> 0%Z ->
     bidirectional_astar_route fuel EG s t vmax_mps allow_closed constraints
       (Some m) = Ret r ->
     (0 <= r_expanded r <= Z.max 0 (m + 1))%Z).
Proof.
  split; [|split].
  - intros r. unfold dijkstra_route. intros H. inv_bind H.
    destruct a as [[starts tgts]|]; [|injection H as <-; simpl; lia].
    unfold dijkstra_search in H. inv_bind H.
    destruct (dijkstra_loop _ _ _ _ _ _) as [r0|] eqn:Hloop; [|done].
    injection Ha0 as <-. apply search_result_expanded in H as ->.
    apply (dijkstra_loop_expanded EG allow_closed m tgts fuel _ r0) in Hloop;
      [done|].
    unfold dijkstra_init. rewrite dijkstra_seed_expanded. simpl. lia.
  - intros r. unfold astar_route. intros H. inv_bind H.
    destruct a as [[starts tgts]|]; [|injection H as <-; simpl; lia].
    destruct tgts as [|sample tgts]; [done|].
    destruct (Qeq_bool vmax_mps 0 && _); [done|].
    unfold astar_search in H. inv_bind H.
    destruct (astar_loop _ _ _ _ _ _ _) as [r0|] eqn:Hloop; [|done].
    injection Ha0 as <-. apply search_result_expanded in H as ->.
    apply (astar_loop_expanded EG allow_closed m _ _ fuel _ r0) in Hloop;
      [done|].
    unfold astar_init. rewrite astar_seed_expanded. simpl. lia.
  - intros r Hm. unfold bidirectional_astar_route. intros H. inv_bind H.
    destruct a as [[starts tgts]|]; [|injection H as <-; simpl; lia].
    destruct tgts as [|sample_t tgts]; [done|].
    destruct starts as [|sample_s starts]; [done|].
    destruct (Qeq_bool vmax_mps 0 && _); [done|].
    unfold bidir_search in H. inv_bind H.
    destruct (bidir_loop _ _ _ _ _ _ _) as [st'|] eqn:Hloop; [|done].
    injection Ha0 as <-.
    apply (bidir_loop_expanded EG allow_closed m _ _ fuel _ st' Hm) in Hloop.
    2: { rewrite bidir_seed_expanded. lia. }
    unfold bidir_result in H.
    destruct (meeting_node st'); [|by injection H as <-].
    inv_bind H. inv_bind H. by injection H as <-.
Qed.

End Cap.

Lemma expansions_within_cap_witness :
  (0 <= r_expanded
          {| route_nodes := Some [1; 2; 3]%Z;
             route_enodes := Some [(1, 2, 0); (2, 3, 0)]%Z;
             r_cost := Fin 3; r_expanded := 2 |}
   <= Z.max 0 (1 + 1))%Z.
Proof.
  apply (proj2 (proj2 (@expansions_within_cap example_runtime 10 chain_graph
                         1 3 None 30 false 1))
           {| route_nodes := Some [1; 2; 3]%Z;
              route_enodes := Some [(1, 2, 0); (2, 3, 0)]%Z;
              r_cost := Fin 3; r_expanded := 2 |});
    [lia|reflexivity].
Defined.

(** ** Traffic *)

Lemma assoc_map_data {A} (f : segment -> A -> A) n (l : list (segment * A)) :
  assoc n (map (fun nd => (nd.1, f nd.1 nd.2)) l) = f n <$> assoc n l.
Proof.
  induction l as [|[k a] l IH]; [done|]. simpl.
  destruct (decide (k = n)) as [->|Hne]; [done|]. apply IH.
Qed.

Lemma apply_traffic_node_data EG traffic_data n :
  node_data (apply_traffic_to_graph EG traffic_data) n
  = match assoc n (eg_nodes EG), traffic_data !! _edge_id_str n with
    | Some data, Some mult => set_traffic_mult data mult
    | _, _ => node_data EG n
    end.
Proof.
  unfold node_data, apply_traffic_to_graph. simpl.
  set (f := fun (k : segment) (d : seg_data) =>
              match traffic_data !! _edge_id_str k with
              | Some mult => set_traffic_mult d mult
              | None => d
              end).
  rewrite (map_ext _ (fun nd => (nd.1, f nd.1 nd.2))).
  2: { intros [k d]. unfold f. simpl.
       by destruct (traffic_data !! _edge_id_str k). }
  rewrite (assoc_map_data f). unfold f.
  destruct (assoc n (eg_nodes EG)) as [d|]; simpl; [|done].
  by destruct (traffic_data !! _edge_id_str n).
Qed.

(** What [apply_traffic_to_graph] leaves as it is. *)
Lemma apply_traffic_node_data_same EG traffic_data n :
  exists data',
    node_data (apply_traffic_to_graph EG traffic_data) n = data' /\
    orig_u data' = orig_u (node_data EG n) /\
    orig_v data' = orig_v (node_data EG n) /\
    travel_time data' = travel_time (node_data EG n) /\
    penalty data' = penalty (node_data EG n) /\
    closed data' = closed (node_data EG n) /\
    bridge data' = bridge (node_data EG n) /\
    tunnel data' = tunnel (node_data EG n) /\
    maxheight data' = maxheight (node_data EG n) /\
    maxweight data' = maxweight (node_data EG n) /\
    lanes data' = lanes (node_data EG n) /\
    highway data' = highway (node_data EG n).
Proof.
  eexists. split; [done|]. rewrite apply_traffic_node_data.
  unfold node_data.
  destruct (assoc n (eg_nodes EG)) as [d|]; [|done].
  by destruct (traffic_data !! _edge_id_str n).
Qed.

Section Traffic.
Context `{RT : PyRuntime}.

(** X20: [apply_traffic_to_graph] changes travel times only: the
    transitions and their turn costs, the segments leaving and arriving at
    a node, what is closed, and the verdict and penalty of
    [validate_single_edge] are the same on the updated graph. *)
Theorem apply_traffic_keeps_the_rest EG traffic_data :
  (forall n, successors (apply_traffic_to_graph EG traffic_data) n
             = successors EG n) /\
  (forall u v, turn_cost (apply_traffic_to_graph EG traffic_data) u v
               = turn_cost EG u v) /\
  (forall s, enodes_from_start (apply_traffic_to_graph EG traffic_data) s
             = enodes_from_start EG s) /\
  (forall t, target_nodes (apply_traffic_to_graph EG traffic_data) t
             = target_nodes EG t) /\
  (forall n, is_enode_closed (apply_traffic_to_graph EG traffic_data) n
             = is_enode_closed EG n) /\
  (forall n c, validate_single_edge (apply_traffic_to_graph EG traffic_data)
                 n c
               = validate_single_edge EG n c).
Proof.
  assert (Hfilter : forall (key : seg_data -> Z) (x : Z),
    (forall d m, key (set_traffic_mult d m) = key d) ->
    map fst (filter (fun nd => key nd.2 = x)
               (eg_nodes (apply_traffic_to_graph EG traffic_data)))
    = map fst (filter (fun nd => key nd.2 = x) (eg_nodes EG))).
  { intros key x Hkey. unfold apply_traffic_to_graph. simpl.
    induction (eg_nodes EG) as [|[k d] l IH]; [done|]. simpl.
    rewrite !filter_cons. simpl.
    destruct (traffic_data !! _edge_id_str k) as [m|]; simpl.
    - rewrite Hkey. destruct (decide (key d = x)); simpl; by rewrite IH.
    - destruct (decide (key d = x)); simpl; by rewrite IH. }
  split; [done|]. split; [done|]. split; [|split; [|split]].
  - intros s. unfold enodes_from_start.
    by apply (Hfilter orig_u).
  - intros t. unfold target_nodes. f_equal.
    by apply (Hfilter orig_v).
  - intros n. unfold is_enode_closed.
    destruct (apply_traffic_node_data_same EG traffic_data n)
      as (d' & -> & _ & _ & _ & _ & -> & _). done.
  - intros n c.
    destruct (apply_traffic_node_data_same EG traffic_data n)
      as (d' & Hd' & _ & _ & _ & _ & Hcl & Hbr & Htu & Hmh & Hmw & Hla & Hhw).
    unfold validate_single_edge, bridge_rejects, tunnel_rejects,
      lanes_rejects, soft_penalty, closed_general, closed_keyed, allow_lists.
    rewrite Hd'. cbv zeta.
    by rewrite Hcl, Hbr, Htu, Hmh, Hmw, Hla, Hhw.
Qed.

End Traffic.

(** X21: after [apply_traffic_to_graph] the travel time of a segment of
    the graph whose id is in the traffic data is its base travel time
    times the multiplier of the data, plus its penalty; the travel time of
    every other segment is what it was. *)
Theorem apply_traffic_travel_time EG traffic_data n :
  enode_travel_time (apply_traffic_to_graph EG traffic_data) n
  = match assoc n (eg_nodes EG), traffic_data !! _edge_id_str n with
    | Some data, Some mult =>
        (default 0 (travel_time data) * mult + default 0 (penalty data))%Q
    | _, _ => enode_travel_time EG n
    end.
Proof.
  unfold enode_travel_time. rewrite apply_traffic_node_data.
  destruct (assoc n (eg_nodes EG)) as [d|]; [|done].
  by destruct (traffic_data !! _edge_id_str n).
Qed.

(** ** Reading numbers out of attributes *)

Lemma max_list_spec l m :
  max_list l = Some m -> m ∈ l /\ forall x, x ∈ l -> (x <= m)%Q.
Proof.
  destruct l as [|x0 l]; [done|]. simpl. intros [= <-].
  assert (Hgen : forall l a,
    let m := fold_left (fun a b : Q => if Qltb a b then b else a) l a in
    (m = a \/ m ∈ l) /\ (a <= m)%Q /\ forall x, x ∈ l -> (x <= m)%Q).
  { clear. induction l as [|b l IH]; intros a; simpl.
    - split; [by left|]. split; [lra|]. intros x Hx.
      by apply elem_of_nil in Hx.
    - destruct (Qltb a b) eqn:E.
      + destruct (IH b) as (Hm & Hle & Hall). apply Qltb_lt in E.
        split; [|split].
        * right. destruct Hm as [->|Hm]; [by left|by right].
        * lra.
        * intros x [->|Hx]%elem_of_cons; [done|by apply Hall].
      + destruct (IH a) as (Hm & Hle & Hall). apply Qltb_ge in E.
        split; [|split].
        * destruct Hm as [->|Hm]; [by left|right; by right].
        * done.
        * intros x [->|Hx]%elem_of_cons; [lra|by apply Hall]. }
  destruct (Hgen l x0) as (Hm & Hle & Hall). split.
  - destruct Hm as [->|Hm]; [by left|by right].
  - intros x [->|Hx]%elem_of_cons; [done|by apply Hall].
Qed.

Lemma max_listZ_spec l m :
  max_listZ l = Some m -> m ∈ l /\ forall x, x ∈ l -> (x <= m)%Z.
Proof.
  destruct l as [|x0 l]; [done|]. simpl. intros [= <-].
  assert (Hgen : forall l a,
    let m := fold_left Z.max l a in
    (m = a \/ m ∈ l) /\ (a <= m)%Z /\ forall x, x ∈ l -> (x <= m)%Z).
  { clear. induction l as [|b l IH]; intros a; simpl.
    - split; [by left|]. split; [lia|]. intros x Hx.
      by apply elem_of_nil in Hx.
    - destruct (IH (Z.max a b)) as (Hm & Hle & Hall).
      split; [|split].
      + destruct Hm as [Hm|Hm]; [|right; by right].
        rewrite Hm. destruct (Z.max_spec a b) as [[_ ->]|[_ ->]];
          [right; by left|by left].
      + lia.
      + intros x [->|Hx]%elem_of_cons; [lia|by apply Hall]. }
  destruct (Hgen l x0) as (Hm & Hle & Hall). split.
  - destruct Hm as [->|Hm]; [by left|by right].
  - intros x [->|Hx]%elem_of_cons; [done|by apply Hall].
Qed.

Section SafeNumbers.
Context `{RT : PyRuntime}.


End SafeNumbers.

(** ** The loop of [astar_route] comes to an end *)

Section AStarEnds.
Variables (EG : edge_graph) (allow_closed : bool) (max_visits : option Z).
Variables (targets : list segment) (h : segment -> Q).

Lemma astar_relax_grows n g l st :
  (length (a_heap (fold_left (astar_relax EG allow_closed h n g) l st))
   <= length (a_heap st) + length l)%nat /\
  a_visited (fold_left (astar_relax EG allow_closed h n g) l st)
  = a_visited st.
Proof.
  revert st. induction l as [|v l IH]; intros st; simpl; [split; [lia|done]|].
  destruct (IH (astar_relax EG allow_closed h n g st v)) as [Hl Hv].
  assert ((length (a_heap (astar_relax EG allow_closed h n g st v))
           <= S (length (a_heap st)))%nat /\
          a_visited (astar_relax EG allow_closed h n g st v) = a_visited st)
    as [Hl1 Hv1].
  { unfold astar_relax. destruct (skip_closed EG allow_closed v);
      [split; [lia|done]|].
    cbv zeta. destruct (lt_get _ _); simpl; split; try done; lia. }
  split; [lia|congruence].
Qed.

Lemma unvisited_edges_count (vis : gset segment) n
  (es : list (segment * segment * option Q)) :
  n ∉ vis ->
  (length (filter (fun e => e.1.1 ∉ {[n]} ∪ vis) es)
   + length (filter (fun e => e.1.1 = n) es)
   = length (filter (fun e => e.1.1 ∉ vis) es))%nat.
Proof.
  intros Hn. induction es as [|e es IH]; [done|].
  rewrite !filter_cons.
  destruct (decide (e.1.1 = n)) as [E|E].
  - rewrite decide_False by (clear IH; set_solver).
    rewrite decide_True by (rewrite E; done). simpl. lia.
  - destruct (decide (e.1.1 ∈ vis)).
    + rewrite decide_False by (clear IH; set_solver).
      rewrite decide_False by (clear IH; set_solver). done.
    + rewrite decide_True by (clear IH; set_solver).
      rewrite decide_True by (clear IH; set_solver). simpl. lia.
Qed.

Lemma astar_loop_ends fuel st :
  (search_measure EG (view_a st) < fuel)%nat ->
  exists r, astar_loop EG allow_closed max_visits targets h fuel st = Some r.
Proof.
  revert st. induction fuel as [|fuel IH]; intros st Hlt; [lia|].
  simpl.
  destruct (heappop entry3_le (a_heap st)) as [[[[f g] n] heap]|] eqn:Hpop;
    [|by eexists].
  destruct (heappop_split _ _ _ _ Hpop) as (l1 & l2 & Hq & ->).
  unfold search_measure in Hlt. simpl in Hlt.
  rewrite Hq, length_map, length_app in Hlt. simpl in Hlt.
  simpl. destruct (cap_reached max_visits (a_expanded st)); [by eexists|].
  destruct (bool_decide (n ∈ a_visited st)) eqn:Hvis.
  { apply IH. unfold search_measure. simpl.
    rewrite length_map, length_app. lia. }
  apply bool_decide_eq_false in Hvis.
  pose proof (unvisited_edges_count (a_visited st) n (eg_edges EG) Hvis)
    as Hsplit.
  destruct (gt_get g (a_gscore st !! n)).
  { apply IH. unfold search_measure. simpl.
    rewrite length_map, length_app. lia. }
  destruct (bool_decide (n ∈ targets)); [by eexists|].
  apply IH. unfold search_measure. simpl. rewrite length_map.
  match goal with
  | |- context [fold_left ?f ?l ?s] =>
      destruct (astar_relax_grows n g l s) as [Hl Hv]
  end.
  rewrite Hv. simpl in *. rewrite length_app in Hl.
  rewrite length_successors in Hl. lia.
Qed.

(** X23: the loop of [astar_route] comes to an end from every state, on
    every graph and with every heuristic, negative costs and cycles
    included: a segment is expanded once at most, so the turns of the loop
    are bounded by the entries in the heap plus the transitions out of
    segments not visited yet. *)
Theorem astar_loop_terminates st fuel :
  exists r,
    astar_loop EG allow_closed max_visits targets h
      (S (search_measure EG (view_a st)) + fuel) st = Some r.
Proof. apply astar_loop_ends. lia. Qed.

End AStarEnds.

(** ** The reported cost bounds the time of the reported route *)

Section CostBound.
Variables (tt : segment -> Q) (w : segment -> segment -> Q).
Hypothesis Htt : forall x, (0 <= tt x)%Q.
Hypothesis Hw : forall x y, (0 <= w x y)%Q.

Lemma cost_bound_update entries dist prev n g v cand :
  entries_above entries dist -> cost_bound tt w dist prev ->
  (exists dn, dist !! n = Some dn /\ (dn <= g)%Q) ->
  (cand == g + w n v + tt v)%Q ->
  lt_get cand (dist !! v) = true ->
  entries_above ((cand, v) :: entries) (<[v := cand]> dist) /\
  cost_bound tt w (<[v := cand]> dist) (<[v := Some n]> prev) /\
  (forall x d, dist !! x = Some d ->
     exists d', <[v := cand]> dist !! x = Some d' /\ (d' <= d)%Q).
Proof.
  intros He [Hdom Hk] (dn & Hdn & Hle) Hcand Hlt.
  assert (Hold : forall dv, dist !! v = Some dv -> (cand < dv)%Q).
  { intros dv Hdv. rewrite Hdv in Hlt. by apply lt_get_true. }
  assert (Hvn : v <> n).
  { intros ->. specialize (Hold dn Hdn). specialize (Htt n).
    specialize (Hw n n). lra. }
  assert (Hdec : forall x d, dist !! x = Some d ->
            exists d', <[v := cand]> dist !! x = Some d' /\ (d' <= d)%Q).
  { intros x d Hd. destruct (decide (x = v)) as [->|Hne].
    - exists cand. rewrite lookup_insert_eq. split; [done|].
      specialize (Hold d Hd). lra.
    - exists d. rewrite lookup_insert_ne by done. split; [done|lra]. }
  split; [|split; [|done]].
  - intros g' x [[= -> ->]|Hin]%elem_of_cons.
    + exists cand. rewrite lookup_insert_eq. split; [done|lra].
    + destruct (He g' x Hin) as (d & Hd & Hdg).
      destruct (Hdec x d Hd) as (d' & Hd' & Hle'). exists d'.
      split; [done|lra].
  - split.
    + intros x. destruct (decide (x = v)) as [->|Hne].
      * by rewrite !lookup_insert_eq.
      * rewrite !lookup_insert_ne by done. apply Hdom.
    + intros x. destruct (decide (x = v)) as [->|Hne].
      * rewrite lookup_insert_eq. exists dn, cand.
        rewrite lookup_insert_ne by done. rewrite lookup_insert_eq.
        split; [done|]. split; [done|]. lra.
      * rewrite lookup_insert_ne by done. specialize (Hk x).
        destruct (prev !! x) as [[u|]|]; [| |done].
        -- destruct Hk as (du & dx & Hdu & Hdx & Hb).
           destruct (Hdec u du Hdu) as (du' & Hdu' & Hle').
           exists du', dx. split; [done|].
           rewrite lookup_insert_ne by done. split; [done|lra].
        -- destruct Hk as (d & Hd & Hb). exists d.
           by rewrite lookup_insert_ne.
Qed.

Lemma cost_bound_seed (entries : list (Q * segment))
  (dist : gmap segment Q)
  (prev : gmap segment (option segment)) s :
  (forall g n, (g, n) ∈ entries -> g = tt n /\ dist !! n = Some g) ->
  (forall n, match prev !! n with
             | Some None => dist !! n = Some (tt n)
             | Some (Some _) => False
             | None => dist !! n = None
             end) ->
  (forall g n, (g, n) ∈ (tt s, s) :: entries ->
     g = tt n /\ <[s := tt s]> dist !! n = Some g) /\
  (forall n, match <[s := None]> prev !! n with
             | Some None => <[s := tt s]> dist !! n = Some (tt n)
             | Some (Some _) => False
             | None => <[s := tt s]> dist !! n = None
             end).
Proof.
  intros He Hp. split.
  - intros g n [[= -> ->]|Hin]%elem_of_cons.
    + by rewrite lookup_insert_eq.
    + destruct (He g n Hin) as [-> Hn]. split; [done|].
      destruct (decide (n = s)) as [->|Hne].
      * by rewrite lookup_insert_eq.
      * by rewrite lookup_insert_ne.
  - intros n. destruct (decide (n = s)) as [->|Hne].
    + by rewrite !lookup_insert_eq.
    + rewrite !lookup_insert_ne by done. apply Hp.
Qed.

Lemma cost_bound_seeded (entries : list (Q * segment))
  (dist : gmap segment Q)
  (prev : gmap segment (option segment)) :
  (forall g n, (g, n) ∈ entries -> g = tt n /\ dist !! n = Some g) ->
  (forall n, match prev !! n with
             | Some None => dist !! n = Some (tt n)
             | Some (Some _) => False
             | None => dist !! n = None
             end) ->
  entries_above entries dist /\ cost_bound tt w dist prev.
Proof.
  intros He Hp. split; [|split].
  - intros g n Hin. destruct (He g n Hin) as [-> Hn]. exists (tt n).
    split; [done|lra].
  - intros n [d Hn]. specialize (Hp n).
    destruct (prev !! n) as [[u|]|]; [done|by eexists|congruence].
  - intros n. specialize (Hp n).
    destruct (prev !! n) as [[u|]|]; [done| |done].
    exists (tt n). split; [done|lra].
Qed.

End CostBound.

Section BoundRoute.
Variable EG : edge_graph.
Hypothesis Hnonneg : nonneg_costs EG.

Local Abbreviation tt := (enode_travel_time EG).
Local Abbreviation bound := (cost_bound (enode_travel_time EG) (turn_cost EG)).

(** Along forward predecessors the route costs no more than its last
    segment is known to cost. *)
Lemma bound_route_time dist prev fuel t p d :
  bound dist prev -> dist !! t = Some d ->
  prev_chain fuel prev (Some t) = Some p ->
  exists s rest,
    rev p = s :: rest /\ last (s :: rest) = Some t /\
    (route_tt_loop EG s rest (0 + tt s) <= d)%Q.
Proof.
  intros [Hdom Hk]. revert t p d.
  induction fuel as [|fuel IH]; intros t p d Hd; [done|].
  simpl.
  destruct (prev_chain fuel prev (mjoin (prev !! t))) as [path|] eqn:E;
    [|done].
  intros [= <-]. pose proof (Hk t) as Hkt.
  destruct (Hdom t) as [pt Hpt]; [by eexists|]. rewrite Hpt in *.
  destruct pt as [u|]; simpl in E.
  - destruct Hkt as (du & dn & Hdu & Hdn & Hle).
    rewrite Hd in Hdn. injection Hdn as <-.
    destruct (IH u path du Hdu E) as (s & rest & Hrev & Hlast & Hsum).
    exists s, (rest ++ [t]). simpl. rewrite Hrev. split; [done|]. split.
    + change (s :: rest ++ [t]) with ((s :: rest) ++ [t]). by rewrite last_snoc.
    + rewrite (route_tt_loop_snoc EG s rest t u) by done. lra.
  - assert (path = []) as -> by (destruct fuel; simpl in E; congruence).
    exists t, []. simpl. split; [done|]. split; [done|].
    destruct Hkt as (d' & Hd' & Hle). rewrite Hd in Hd'. injection Hd' as <-.
    lra.
Qed.

Section AStarBound.
Variables (allow_closed : bool) (max_visits : option Z).
Variables (targets : list segment) (h : segment -> Q).

Lemma astar_relax_bound1 n g st v :
  entries_above (map entry_cost (a_heap st)) (a_gscore st) ->
  bound (a_gscore st) (a_prev st) ->
  (exists dn, a_gscore st !! n = Some dn /\ (dn <= g)%Q) ->
  let st' := astar_relax EG allow_closed h n g st v in
  entries_above (map entry_cost (a_heap st')) (a_gscore st') /\
  bound (a_gscore st') (a_prev st') /\
  (exists dn, a_gscore st' !! n = Some dn /\ (dn <= g)%Q).
Proof.
  intros He Hb Hn. cbv zeta. unfold astar_relax.
  destruct (skip_closed EG allow_closed v); [done|]. cbv zeta.
  destruct (lt_get _ (a_gscore st !! v)) eqn:Hlt; [|done].
  destruct Hnonneg as [Htt Htc].
  destruct (cost_bound_update (enode_travel_time EG) (turn_cost EG) Htt Htc
              _ _ _ n g v _ He Hb Hn (Qeq_refl _) Hlt) as (He' & Hb' & Hdec).
  simpl. split; [done|]. split; [done|].
  destruct Hn as (dn & Hdn & Hle).
  destruct (Hdec n dn Hdn) as (d' & Hd' & Hle'). exists d'. split; [done|lra].
Qed.

Lemma astar_relax_bound n g l st :
  entries_above (map entry_cost (a_heap st)) (a_gscore st) ->
  bound (a_gscore st) (a_prev st) ->
  (exists dn, a_gscore st !! n = Some dn /\ (dn <= g)%Q) ->
  let st' := fold_left (astar_relax EG allow_closed h n g) l st in
  entries_above (map entry_cost (a_heap st')) (a_gscore st') /\
  bound (a_gscore st') (a_prev st').
Proof.
  revert st. induction l as [|v l IH]; intros st He Hb Hn; [done|].
  simpl. destruct (astar_relax_bound1 n g st v He Hb Hn) as (He' & Hb' & Hn').
  by apply IH.
Qed.

Lemma astar_seed_bound l :
  let st := fold_left (astar_seed EG allow_closed h) l (AState [] ∅ ∅ 0 ∅) in
  entries_above (map entry_cost (a_heap st)) (a_gscore st) /\
  bound (a_gscore st) (a_prev st).
Proof.
  cbv zeta. destruct Hnonneg as [Htt Htc].
  assert (Hgen : forall st,
    (forall g n, (g, n) ∈ map entry_cost (a_heap st) ->
       g = tt n /\ a_gscore st !! n = Some g) ->
    (forall n, match a_prev st !! n with
               | Some None => a_gscore st !! n = Some (tt n)
               | Some (Some _) => False
               | None => a_gscore st !! n = None
               end) ->
    let st' := fold_left (astar_seed EG allow_closed h) l st in
    entries_above (map entry_cost (a_heap st')) (a_gscore st') /\
    bound (a_gscore st') (a_prev st')).
  { induction l as [|s l IH]; intros st He Hp.
    - simpl. by apply cost_bound_seeded.
    - simpl.
      assert (Hs :
        (forall g n,
           (g, n) ∈ map entry_cost (a_heap (astar_seed EG allow_closed h st s)) ->
           g = tt n /\ a_gscore (astar_seed EG allow_closed h st s) !! n = Some g)
        /\
        (forall n,
           match a_prev (astar_seed EG allow_closed h st s) !! n with
           | Some None =>
               a_gscore (astar_seed EG allow_closed h st s) !! n = Some (tt n)
           | Some (Some _) => False
           | None => a_gscore (astar_seed EG allow_closed h st s) !! n = None
           end)).
      { unfold astar_seed. destruct (skip_closed EG allow_closed s); [done|].
        simpl. by apply cost_bound_seed. }
      destruct Hs as [He' Hp']. by apply IH. }
  apply Hgen; simpl.
  - intros g n Hin. by apply elem_of_nil in Hin.
  - intros n. by rewrite !lookup_empty.
Qed.

Lemma astar_loop_bound fuel st r :
  entries_above (map entry_cost (a_heap st)) (a_gscore st) ->
  bound (a_gscore st) (a_prev st) ->
  astar_loop EG allow_closed max_visits targets h fuel st = Some r ->
  bound (a_gscore r.1) (a_prev r.1) /\
  forall t c, r.2 = Some (t, c) ->
    exists d, a_gscore r.1 !! t = Some d /\ (d <= c)%Q.
Proof.
  revert st. induction fuel as [|fuel IH]; intros st He Hb; [done|].
  simpl.
  destruct (heappop entry3_le (a_heap st)) as [[[[f g] n] heap]|] eqn:Hpop.
  2: { intros [= <-]. by simpl. }
  destruct (heappop_split _ _ _ _ Hpop) as (l1 & l2 & Hq & ->).
  assert (He0 : entries_above (map entry_cost (l1 ++ l2)) (a_gscore st)).
  { intros g' n' Hin. apply He. rewrite Hq.
    rewrite map_app in *. simpl. by apply elem_of_middle_incl. }
  assert (Hn : exists dn, a_gscore st !! n = Some dn /\ (dn <= g)%Q).
  { apply He. rewrite Hq, map_app. simpl. apply elem_of_app. right.
    by left. }
  simpl.
  destruct (cap_reached max_visits (a_expanded st)).
  { intros [= <-]. by simpl. }
  destruct (bool_decide (n ∈ a_visited st)); [by apply IH|].
  destruct (gt_get g (a_gscore st !! n)); [by apply IH|].
  destruct (bool_decide (n ∈ targets)).
  { intros [= <-]. simpl. split; [done|]. by intros t' c' [= <- <-]. }
  apply IH; apply astar_relax_bound; done.
Qed.

End AStarBound.

End BoundRoute.

Section BoundReported.
Context `{RT : PyRuntime}.

(** X24: with non-negative travel times and turn costs, and whatever the
    heuristic, the route [astar_route] reports takes no longer, by
    [compute_route_tt], than the cost reported with it. *)
Theorem astar_cost_bounds_route_time fuel EG s t constraints vmax_mps
  allow_closed max_visits r path :
  nonneg_costs EG ->
  astar_route fuel EG s t constraints vmax_mps allow_closed max_visits
  = Ret r ->
  route_enodes r = Some path ->
  cost_le (compute_route_tt EG path) (r_cost r).
Proof.
  intros Hnn. unfold astar_route. intros H. inv_bind H.
  destruct a as [[starts tgts]|]; [|by injection H as <-].
  destruct tgts as [|sample tgts]; [done|].
  destruct (Qeq_bool vmax_mps 0 && _); [done|].
  set (h := heuristic EG _ _ vmax_mps) in *.
  unfold astar_search in H. inv_bind H.
  destruct (astar_loop _ _ _ _ _ _ _) as [[st' res]|] eqn:Hloop; [|done].
  injection Ha0 as <-. simpl in H.
  destruct (astar_seed_bound EG Hnn allow_closed h starts) as [He Hb].
  destruct (astar_loop_bound EG Hnn allow_closed max_visits (sample :: tgts) h
              fuel _ (st', res) He Hb Hloop) as [Hb' Hbest].
  simpl in *. unfold search_result in H.
  destruct res as [[t' c]|]; [|by injection H as <-].
  destruct (Hbest t' c eq_refl) as (d & Hd & Hdc).
  inv_bind H. injection H as <-. simpl. intros [= <-].
  destruct (prev_chain fuel (a_prev st') (Some t')) as [p|] eqn:E; [|done].
  injection Ha0 as <-.
  destruct (bound_route_time EG (a_gscore st') (a_prev st') fuel t' p d Hb' Hd E)
    as (s0 & rest & -> & _ & Hsum).
  simpl. lra.
Qed.

End BoundReported.

Lemma astar_cost_bounds_route_time_witness :
  cost_le
    (compute_route_tt detour_graph
       [(1, 2, 0); (2, 3, 0); (3, 4, 0); (4, 5, 0); (5, 6, 0)]%Z)
    (Fin 16).
Proof.
  apply (@astar_cost_bounds_route_time example_runtime 20 detour_graph 1 6
           None 30 false None
           {| route_nodes := Some [1; 2; 3; 4; 5; 6]%Z;
              route_enodes :=
                Some [(1, 2, 0); (2, 3, 0); (3, 4, 0); (4, 5, 0); (5, 6, 0)]%Z;
              r_cost := Fin 16; r_expanded := 6 |}).
  - by apply nonneg_costs_check_sound.
  - vm_compute. reflexivity.
  - reflexivity.
Defined.

Lemma route_tt_loop_app EG s rest m pb acc :
  last (s :: rest) = Some m ->
  route_tt_loop EG s (rest ++ pb) acc
  = route_tt_loop EG m pb (route_tt_loop EG s rest acc).
Proof.
  revert s acc. induction rest as [|x rest IH]; intros s acc Hlast.
  - simpl in *. by injection Hlast as ->.
  - simpl. apply IH. by rewrite last_cons_cons in Hlast.
Qed.

Lemma route_tt_loop_from EG u rest acc :
  (route_tt_loop EG u rest acc == route_tt_loop EG u rest 0 + acc)%Q.
Proof.
  rewrite <- route_tt_loop_shift.
  apply Qle_antisym; apply route_tt_loop_le; lra.
Qed.

Section BidirBound.
Variables (EG : edge_graph) (allow_closed : bool) (max_visits : option Z).
Variables (hf hb : segment -> Q).
Hypothesis Hnonneg : nonneg_costs EG.

Local Abbreviation tt := (enode_travel_time EG).
Local Abbreviation wf := (turn_cost EG).
Local Abbreviation wb := (fun u n : segment => turn_cost EG n u).
Local Abbreviation inv := (bidir_bound EG).

(** Along backward predecessors, what lies between a segment and the
    target costs no more than the segment is known to cost. *)
Lemma bound_back_time dist prev fuel m pb d :
  cost_bound tt wb dist prev -> dist !! m = Some d ->
  prev_chain fuel prev (mjoin (prev !! m)) = Some pb ->
  (tt m + route_tt_loop EG m pb 0 <= d)%Q.
Proof.
  intros [Hdom Hk]. revert m pb d.
  assert (Hend : forall m d, dist !! m = Some d -> mjoin (prev !! m) = None ->
            (tt m + route_tt_loop EG m [] 0 <= d)%Q).
  { intros m d Hd Hj. simpl. specialize (Hk m).
    destruct (Hdom m) as [pm Hpm]; [by eexists|]. rewrite Hpm in *.
    destruct pm as [u|]; [done|]. destruct Hk as (d' & Hd' & Hle).
    rewrite Hd in Hd'. injection Hd' as <-. lra. }
  induction fuel as [|fuel IH]; intros m pb d Hd.
  - destruct (mjoin (prev !! m)) eqn:Hj; simpl; [done|].
    intros [= <-]. by apply Hend.
  - destruct (mjoin (prev !! m)) as [u|] eqn:Hj.
    2: { simpl. intros [= <-]. by apply Hend. }
    simpl.
    destruct (prev_chain fuel prev (mjoin (prev !! u))) as [path|] eqn:E;
      [|done].
    intros [= <-]. specialize (Hk m).
    destruct (prev !! m) as [[u'|]|]; simpl in Hj; try done.
    injection Hj as ->.
    destruct Hk as (du & dm & Hdu & Hdm & Hle).
    rewrite Hd in Hdm. injection Hdm as <-.
    specialize (IH u path du Hdu E). simpl.
    pose proof (route_tt_loop_from EG u path
                  (0 + turn_cost EG m u + enode_travel_time EG u)%Q).
    lra.
Qed.

Lemma bidir_meet_bound_fwd n g st :
  inv st -> (exists dn, g_fwd st !! n = Some dn /\ (dn <= g)%Q) ->
  inv (bidir_meet (g_bwd st) n g st) /\
  g_fwd (bidir_meet (g_bwd st) n g st) = g_fwd st /\
  prev_fwd (bidir_meet (g_bwd st) n g st) = prev_fwd st /\
  open_fwd (bidir_meet (g_bwd st) n g st) = open_fwd st.
Proof.
  intros HI (dn & Hdn & Hle). unfold bidir_meet.
  destruct (g_bwd st !! n) as [g'|] eqn:E; [|done].
  destruct (cost_lt _ _); [|done]. split; [|done].
  destruct HI as [H1 H2 H3 H4 H5]. split; simpl; try done.
  intros m [= <-]. exists (g + g')%Q, dn, g'. repeat split; try done. lra.
Qed.

Lemma bidir_meet_bound_bwd n g st :
  inv st -> (exists dn, g_bwd st !! n = Some dn /\ (dn <= g)%Q) ->
  inv (bidir_meet (g_fwd st) n g st) /\
  g_bwd (bidir_meet (g_fwd st) n g st) = g_bwd st /\
  prev_bwd (bidir_meet (g_fwd st) n g st) = prev_bwd st /\
  open_bwd (bidir_meet (g_fwd st) n g st) = open_bwd st.
Proof.
  intros HI (dn & Hdn & Hle). unfold bidir_meet.
  destruct (g_fwd st !! n) as [g'|] eqn:E; [|done].
  destruct (cost_lt _ _); [|done]. split; [|done].
  destruct HI as [H1 H2 H3 H4 H5]. split; simpl; try done.
  intros m [= <-]. exists (g + g')%Q, g', dn. repeat split; try done. lra.
Qed.

Lemma bidir_relax_fwd_bound n g l st :
  inv st -> (exists dn, g_fwd st !! n = Some dn /\ (dn <= g)%Q) ->
  inv (fold_left (bidir_relax_fwd EG allow_closed hf n g) l st).
Proof.
  revert st. induction l as [|v l IH]; intros st HI Hn; [done|].
  simpl.
  assert (inv (bidir_relax_fwd EG allow_closed hf n g st v) /\
          exists dn, g_fwd (bidir_relax_fwd EG allow_closed hf n g st v) !! n
                     = Some dn /\ (dn <= g)%Q) as [HI' Hn'].
  { unfold bidir_relax_fwd.
    destruct (skip_closed EG allow_closed v); [done|]. cbv zeta.
    destruct (lt_get _ (g_fwd st !! v)) eqn:Hlt; [|done].
    destruct Hnonneg as [Htt Htc].
    destruct HI as [H1 H2 H3 H4 H5].
    destruct (cost_bound_update (enode_travel_time EG) (turn_cost EG) Htt Htc
                _ _ _ n g v _ H1 H2 Hn (Qeq_refl _) Hlt)
      as (He' & Hb' & Hdec).
    split.
    - split; simpl; try done.
      intros m Hm. destruct (H5 m Hm) as (c & a & b & Hc & Ha & Hb & Hle).
      destruct (Hdec m a Ha) as (a' & Ha' & Hle').
      exists c, a', b. repeat split; try done. lra.
    - simpl. destruct Hn as (dn & Hdn & Hle).
      destruct (Hdec n dn Hdn) as (d' & Hd' & Hle'). exists d'.
      split; [done|lra]. }
  by apply IH.
Qed.

Lemma bidir_relax_bwd_bound n g l st :
  inv st -> (exists dn, g_bwd st !! n = Some dn /\ (dn <= g)%Q) ->
  inv (fold_left (bidir_relax_bwd EG allow_closed hb n g) l st).
Proof.
  revert st. induction l as [|v l IH]; intros st HI Hn; [done|].
  simpl.
  assert (inv (bidir_relax_bwd EG allow_closed hb n g st v) /\
          exists dn, g_bwd (bidir_relax_bwd EG allow_closed hb n g st v) !! n
                     = Some dn /\ (dn <= g)%Q) as [HI' Hn'].
  { unfold bidir_relax_bwd.
    destruct (skip_closed EG allow_closed v); [done|]. cbv zeta.
    destruct (lt_get _ (g_bwd st !! v)) eqn:Hlt; [|done].
    destruct Hnonneg as [Htt Htc].
    destruct HI as [H1 H2 H3 H4 H5].
    destruct (cost_bound_update (enode_travel_time EG)
                (fun u x => turn_cost EG x u) Htt (fun x y => Htc y x)
                _ _ _ n g v _ H3 H4 Hn (Qeq_refl _) Hlt)
      as (He' & Hb' & Hdec).
    split.
    - split; simpl; try done.
      intros m Hm. destruct (H5 m Hm) as (c & a & b & Hc & Ha & Hb & Hle).
      destruct (Hdec m b Hb) as (b' & Hb'' & Hle').
      exists c, a, b'. repeat split; try done. lra.
    - simpl. destruct Hn as (dn & Hdn & Hle).
      destruct (Hdec n dn Hdn) as (d' & Hd' & Hle'). exists d'.
      split; [done|lra]. }
  by apply IH.
Qed.

Lemma entries_above_pop (heap : list (Q * Q * segment)) f g n l1 l2 dist :
  heap = l1 ++ (f, g, n) :: l2 ->
  entries_above (map entry_cost heap) dist ->
  entries_above (map entry_cost (l1 ++ l2)) dist /\
  exists dn, dist !! n = Some dn /\ (dn <= g)%Q.
Proof.
  intros -> He. split.
  - intros g' n' Hin. apply He. rewrite map_app in *. simpl.
    by apply elem_of_middle_incl.
  - apply He. rewrite map_app. simpl. apply elem_of_app. right. by left.
Qed.

Lemma bidir_step_bwd_bound st :
  inv st -> inv (bidir_step_bwd EG allow_closed hb st).
Proof.
  intros HI. unfold bidir_step_bwd.
  destruct (heappop entry3_le (open_bwd st)) as [[[[f g] n] heap]|] eqn:Hpop;
    [|done].
  destruct (heappop_split _ _ _ _ Hpop) as (l1 & l2 & Hq & ->).
  pose proof HI as [H1 H2 H3 H4 H5].
  destruct (entries_above_pop _ f g n l1 l2 _ Hq H3) as [H3' Hn].
  set (st0 := BState (open_fwd st) (l1 ++ l2) (g_fwd st) (g_bwd st)
                (prev_fwd st) (prev_bwd st) (b_expanded st + 1)
                (best_cost st) (meeting_node st)).
  assert (HI0 : inv st0) by (split; done).
  simpl. destruct (gt_get g (g_bwd st !! n)); [done|].
  destruct (bidir_meet_bound_bwd n g st0 HI0 Hn) as (HI1 & Hg1 & _).
  change (inv (fold_left (bidir_relax_bwd EG allow_closed hb n g)
                 (predecessors EG n) (bidir_meet (g_fwd st0) n g st0))).
  apply bidir_relax_bwd_bound; [done|]. by rewrite Hg1.
Qed.

Lemma bidir_loop_bound fuel st st' :
  inv st ->
  bidir_loop EG allow_closed max_visits hf hb fuel st = Some st' ->
  inv st'.
Proof.
  revert st. induction fuel as [|fuel IH]; intros st HI; [done|].
  simpl. destruct (open_bwd st) as [|e0 bw] eqn:Hbw; [by intros [= <-]|].
  destruct (heappop entry3_le (open_fwd st)) as [[[[f g] n] heap]|] eqn:Hpop;
    [|by intros [= <-]].
  destruct (cap_reached_truthy max_visits (b_expanded st));
    [by intros [= <-]|].
  destruct (heappop_split _ _ _ _ Hpop) as (l1 & l2 & Hq & ->).
  pose proof HI as [H1 H2 H3 H4 H5].
  destruct (entries_above_pop _ f g n l1 l2 _ Hq H1) as [H1' Hn].
  set (st0 := BState (l1 ++ l2) (e0 :: bw) (g_fwd st) (g_bwd st)
                (prev_fwd st) (prev_bwd st) (b_expanded st + 1)
                (best_cost st) (meeting_node st)).
  assert (HI0 : inv st0).
  { split; simpl; try done. rewrite Hbw in H3. exact H3. }
  simpl. destruct (gt_get g (g_fwd st !! n)); [by apply IH|].
  destruct (bidir_meet_bound_fwd n g st0 HI0 Hn) as (HI1 & Hg1 & _).
  apply IH. apply bidir_step_bwd_bound.
  change (inv (fold_left (bidir_relax_fwd EG allow_closed hf n g)
                 (successors EG n) (bidir_meet (g_bwd st0) n g st0))).
  apply bidir_relax_fwd_bound; [done|]. by rewrite Hg1.
Qed.

Lemma bidir_init_bound starts tgts :
  inv (bidir_init EG allow_closed hf hb starts tgts).
Proof.
  assert (Hf : forall l st,
    seeded_costs tt (map entry_cost (open_fwd st)) (g_fwd st) (prev_fwd st) ->
    let st' := fold_left (bidir_seed_fwd EG allow_closed hf) l st in
    seeded_costs tt (map entry_cost (open_fwd st')) (g_fwd st') (prev_fwd st')
    /\ open_bwd st' = open_bwd st /\ g_bwd st' = g_bwd st /\
    prev_bwd st' = prev_bwd st /\ meeting_node st' = meeting_node st).
  { induction l as [|s l IH]; intros st HS; [done|]. simpl.
    assert (seeded_costs tt
              (map entry_cost (open_fwd (bidir_seed_fwd EG allow_closed hf st s)))
              (g_fwd (bidir_seed_fwd EG allow_closed hf st s))
              (prev_fwd (bidir_seed_fwd EG allow_closed hf st s)) /\
            open_bwd (bidir_seed_fwd EG allow_closed hf st s) = open_bwd st /\
            g_bwd (bidir_seed_fwd EG allow_closed hf st s) = g_bwd st /\
            prev_bwd (bidir_seed_fwd EG allow_closed hf st s) = prev_bwd st /\
            meeting_node (bidir_seed_fwd EG allow_closed hf st s)
            = meeting_node st) as (HS' & E1 & E2 & E3 & E4).
    { unfold bidir_seed_fwd. destruct (skip_closed EG allow_closed s); [done|].
      simpl. split; [|done]. destruct HS as [He Hp].
      by apply cost_bound_seed. }
    destruct (IH _ HS') as (HS'' & F1 & F2 & F3 & F4).
    split; [done|]. repeat split; congruence. }
  assert (Hb : forall l st,
    seeded_costs tt (map entry_cost (open_bwd st)) (g_bwd st) (prev_bwd st) ->
    let st' := fold_left (bidir_seed_bwd EG allow_closed hb) l st in
    seeded_costs tt (map entry_cost (open_bwd st')) (g_bwd st') (prev_bwd st')
    /\ open_fwd st' = open_fwd st /\ g_fwd st' = g_fwd st /\
    prev_fwd st' = prev_fwd st /\ meeting_node st' = meeting_node st).
  { induction l as [|s l IH]; intros st HS; [done|]. simpl.
    assert (seeded_costs tt
              (map entry_cost (open_bwd (bidir_seed_bwd EG allow_closed hb st s)))
              (g_bwd (bidir_seed_bwd EG allow_closed hb st s))
              (prev_bwd (bidir_seed_bwd EG allow_closed hb st s)) /\
            open_fwd (bidir_seed_bwd EG allow_closed hb st s) = open_fwd st /\
            g_fwd (bidir_seed_bwd EG allow_closed hb st s) = g_fwd st /\
            prev_fwd (bidir_seed_bwd EG allow_closed hb st s) = prev_fwd st /\
            meeting_node (bidir_seed_bwd EG allow_closed hb st s)
            = meeting_node st) as (HS' & E1 & E2 & E3 & E4).
    { unfold bidir_seed_bwd. destruct (skip_closed EG allow_closed s); [done|].
      simpl. split; [|done]. destruct HS as [He Hp].
      by apply cost_bound_seed. }
    destruct (IH _ HS') as (HS'' & F1 & F2 & F3 & F4).
    split; [done|]. repeat split; congruence. }
  unfold bidir_init.
  set (st0 := BState [] [] ∅ ∅ ∅ ∅ 0 Inf None).
  assert (HS0 : forall entries,
            entries = [] -> seeded_costs tt entries (∅ : gmap segment Q) ∅).
  { intros entries ->. split.
    - intros g n Hin. by apply elem_of_nil in Hin.
    - intros n. by rewrite !lookup_empty. }
  destruct (Hf starts st0) as (HSf & E1 & E2 & E3 & E4); [by apply HS0|].
  set (st1 := fold_left (bidir_seed_fwd EG allow_closed hf) starts st0) in *.
  destruct (Hb tgts st1) as (HSb & F1 & F2 & F3 & F4).
  { rewrite E1, E2, E3. by apply HS0. }
  set (st2 := fold_left (bidir_seed_bwd EG allow_closed hb) tgts st1) in *.
  destruct Hnonneg as [Htt Htc].
  destruct HSf as [Hef Hpf]. destruct HSb as [Heb Hpb].
  rewrite <- F1, <- F2 in Hef. rewrite <- F2, <- F3 in Hpf.
  destruct (cost_bound_seeded tt wf _ _ _ Hef Hpf) as [A1 A2].
  destruct (cost_bound_seeded tt wb _ _ _ Heb Hpb) as [B1 B2].
  split; try done.
  intros m Hm. rewrite F4, E4 in Hm. done.
Qed.

End BidirBound.

Section BidirReported.
Context `{RT : PyRuntime}.


End BidirReported.


(** ** The level [_plan_route] settles on *)

Lemma level_range_lookup m i :
  (i < Z.to_nat (m + 1))%nat -> level_range m !! i = Some (Z.of_nat i).
Proof.
  intros Hi. unfold level_range. rewrite list_lookup_fmap.
  rewrite lookup_seq_lt by done. done.
Qed.

Lemma level_range_split m pre l post :
  level_range m = pre ++ l :: post ->
  l = Z.of_nat (length pre) /\ (0 <= l <= m)%Z /\
  forall l', (0 <= l' < l)%Z -> l' ∈ pre.
Proof.
  intros E.
  assert (Hlen : (length pre < Z.to_nat (m + 1))%nat).
  { assert (length (level_range m) = Z.to_nat (m + 1)) as <-.
    { unfold level_range. by rewrite length_map, length_seq. }
    rewrite E, length_app. simpl. lia. }
  assert (Hl : l = Z.of_nat (length pre)).
  { pose proof (level_range_lookup m (length pre) Hlen) as H.
    rewrite E in H. rewrite lookup_app_r in H by lia.
    rewrite Nat.sub_diag in H. simpl in H. congruence. }
  split; [done|]. split; [lia|].
  intros l' Hl'.
  assert (Hi : (Z.to_nat l' < length pre)%nat) by lia.
  pose proof (level_range_lookup m (Z.to_nat l')) as H.
  rewrite E in H. rewrite lookup_app_l in H by done.
  rewrite Z2Nat.id in H by lia.
  apply (list_elem_of_lookup_2 _ (Z.to_nat l')). apply H. lia.
Qed.

Section Levels.
Context `{RT : PyRuntime}.

Lemma validate_route_invalid EG route c p :
  validate_route EG route c = Ret (false, p) -> p = Inf.
Proof.
  assert (Hloop : forall l acc,
    validate_route_loop EG l c acc = Ret (false, p) -> p = Inf).
  { induction l as [|en l IH]; intros acc; simpl; [done|].
    intros H. inv_bind H. destruct a as [valid pen]. destruct valid.
    - by apply IH in H.
    - by injection H as <-. }
  unfold validate_route. destruct route as [[|en l]|].
  - by intros [= <-].
  - apply Hloop.
  - by intros [= <-].
Qed.

(** What the loop over the levels returns: the result of the first level
    at which the route of [_run_search] validates, or, with every level
    rejected, the infeasible result. *)
Lemma plan_levels_result fuel EG s t vt base cl levels r :
  plan_levels fuel EG s t vt base cl levels = Ret r ->
  (levels = [] /\ r = infeasible s t vt) \/
  exists res,
    _run_search fuel EG s t (truthy cl) = Ret (Some res) /\
    ((exists pre l post q,
        levels = pre ++ l :: post /\
        (forall l', l' ∈ pre ->
           validate_route EG (route_enodes res) (relax_constraints base l')
           = Ret (false, Inf)) /\
        validate_route EG (route_enodes res) (relax_constraints base l)
        = Ret (true, Fin q) /\
        p_valid r = true /\ p_relax_level r = Some l /\
        p_penalty r = Fin q /\ p_route_enodes r = route_enodes res)
     \/
     ((forall l', l' ∈ levels ->
         validate_route EG (route_enodes res) (relax_constraints base l')
         = Ret (false, Inf)) /\
      p_valid r = false /\ r = infeasible s t vt)).
Proof.
  induction levels as [|l0 levels IH]; simpl.
  - intros [= <-]. by left.
  - intros H. right. inv_bind H. destruct a as [res|]; [|done].
    exists res. split; [done|]. inv_bind H. destruct a as [valid pen].
    destruct valid.
    + injection H as <-. left.
      pose proof (run_search_result _ _ _ _ _ _ Ha)
        as (rd & ra & rb & _ & _ & _ & _ & (route & Hroute & Hne) & _).
      rewrite Hroute in Ha0.
      assert (exists q, pen = Fin q) as [q ->].
      { apply validate_route_valid in Ha0 as (_ & qs & _ & ->). eauto. }
      exists [], l0, levels, q. simpl. rewrite Hroute.
      repeat split; try done. intros l' Hl'. by apply elem_of_nil in Hl'.
    + apply validate_route_invalid in Ha0 as Hp. subst pen.
      destruct (IH H) as [[-> ->]|(res' & Hres' & Hcase)].
      * right. split; [|done].
        intros l' Hl'. apply list_elem_of_singleton in Hl' as ->. done.
      * rewrite Ha in Hres'. injection Hres' as <-.
        destruct Hcase as [(pre & l & post & q & -> & Hpre & Hl & Hrest)
                          |(Hall & Hv & ->)].
        -- left. exists (l0 :: pre), l, post, q. split; [done|].
           split; [|done].
           intros l' [->|Hl']%elem_of_cons; [done|by apply Hpre].
        -- right. split; [|done].
           intros l' [->|Hl']%elem_of_cons; [done|by apply Hall].
Qed.

(** X26: the level [_plan_route] returns is the lowest at which the
    route validates: the route is the one [_run_search] found; it is valid
    under the constraint set of the returned level and rejected under the
    one of every level below. *)
Theorem plan_route_first_valid_level fuel EG s t vehicle_type max_relax_level
  r level :
  _plan_route fuel EG s t vehicle_type max_relax_level = Ret r ->
  p_relax_level r = Some level ->
  exists base flag res q,
    VEHICLE_PROFILES !! vehicle_type = Some base /\
    base !! "avoid_closed" = Some flag /\
    _run_search fuel EG s t (truthy flag) = Ret (Some res) /\
    p_route_enodes r = route_enodes res /\
    (0 <= level <= max_relax_level)%Z /\
    validate_route EG (route_enodes res) (relax_constraints base level)
    = Ret (true, Fin q) /\
    p_valid r = true /\ p_penalty r = Fin q /\
    forall l', (0 <= l' < level)%Z ->
      validate_route EG (route_enodes res) (relax_constraints base l')
      = Ret (false, Inf).
Proof.
  unfold _plan_route.
  destruct (VEHICLE_PROFILES !! vehicle_type) as [base|] eqn:Hb; [|done].
  destruct (base !! "avoid_closed") as [cl|] eqn:Hcl; [|done].
  intros H Hlevel.
  destruct (plan_levels_result _ _ _ _ _ _ _ _ _ H)
    as [[_ ->]|(res & Hres & [Hfound|(_ & _ & ->)])]; try done.
  destruct Hfound as (pre & l & post & q & E & Hpre & Hl & Hv & Hrl & Hp & Hr).
  rewrite Hlevel in Hrl. injection Hrl as <-.
  destruct (level_range_split _ _ _ _ E) as (_ & Hrange & Hbelow).
  exists base, cl, res, q. repeat split; try done; try lia.
  intros l' Hl'. by apply Hpre, Hbelow.
Qed.

(** X27: [_plan_route] returns a result that is not valid only as the
    infeasible result, only for [max_relax_level] below 3, and only when
    the route of [_run_search] is rejected under the constraint set of
    every level from 0 to [max_relax_level]. *)
Theorem plan_route_infeasible_only_if fuel EG s t vehicle_type max_relax_level
  r :
  _plan_route fuel EG s t vehicle_type max_relax_level = Ret r ->
  p_valid r = false ->
  r = infeasible s t vehicle_type /\ (max_relax_level < 3)%Z /\
  forall level, (0 <= level <= max_relax_level)%Z ->
    exists base flag res,
      VEHICLE_PROFILES !! vehicle_type = Some base /\
      base !! "avoid_closed" = Some flag /\
      _run_search fuel EG s t (truthy flag) = Ret (Some res) /\
      validate_route EG (route_enodes res) (relax_constraints base level)
      = Ret (false, Inf).
Proof.
  unfold _plan_route.
  destruct (VEHICLE_PROFILES !! vehicle_type) as [base|] eqn:Hb; [|done].
  destruct (base !! "avoid_closed") as [cl|] eqn:Hcl; [|done].
  intros H Hinv.
  assert (Hin : forall level, (0 <= level <= max_relax_level)%Z ->
            level ∈ level_range max_relax_level).
  { intros level Hl.
    apply (list_elem_of_lookup_2 _ (Z.to_nat level)).
    rewrite level_range_lookup by lia. f_equal. lia. }
  destruct (plan_levels_result _ _ _ _ _ _ _ _ _ H)
    as [[E ->]|(res & Hres & [Hfound|(Hall & _ & ->)])].
  - split; [done|].
    assert (Hneg : (max_relax_level < 0)%Z).
    { destruct (Z.lt_ge_cases max_relax_level 0) as [?|Hge]; [done|].
      specialize (Hin 0%Z). rewrite E in Hin.
      exfalso. eapply not_elem_of_nil. apply Hin. lia. }
    split; [lia|]. intros level Hl. lia.
  - destruct Hfound as (_ & _ & _ & _ & _ & _ & _ & Hv & _). congruence.
  - split; [done|].
    assert (Hlt : (max_relax_level < 3)%Z).
    { destruct (Z.lt_ge_cases max_relax_level 3) as [?|Hge]; [done|].
      exfalso.
      pose proof (run_search_result _ _ _ _ _ _ Hres)
        as (rd & ra & rb & _ & _ & _ & _ & (route & Hroute & Hne) & _).
      destruct (validate_route_level_3_valid EG route base 3) as [q Hq];
        [lia|done|].
      specialize (Hall 3%Z). rewrite Hroute, Hq in Hall.
      discriminate Hall. apply Hin. lia. }
    split; [done|]. intros level Hl. exists base, cl, res.
    repeat split; try done. by apply Hall, Hin.
Qed.

End Levels.

Lemma plan_route_first_valid_level_witness :
  exists base flag res q,
    VEHICLE_PROFILES !! "ambulance" = Some base /\
    base !! "avoid_closed" = Some flag /\
    _run_search (RT := example_runtime) 10 plain_bridge_graph 1 2
      (truthy flag) = Ret (Some res) /\
    Some [(1, 2, 0)%Z] = route_enodes res /\
    (0 <= 3 <= 3)%Z /\
    validate_route (RT := example_runtime) plain_bridge_graph
      (route_enodes res) (relax_constraints base 3)
    = Ret (true, Fin q) /\
    true = true /\ Fin 0 = Fin q /\
    forall l', (0 <= l' < 3)%Z ->
      validate_route (RT := example_runtime) plain_bridge_graph
        (route_enodes res) (relax_constraints base l')
      = Ret (false, Inf).
Proof.
  apply (@plan_route_first_valid_level example_runtime 10 plain_bridge_graph
           1 2 "ambulance" 3
           {| p_start_node := 1; p_target_node := 2;
              p_route_nodes := Some [1; 2]%Z;
              p_route_enodes := Some [(1, 2, 0)%Z];
              p_cost := Fin 0; p_expanded_nodes := 1; p_valid := true;
              p_penalty := Fin 0; p_total_time := Fin 1;
              p_vehicle_type := "ambulance"; p_relax_level := Some 3%Z;
              p_constraints_used :=
                Some (relax_constraints
                        (profile 3 4 1 true 1
                           ["max_height"; "max_weight"; "max_width"]) 3) |}
           3).
  - vm_compute. reflexivity.
  - reflexivity.
Defined.

Lemma plan_route_infeasible_only_if_witness :
  infeasible 1 2 "ambulance" = infeasible 1 2 "ambulance" /\ (2 < 3)%Z /\
  forall level, (0 <= level <= 2)%Z ->
    exists base flag res,
      VEHICLE_PROFILES !! "ambulance" = Some base /\
      base !! "avoid_closed" = Some flag /\
      _run_search (RT := example_runtime) 10 plain_bridge_graph 1 2
        (truthy flag) = Ret (Some res) /\
      validate_route (RT := example_runtime) plain_bridge_graph
        (route_enodes res) (relax_constraints base level)
      = Ret (false, Inf).
Proof.
  apply (@plan_route_infeasible_only_if example_runtime 10 plain_bridge_graph
           1 2 "ambulance" 2 (infeasible 1 2 "ambulance")).
  - vm_compute. reflexivity.
  - reflexivity.
Defined.

(** ** Fewer constraints never reject more *)

Section Weaken.
Context `{RT : PyRuntime}.
Variables (c c' : gmap string pyval).
Hypothesis Hsub : c' ⊆ c.

Lemma lookup_sub k v : c' !! k = Some v -> c !! k = Some v.
Proof. intros H. by apply (lookup_weaken c' c). Qed.

Lemma bridge_rejects_weaken data :
  bridge_rejects data c = Ret false -> bridge_rejects data c' = Ret false.
Proof.
  unfold bridge_rejects.
  destruct (py_in_yes_values (default (VStr "no") (bridge data))) as [b ->].
  simpl. destruct b; [|done].
  destruct (c' !! "max_height") as [lh|] eqn:Eh.
  - rewrite (lookup_sub _ _ Eh).
    destruct (float_gt _ lh) as [[]| |]; simpl; try done.
    destruct (c' !! "max_weight") as [lw|] eqn:Ew; [|done].
    by rewrite (lookup_sub _ _ Ew).
  - simpl. intros H.
    destruct (c' !! "max_weight") as [lw|] eqn:Ew; [|done].
    rewrite (lookup_sub _ _ Ew) in H.
    destruct (c !! "max_height") as [lh|]; simpl in H; [|done].
    by destruct (float_gt _ lh) as [[]| |].
Qed.

Lemma tunnel_rejects_weaken data :
  tunnel_rejects data c = Ret false -> tunnel_rejects data c' = Ret false.
Proof.
  unfold tunnel_rejects.
  destruct (py_in_yes_values (default (VStr "no") (tunnel data))) as [b ->].
  simpl. destruct b; [|done].
  destruct (c' !! "max_height") as [lh|] eqn:Eh; [|done].
  by rewrite (lookup_sub _ _ Eh).
Qed.

Lemma lanes_rejects_weaken data :
  lanes_rejects data c = Ret false -> lanes_rejects data c' = Ret false.
Proof.
  unfold lanes_rejects.
  destruct (c' !! "min_lanes") as [l|] eqn:E; [|done].
  by rewrite (lookup_sub _ _ E).
Qed.

Lemma add_non_preferred_weaken t r t' :
  add_non_preferred c t = Ret r -> exists r', add_non_preferred c' t' = Ret r'.
Proof.
  unfold add_non_preferred.
  destruct (c' !! "non_preferred_penalty") as [v|] eqn:E.
  - rewrite (lookup_sub _ _ E). simpl.
    destruct (py_num v); [by eexists|done].
  - simpl. by eexists.
Qed.

Lemma closed_general_weaken data t r t' :
  closed_general data c t = Ret r ->
  exists r', closed_general data c' t' = Ret r'.
Proof.
  unfold closed_general.
  destruct (c' !! "avoid_closed") as [v|] eqn:E; simpl; [|by eexists].
  rewrite (lookup_sub _ _ E). simpl.
  destruct (truthy v && _); [apply add_non_preferred_weaken|by eexists].
Qed.

Lemma closed_keyed_weaken data t r t' :
  closed_keyed data c t = Ret r ->
  exists r', closed_keyed data c' t' = Ret r'.
Proof.
  unfold closed_keyed.
  destruct (c' !! "avoid_closed") as [v|] eqn:E; [|by eexists].
  rewrite (lookup_sub _ _ E).
  destruct (truthy v); [|by eexists].
  destruct (truthy _); [apply add_non_preferred_weaken|by eexists].
Qed.

Lemma allow_list_weaken key value t r t' :
  allow_list key value c t = Ret r ->
  exists r', allow_list key value c' t' = Ret r'.
Proof.
  unfold allow_list.
  destruct (c' !! key) as [v|] eqn:E; [|by eexists].
  rewrite (lookup_sub _ _ E).
  destruct (py_in _ v) as [[]| |]; simpl; try done; [by eexists|].
  apply add_non_preferred_weaken.
Qed.

Lemma soft_penalty_weaken data t r t' :
  soft_penalty data c t = Ret r ->
  exists r', soft_penalty data c' t' = Ret r'.
Proof.
  unfold soft_penalty, allow_lists. intros H.
  inv_bind H. inv_bind H. inv_bind H. inv_bind H.
  destruct (closed_general_weaken _ _ _ t' Ha) as [r1 ->]. simpl.
  destruct (closed_keyed_weaken _ _ _ r1 Ha0) as [r2 ->]. simpl.
  destruct (allow_list_weaken _ _ _ _ r2 Ha1) as [r3 ->]. simpl.
  destruct (allow_list_weaken _ _ _ _ r3 Ha2) as [r4 ->]. simpl.
  by apply (allow_list_weaken _ _ _ _ r4 H).
Qed.

Lemma validate_single_edge_weaken EG en p :
  validate_single_edge EG en c = Ret (true, p) ->
  exists q, validate_single_edge EG en c' = Ret (true, Fin q).
Proof.
  unfold validate_single_edge. intros H.
  inv_bind H. destruct a; [done|].
  inv_bind H. destruct a; [done|].
  inv_bind H. destruct a; [done|].
  inv_bind H.
  rewrite (bridge_rejects_weaken _ Ha). simpl.
  rewrite (tunnel_rejects_weaken _ Ha0). simpl.
  rewrite (lanes_rejects_weaken _ Ha1). simpl.
  destruct (soft_penalty_weaken _ _ _ 0%Q Ha2) as [r' ->]. simpl.
  by eexists.
Qed.

(** X28: dropping constraints never turns an accepted route into a
    rejected one or into an error: a route that [validate_route] accepts
    under a constraint set is accepted under every set that holds some of
    its keys with the same values, in particular under the set of every
    higher relaxation level. *)
Theorem validate_route_weaken EG route p :
  validate_route EG route c = Ret (true, p) ->
  exists q, validate_route EG route c' = Ret (true, Fin q).
Proof.
  destruct route as [route|]; [|done]. intros H.
  apply validate_route_valid in H as (Hne & qs & HF & _).
  assert (exists qs', Forall2
            (fun en q => validate_single_edge EG en c' = Ret (true, Fin q))
            route qs') as [qs' HF'].
  { clear Hne. induction HF as [|en q route qs Hen _ [qs' IH]].
    - exists []. constructor.
    - destruct (validate_single_edge_weaken _ _ _ Hen) as [q' Hq'].
      exists (q' :: qs'). by constructor. }
  eexists. apply validate_route_valid. split; [done|]. by exists qs'.
Qed.

End Weaken.

Lemma validate_route_weaken_witness :
  exists q,
    validate_route (RT := example_runtime) bridge_graph
      (Some [(1, 2, 0)%Z]) ∅
    = Ret (true, Fin q).
Proof.
  apply (@validate_route_weaken example_runtime (height_limit (7 # 2)) ∅
           (map_empty_subseteq _) bridge_graph (Some [(1, 2, 0)%Z]) (Fin 0)).
  reflexivity.
Defined.
